(** * Operational scripts of MdSadiqMd/Scripts: a verification development

    Two Go programs are embedded here:

    - the Clerk user-name resolver ([FetchUserName], [ProcessExcel]:
      excel_clerk_processor/pkg), a spreadsheet of user identifiers enriched
      through one HTTP call per row behind a semaphore of [BATCH_SIZE] slots;
    - the GCS to S3 video migration, a listing filtered by extension and
      folder date and copied by a pool of [MaxWorkers] goroutines.  The
      repository holds two variants of this program.  The first reads the
      date from the second path segment ([port1/2025-09-07/...]) and skips an
      object whose date it cannot read; the second reads it from the first
      segment ([2025-09-07/...]), falls back to the object's creation time,
      and declares a [skippedDate] counter in [Stats].  Their workers move
      the counters alike.

    Sequential code is a Rocq function.  Goroutines, channels, the WaitGroup
    and the atomic counters are a transition system: a state record with a
    program point per thread, and one executable [fire] function per program
    that gives the effect of one atomic action of one thread, or [None] when
    that thread is blocked.  The runs of a program are all the sequences of
    actions, whatever the scheduler picks.  What the spreadsheet library, the
    identity service and the two object stores answer is an input of the
    model; log lines are left out.

    Around the two programs, the command line of the first ([ValidateFile],
    the output path, [main]) and the configuration of the second
    ([LoadConfig]) are functions of what the file system answers. *)

From Stdlib Require Import ZArith Lia Ascii String List.
From stdpp Require Import base option list gmap strings.

Open Scope string_scope.
Open Scope list_scope.
Open Scope Z_scope.

(** ** Go library functions used by the programs *)

Module Go.

(** [string([]byte(s))]: a Go string is its bytes. *)
Definition bytes_of_string (s : string) : list Byte.byte := list_byte_of_string s.
Definition string_of_bytes (b : list Byte.byte) : string := string_of_list_byte b.

(** [fmt.Sprintf("%s %s", a, b)]. *)
Definition Sprintf_s_s (a b : string) : string := a +:+ " " +:+ b.

(** [atomic.Int64] and [int]: two's complement, 64 bits. *)
Definition wrap64 (x : Z) : Z := (x + 2 ^ 63) mod 2 ^ 64 - 2 ^ 63.
Definition Int64_Add (x delta : Z) : Z := wrap64 (x + delta).

(** [strings.Split(s, sep)] for a one-byte separator: one part more than
    there are separators, never an empty slice. *)
Fixpoint Split (sep : ascii) (s : string) : list string :=
  match s with
  | EmptyString => [""]
  | String c s' =>
    if Ascii.eqb c sep then "" :: Split sep s'
    else match Split sep s' with
         | part :: parts => String c part :: parts
         | [] => [String c ""]
         end
  end.

(** [strings.HasSuffix(s, suffix)]. *)
Definition HasSuffix (s suffix : string) : bool :=
  (String.length suffix <=? String.length s)%nat
  && String.eqb (substring (String.length s - String.length suffix)
                           (String.length suffix) s) suffix.

(** [filepath.Ext(path)]: the loop
    [for i := len(path)-1; i >= 0 && !os.IsPathSeparator(path[i]); i--]
    with [/] the separator; [Ext_from path i] is the loop from index [i]. *)
Fixpoint Ext_from (path : string) (i : nat) : string :=
  match String.get i path with
  | None => ""
  | Some c =>
    if Ascii.eqb c "/" then ""
    else if Ascii.eqb c "." then substring i (String.length path - i) path
    else match i with
         | O => ""
         | S j => Ext_from path j
         end
  end.

Definition Ext (path : string) : string :=
  match String.length path with
  | O => ""
  | S i => Ext_from path i
  end.

(** [time.Time]: an instant, here in nanoseconds since the Unix epoch. *)
Definition Time : Type := Z.

Definition Before (t u : Time) : bool := t <? u.

Definition isLeap (year : Z) : bool :=
  (year mod 4 =? 0) && (negb (year mod 100 =? 0) || (year mod 400 =? 0)).

Definition daysIn (month year : Z) : Z :=
  if month =? 2 then (if isLeap year then 29 else 28)
  else if (month =? 4) || (month =? 6) || (month =? 9) || (month =? 11) then 30
  else 31.

Fixpoint daysBefore (months : nat) (year : Z) : Z :=
  match months with
  | O => 0
  | S m => daysBefore m year + daysIn (Z.of_nat (S m)) year
  end.

(** [time.Date(year, month, day, 0, 0, 0, 0, time.UTC)] for a valid date. *)
Definition Date (year month day : Z) : Time :=
  let y := year - 1 in
  let days := 365 * y + y / 4 - y / 100 + y / 400
              + daysBefore (Z.to_nat (month - 1)) year + (day - 1) - 719162 in
  days * 86400 * 1000000000.

Definition digit (c : ascii) : option Z :=
  let n := N_of_ascii c in
  if ((48 <=? n) && (n <=? 57))%N then Some (Z.of_N n - 48) else None.

(** [time.Parse("2006-01-02", value)]: four digits, [-], two digits, [-],
    two digits and nothing else; the month in 1..12 and the day in the
    month; the result is midnight UTC. *)
Definition Parse_date (value : string) : option Time :=
  match list_ascii_of_string value with
  | [y1; y2; y3; y4; h1; m1; m2; h2; d1; d2] =>
    match digit y1, digit y2, digit y3, digit y4,
          digit m1, digit m2, digit d1, digit d2 with
    | Some a, Some b, Some c, Some d, Some e, Some f, Some g, Some h =>
      let year := 1000 * a + 100 * b + 10 * c + d in
      let month := 10 * e + f in
      let day := 10 * g + h in
      if Ascii.eqb h1 "-" && Ascii.eqb h2 "-"
         && (1 <=? month) && (month <=? 12)
         && (1 <=? day) && (day <=? daysIn month year)
      then Some (Date year month day)
      else None
    | _, _, _, _, _, _, _, _ => None
    end
  | _ => None
  end.

(** [strings.ToLower] on a string of ASCII bytes. *)
Definition lower (c : ascii) : ascii :=
  let n := N_of_ascii c in
  if ((65 <=? n) && (n <=? 90))%N then ascii_of_N (n + 32) else c.

Fixpoint asciiLower (s : string) : string :=
  match s with
  | EmptyString => EmptyString
  | String c s' => String (lower c) (asciiLower s')
  end.

End Go.

(** ** The Clerk user-name resolver *)

Module Clerk.

(** [struct { EmailAddress string }], the element of [EmailAddresses]. *)
Record Email := { EmailAddress : string }.

Record ClerkUser := {
  FirstName : string;
  LastName : string;
  Username : string;
  EmailAddresses : list Email
}.

(** The errors [FetchUserName] returns, by the statement that returns them. *)
Inductive FetchError :=
| ErrNewRequest
| ErrTransport
| ErrStatus (code : Z)
| ErrUnmarshal.

(** What the outside world does with the one request of a call:
    [http.NewRequest] may refuse the URL, [client.Do] may fail (a timeout is
    such a failure), else a response arrives with a status code and a body
    that [json.Unmarshal] decodes into a [ClerkUser] or rejects ([None]). *)
Inductive Exchange :=
| BadRequest
| NoResponse
| Response (status : Z) (body : option ClerkUser).

Definition StatusOK : Z := 200.

Definition stringTrim (s : string) : string :=
  Go.string_of_bytes (Go.bytes_of_string s).

(** [FetchUserName(userID, secretKey)] as a function of the exchange; the
    result is Go's pair [(string, error)], [None] being [nil]. *)
Definition FetchUserName (userID : string) (x : Exchange) : string * option FetchError :=
  match x with
  | BadRequest => ("", Some ErrNewRequest)
  | NoResponse => ("", Some ErrTransport)
  | Response status body =>
    if negb (status =? StatusOK) then ("", Some (ErrStatus status))
    else match body with
    | None => ("", Some ErrUnmarshal)
    | Some user =>
      let fullName := Go.Sprintf_s_s (FirstName user) (LastName user) in
      let trimmed := stringTrim fullName in
      if negb (String.eqb trimmed "") then (trimmed, None)
      else match EmailAddresses user with
      | e :: _ => (EmailAddress e, None)
      | [] =>
        if negb (String.eqb (Username user) "") then (Username user, None)
        else ("User " +:+ userID, None)
      end
    end
  end.

Record Entry := { Row : Z; UserID : string }.
(** [models.Result]; its [Row] field is [ResRow] here. *)
Record Result := { ResRow : Z; UserName : string }.

(** [models.USERIDs_COLOUMN] and [models.BATCH_SIZE] of the constants file;
    the single-file variant of the script declares the same values as
    [userIDsColumnIndex = 5] and [batchSize = 10]. *)
Definition USERIDs_COLOUMN : nat := 5.
Definition BATCH_SIZE : nat := 10.

(** The body of the row loop for index [r]: the entry the row contributes. *)
Definition rowEntry (r : nat) (row : list string) : option Entry :=
  if decide (USERIDs_COLOUMN ≤ length row)%nat then
    match row !! (USERIDs_COLOUMN - 1)%nat with
    | Some cell =>
      let uid := stringTrim cell in
      if negb (String.eqb uid "") then Some {| Row := Z.of_nat r + 1; UserID := uid |}
      else None
    | None => None
    end
  else None.

(** [for r := 1; r < len(rows); r++]: [rest] is [rows[r:]]. *)
Fixpoint entriesFrom (r : nat) (rest : list (list string)) : list Entry :=
  match rest with
  | [] => []
  | row :: rest' =>
    match rowEntry r row with
    | Some e => e :: entriesFrom (S r) rest'
    | None => entriesFrom (S r) rest'
    end
  end.

Definition collectEntries (rows : list (list string)) : list Entry :=
  entriesFrom 1 (drop 1 rows).

(** The goroutine's body up to the send: the name, or the placeholder
    [fmt.Sprintf("Unknown User (%s)", e.UserID)] when [err != nil]. *)
Definition resolve (e : Entry) (x : Exchange) : Result :=
  let '(name, err) := FetchUserName (UserID e) x in
  let name := match err with
              | Some _ => "Unknown User (" +:+ UserID e +:+ ")"
              | None => name
              end in
  {| ResRow := Row e; UserName := name |}.

End Clerk.

(** ** [ProcessExcel]: the semaphore-bounded fan-out and the result funnel *)

Module Excel.
Import Clerk.

(** What [excelize.OpenFile] and [GetRows] deliver. *)
Inductive FileInput :=
| OpenFails
| GetRowsFails
| Sheet (rows : list (list string)).

(** The world of one run: the input file, what happens to the request made
    for each entry (every entry is fetched by one goroutine, once), whether
    [SaveAs] fails, and what the library keeps of a cell value that is longer
    than a cell may hold. *)
Record World := {
  file : FileInput;
  exchange : Entry → Exchange;
  saveFails : bool;
  cut : string → string
}.

(** The limits of excelize: columns and rows of a sheet, characters of a
    cell. *)
Definition MaxColumns : Z := 16384.
Definition TotalRows : Z := 1048576.
Definition TotalCellChars : Z := 32767.

(** The coordinates that name a cell: for any other pair
    [ColumnNumberToName] or [CoordinatesToCellName] returns an error and a
    string that is no cell name, and [SetCellValue] refuses it. *)
Definition writable (col row : Z) : Prop :=
  1 ≤ col ≤ MaxColumns ∧ 1 ≤ row ≤ TotalRows.

(** What a cell holds after a string is set in it: the string, cut when it
    has more than [TotalCellChars] characters (a string of no more bytes has
    no more characters). *)
Definition stored (w : World) (value : string) : string :=
  if decide (Z.of_nat (String.length value) ≤ TotalCellChars) then value
  else cut w value.

(** [cell, _ := excelize.CoordinatesToCellName(col, row)] (for the header,
    [ColumnNumberToName] and [fmt.Sprintf("%s1", colName)]) followed by
    [f.SetCellValue(sheet, cell, value)], all errors dropped as the code drops
    them: outside the limits of the sheet nothing is set. *)
Definition SetCellValue (w : World) (col row : Z) (value : string)
    (cells : gmap (Z * Z) string) : gmap (Z * Z) string :=
  if decide (writable col row) then <[(col, row) := stored w value]> cells
  else cells.

Inductive ProcessError := ErrOpen | ErrGetRows | ErrSaveAs.

(** Where the calling goroutine stands in [ProcessExcel]. *)
Inductive MainPc :=
| MStart                                  (* entry of ProcessExcel *)
| MLoop (todo : list Entry)               (* head of [for _, ent := range entries] *)
| MAcquire (e : Entry) (todo : list Entry) (* after wg.Add(1), at [sem <- struct{}{}] *)
| MGo (e : Entry) (todo : list Entry)     (* at [go func(e) ... (ent)] *)
| MRange                                  (* at [for res := range results] *)
| MSave                                   (* at [f.SaveAs(out)] *)
| MReturn (err : option ProcessError)     (* returned *)
| MPanic.                                 (* a run-time panic ended the process *)

(** Where a worker goroutine stands in its body. *)
Inductive Goroutine :=
| GFetch (e : Entry)      (* inside FetchUserName: the request is in flight *)
| GSend (r : Result)      (* at [results <- models.Result{...}] *)
| GRelease                (* at [<-sem] *)
| GDefer                  (* at the deferred [wg.Done()] *)
| GExit.                  (* returned *)

(** The goroutine of [go func() { wg.Wait(); close(results) }()]. *)
Inductive Closer := CNone | CWait | CDone.

Record State := {
  pc : MainPc;
  sem : nat;                       (* len(sem) *)
  wg : nat;                        (* the WaitGroup counter *)
  gs : list Goroutine;             (* the workers, in spawn order *)
  closer : Closer;
  results : list Result;           (* the buffer of the results channel *)
  closed : bool;                   (* close(results) has run *)
  sheet : gmap (Z * Z) string;     (* cells set, by (column, row) *)
  applied : list Result            (* results the range loop has received *)
}.

Definition set_pc (p : MainPc) (s : State) : State :=
  {| pc := p; sem := sem s; wg := wg s; gs := gs s; closer := closer s;
     results := results s; closed := closed s; sheet := sheet s; applied := applied s |}.
Definition set_sem (n : nat) (s : State) : State :=
  {| pc := pc s; sem := n; wg := wg s; gs := gs s; closer := closer s;
     results := results s; closed := closed s; sheet := sheet s; applied := applied s |}.
Definition set_wg (n : nat) (s : State) : State :=
  {| pc := pc s; sem := sem s; wg := n; gs := gs s; closer := closer s;
     results := results s; closed := closed s; sheet := sheet s; applied := applied s |}.
Definition set_gs (l : list Goroutine) (s : State) : State :=
  {| pc := pc s; sem := sem s; wg := wg s; gs := l; closer := closer s;
     results := results s; closed := closed s; sheet := sheet s; applied := applied s |}.
Definition set_closer (c : Closer) (s : State) : State :=
  {| pc := pc s; sem := sem s; wg := wg s; gs := gs s; closer := c;
     results := results s; closed := closed s; sheet := sheet s; applied := applied s |}.
Definition set_results (l : list Result) (s : State) : State :=
  {| pc := pc s; sem := sem s; wg := wg s; gs := gs s; closer := closer s;
     results := l; closed := closed s; sheet := sheet s; applied := applied s |}.
Definition set_closed (b : bool) (s : State) : State :=
  {| pc := pc s; sem := sem s; wg := wg s; gs := gs s; closer := closer s;
     results := results s; closed := b; sheet := sheet s; applied := applied s |}.
(** One round of the range loop: [res] is received and its cell is set,
    when the sheet has that cell. *)
Definition apply_result (w : World) (col : Z) (r : Result) (s : State) : State :=
  {| pc := pc s; sem := sem s; wg := wg s; gs := gs s; closer := closer s;
     results := results s; closed := closed s;
     sheet := SetCellValue w col (ResRow r) (UserName r) (sheet s);
     applied := applied s ++ [r] |}.

Inductive Action := AMain | AWorker (i : nat) | ACloser.

Section Run.
Variable w : World.
(** [N] is the capacity of [sem], [models.BATCH_SIZE]. *)
Variable N : nat.

(** The entries the row loop enqueues. *)
Definition enqueued : list Entry :=
  match file w with
  | Sheet rows => collectEntries rows
  | _ => []
  end.

(** [len(rows[0]) + 1], the column of the new cells. *)
Definition nameColumn (rows : list (list string)) : Z :=
  Z.of_nat (length (default [] (head rows))) + 1.

Definition column : Z :=
  match file w with
  | Sheet rows => nameColumn rows
  | _ => 0
  end.

Definition outcome (e : Entry) : Result := resolve e (exchange w e).

Definition init : State :=
  {| pc := MStart; sem := 0; wg := 0; gs := []; closer := CNone;
     results := []; closed := false; sheet := ∅; applied := [] |}.

Definition halted (s : State) : bool :=
  match pc s with
  | MReturn _ | MPanic => true
  | _ => false
  end.

(** The calling goroutine.  Its first step runs [ProcessExcel] down to the
    two [make]s: the file is opened and read, the entries are collected and
    the header cell is set (when the new column exists in the sheet) while no
    other goroutine exists.  [sem <- ...]
    blocks while [sem] is full; the range loop blocks on an empty channel
    that is not closed. *)
Definition main_step (s : State) : option State :=
  match pc s with
  | MStart =>
    match file w with
    | OpenFails => Some (set_pc (MReturn (Some ErrOpen)) s)
    | GetRowsFails => Some (set_pc (MReturn (Some ErrGetRows)) s)
    | Sheet [] => Some (set_pc MPanic s)        (* rows[0]: index out of range *)
    | Sheet rows =>
      Some {| pc := MLoop (collectEntries rows); sem := 0; wg := 0; gs := [];
              closer := CNone; results := []; closed := false;
              sheet := SetCellValue w (nameColumn rows) 1 "User Name" ∅;
              applied := [] |}
    end
  | MLoop [] => Some (set_closer CWait (set_pc MRange s))
  | MLoop (e :: todo) => Some (set_wg (S (wg s)) (set_pc (MAcquire e todo) s))
  | MAcquire e todo =>
    if decide (sem s < N)%nat
    then Some (set_sem (S (sem s)) (set_pc (MGo e todo) s))
    else None
  | MGo e todo => Some (set_gs (gs s ++ [GFetch e]) (set_pc (MLoop todo) s))
  | MRange =>
    match results s with
    | r :: rest => Some (apply_result w column r (set_results rest s))
    | [] => if closed s then Some (set_pc MSave s) else None
    end
  | MSave =>
    Some (set_pc (MReturn (if saveFails w then Some ErrSaveAs else None)) s)
  | MReturn _ | MPanic => None
  end.

(** The worker at index [i].  [FetchUserName] returns and the placeholder
    is substituted in one step; the send blocks on a full buffer, [<-sem] on
    an empty one. *)
Definition worker_step (i : nat) (g : Goroutine) (s : State) : option State :=
  match g with
  | GFetch e => Some (set_gs (<[i := GSend (outcome e)]> (gs s)) s)
  | GSend r =>
    if closed s then Some (set_pc MPanic s)     (* send on closed channel *)
    else if decide (length (results s) < length enqueued)%nat
    then Some (set_gs (<[i := GRelease]> (gs s)) (set_results (results s ++ [r]) s))
    else None
  | GRelease =>
    match sem s with
    | O => None
    | S n => Some (set_gs (<[i := GDefer]> (gs s)) (set_sem n s))
    end
  | GDefer =>
    match wg s with
    | O => Some (set_pc MPanic s)               (* negative WaitGroup counter *)
    | S n => Some (set_gs (<[i := GExit]> (gs s)) (set_wg n s))
    end
  | GExit => None
  end.

(** [wg.Wait()] blocks until the counter is zero. *)
Definition closer_step (s : State) : option State :=
  match closer s with
  | CWait =>
    match wg s with
    | O => if closed s then Some (set_pc MPanic s)  (* close of closed channel *)
           else Some (set_closer CDone (set_closed true s))
    | S _ => None
    end
  | _ => None
  end.

(** The effect of one atomic action; [None] when the thread is blocked,
    absent or finished, or the process has ended. *)
Definition fire (a : Action) (s : State) : option State :=
  if halted s then None
  else match a with
  | AMain => main_step s
  | AWorker i =>
    match gs s !! i with
    | Some g => worker_step i g s
    | None => None
    end
  | ACloser => closer_step s
  end.

Definition step (s s' : State) : Prop := ∃ a, fire a s = Some s'.

Definition reachable (s : State) : Prop := rtc step init s.

(** A schedule is a list of actions; an action that cannot fire is skipped. *)
Fixpoint exec (sched : list Action) (s : State) : State :=
  match sched with
  | [] => s
  | a :: sched' => exec sched' (default s (fire a s))
  end.

Definition fetching (g : Goroutine) : nat :=
  match g with GFetch _ => 1 | _ => 0 end.

(** The number of identity fetches in flight. *)
Definition inflight (s : State) : nat := sum_list (fetching <$> gs s).

End Run.
End Excel.

(** ** The GCS to S3 migration *)

Module Migrate.

Record Config := {
  GCSBucket : string;
  S3Bucket : string;
  AWSCredentialsFile : string;
  AWSRegion : string;
  LogFile : string;
  CutoffDate : Go.Time;
  CutoffDateStr : string;
  MaxWorkers : Z;
  VideoExtensions : list string
}.

(** [Stats], with the [skippedDate] field of the second variant. *)
Record Stats := {
  totalFiles : Z;
  copiedFiles : Z;
  skippedExisting : Z;
  skippedDate : Z;
  errorFiles : Z
}.

Record FileJob := {
  GCSPath : string;
  RelativePath : string;
  CreatedTime : Go.Time
}.

(** The fields of [storage.ObjectAttrs] the listing loop reads. *)
Record ObjectAttrs := {
  Name : string;
  Created : Go.Time
}.

(** First variant: the date folder is the second segment of the path. *)
Definition extractDateFromPath_v1 (path : string) : option Go.Time :=
  let parts := Go.Split "/" path in
  if decide (length parts < 2)%nat then None
  else match parts !! 1%nat with
       | Some dateStr => Go.Parse_date dateStr
       | None => None
       end.

(** Second variant: the date folder is the first segment. *)
Definition extractDateFromPath_v2 (path : string) : option Go.Time :=
  let parts := Go.Split "/" path in
  if decide (length parts = 0)%nat then None
  else match parts !! 0%nat with
       | Some dateStr => Go.Parse_date dateStr
       | None => None
       end.

(** What one round of the listing loop does with an object. *)
Inductive Verdict :=
| Ignored                   (* a directory or no video: [continue] *)
| SkippedByDate             (* [skippedByDate++; continue] *)
| Queued (job : FileJob).   (* [jobs <- job; filesQueued++] *)

Section Enumerator.
(** [strings.ToLower]; [Go.asciiLower] on ASCII names. *)
Variable ToLower : string → string.

Definition isVideoFile (filename : string) (extensions : list string) : bool :=
  let ext := ToLower (Go.Ext filename) in
  existsb (λ validExt, String.eqb ext validExt) extensions.

(** First variant of the loop body: an unreadable date is a skip.  (Its
    [totalProcessed], printed only, counts the objects not [Ignored].) *)
Definition classify_v1 (config : Config) (attrs : ObjectAttrs) : Verdict :=
  if Go.HasSuffix (Name attrs) "/" then Ignored
  else if negb (isVideoFile (Name attrs) (VideoExtensions config)) then Ignored
  else match extractDateFromPath_v1 (Name attrs) with
       | None => SkippedByDate
       | Some folderDate =>
         if Go.Before folderDate (CutoffDate config) then SkippedByDate
         else Queued {| GCSPath := Name attrs; RelativePath := Name attrs;
                        CreatedTime := folderDate |}
       end.

(** Second variant: an unreadable date falls back to the creation time. *)
Definition classify_v2 (config : Config) (attrs : ObjectAttrs) : Verdict :=
  if Go.HasSuffix (Name attrs) "/" then Ignored
  else if negb (isVideoFile (Name attrs) (VideoExtensions config)) then Ignored
  else
    let job := {| GCSPath := Name attrs; RelativePath := Name attrs;
                  CreatedTime := Created attrs |} in
    match extractDateFromPath_v2 (Name attrs) with
    | None =>
      if Go.Before (Created attrs) (CutoffDate config) then SkippedByDate
      else Queued job
    | Some folderDate =>
      if Go.Before folderDate (CutoffDate config) then SkippedByDate
      else Queued job
    end.

End Enumerator.

(** The local counters of [main] and the jobs sent so far. *)
Record Scan := {
  sent : list FileJob;
  filesQueued : Z;
  skippedByDate : Z
}.

(** [skippedByDate++]. *)
Definition count_skipped (acc : Scan) : Scan :=
  {| sent := sent acc; filesQueued := filesQueued acc;
     skippedByDate := Go.Int64_Add (skippedByDate acc) 1 |}.

(** [jobs <- job; filesQueued++], once the send has gone through. *)
Definition count_queued (job : FileJob) (acc : Scan) : Scan :=
  {| sent := sent acc ++ [job];
     filesQueued := Go.Int64_Add (filesQueued acc) 1;
     skippedByDate := skippedByDate acc |}.

(** The listing loop on its own, the sends never blocking: [listing] is
    what the iterator yields before [iterator.Done] or a listing error, which
    both leave the loop. *)
Fixpoint scan (classify : ObjectAttrs → Verdict) (listing : list ObjectAttrs)
    (acc : Scan) : Scan :=
  match listing with
  | [] => acc
  | attrs :: rest =>
    scan classify rest
      match classify attrs with
      | Ignored => acc
      | SkippedByDate => count_skipped acc
      | Queued job => count_queued job acc
      end
  end.

Definition scan0 : Scan := {| sent := []; filesQueued := 0; skippedByDate := 0 |}.

(** The jobs an object listing makes eligible. *)
Definition eligible (classify : ObjectAttrs → Verdict) (listing : list ObjectAttrs)
    : list FileJob :=
  omap (λ attrs, match classify attrs with Queued job => Some job | _ => None end)
       listing.

(** The remote calls of a worker that probe the destination or move bytes,
    in the order they are made.  (The first variant also reads the source
    object's attributes, for a log line, before it uploads.) *)
Inductive Call :=
| HeadObject (key : string)
| NewReader (path : string)
| Upload (key : string).

(** What the workers share: the counters, the objects at the destination,
    and the calls made. *)
Record Shared := {
  stats : Stats;
  s3 : gset string;
  calls : list Call
}.

Definition add_total (st : Stats) : Stats :=
  {| totalFiles := Go.Int64_Add (totalFiles st) 1; copiedFiles := copiedFiles st;
     skippedExisting := skippedExisting st; skippedDate := skippedDate st;
     errorFiles := errorFiles st |}.
Definition add_copied (st : Stats) : Stats :=
  {| totalFiles := totalFiles st; copiedFiles := Go.Int64_Add (copiedFiles st) 1;
     skippedExisting := skippedExisting st; skippedDate := skippedDate st;
     errorFiles := errorFiles st |}.
Definition add_skippedExisting (st : Stats) : Stats :=
  {| totalFiles := totalFiles st; copiedFiles := copiedFiles st;
     skippedExisting := Go.Int64_Add (skippedExisting st) 1;
     skippedDate := skippedDate st; errorFiles := errorFiles st |}.
Definition add_error (st : Stats) : Stats :=
  {| totalFiles := totalFiles st; copiedFiles := copiedFiles st;
     skippedExisting := skippedExisting st; skippedDate := skippedDate st;
     errorFiles := Go.Int64_Add (errorFiles st) 1 |}.

(** Where a worker stands in the body of [for job := range jobs]. *)
Inductive Worker :=
| WRecv                     (* at the receive of the range loop *)
| WCount (job : FileJob)    (* at [stats.totalFiles.Add(1)] *)
| WHead (job : FileJob)     (* inside [fileExistsInS3] *)
| WOpen (job : FileJob)     (* inside [gcsObj.NewReader] *)
| WUpload (job : FileJob)   (* inside [uploader.UploadWithContext] *)
| WExit.                    (* the loop ended and [wg.Done()] ran *)

(** The world of one run: the listing and what the two stores answer.
    The session is made without [DisableRestProtocolURICleaning], so the SDK
    cleans the path of every request before it is sent: a request for a key
    addresses the object [objectOf] gives for it, and two keys with the same
    cleaned path ([a//b.mp4] and [a/b.mp4]) address the same object. *)
Record World := {
  listing : list ObjectAttrs;
  objectOf : string → string;  (* the object a request for this key addresses *)
  present : gset string;       (* objects at the destination before the run *)
  readable : string → bool;    (* [NewReader] succeeds on this object *)
  uploadable : string → bool   (* [UploadWithContext] succeeds for this key *)
}.

Section Body.
Variable w : World.

(** [HeadObject] returns no error: the object the request addresses is at
    the destination. *)
Definition fileExistsInS3 (sh : Shared) (key : string) : bool :=
  bool_decide (objectOf w key ∈ s3 sh).

(** The three remote steps of the loop body: the call, and the counter the
    worker adds to when the call decides the job.  Each gives the shared
    state after the step and where the worker goes ([WRecv] is [continue]). *)
Definition head_step (job : FileJob) (sh : Shared) : Shared * Worker :=
  let sh' := {| stats := stats sh; s3 := s3 sh;
                calls := calls sh ++ [HeadObject (RelativePath job)] |} in
  if fileExistsInS3 sh (RelativePath job)
  then ({| stats := add_skippedExisting (stats sh); s3 := s3 sh; calls := calls sh' |}, WRecv)
  else (sh', WOpen job).

Definition open_step (job : FileJob) (sh : Shared) : Shared * Worker :=
  let sh' := {| stats := stats sh; s3 := s3 sh;
                calls := calls sh ++ [NewReader (GCSPath job)] |} in
  if readable w (GCSPath job) then (sh', WUpload job)
  else ({| stats := add_error (stats sh); s3 := s3 sh; calls := calls sh' |}, WRecv).

Definition upload_step (job : FileJob) (sh : Shared) : Shared * Worker :=
  let cs := calls sh ++ [Upload (RelativePath job)] in
  if uploadable w (RelativePath job)
  then ({| stats := add_copied (stats sh);
           s3 := {[objectOf w (RelativePath job)]} ∪ s3 sh;
           calls := cs |}, WRecv)
  else ({| stats := add_error (stats sh); s3 := s3 sh; calls := cs |}, WRecv).

Definition count_step (sh : Shared) : Shared :=
  {| stats := add_total (stats sh); s3 := s3 sh; calls := calls sh |}.

(** One round of the loop body for [job], run without interruption. *)
Definition iteration (job : FileJob) (sh : Shared) : Shared :=
  let sh1 := count_step sh in
  match head_step job sh1 with
  | (sh2, WOpen _) =>
    match open_step job sh2 with
    | (sh3, WUpload _) => fst (upload_step job sh3)
    | (sh3, _) => sh3
    end
  | (sh2, _) => sh2
  end.

End Body.

(** Where [main] stands. *)
Inductive MainPc :=
| PStart                                        (* at [make(chan FileJob, ...)] *)
| PSpawn (todo : nat)                           (* head of the worker spawn loop *)
| PScan (rest : list ObjectAttrs)               (* at [it.Next()] *)
| PSend (job : FileJob) (rest : list ObjectAttrs) (* at [jobs <- job] *)
| PWait                                         (* after [close(jobs)], at [wg.Wait()] *)
| PDone                                         (* the summary is printed *)
| PPanic.

Record State := {
  pc : MainPc;
  local : Scan;                 (* [filesQueued], [skippedByDate], jobs sent *)
  jobs : list FileJob;          (* the buffer of the jobs channel *)
  closed : bool;                (* [close(jobs)] has run *)
  workers : list Worker;
  wg : nat;
  shared : Shared
}.

Definition set_pc (p : MainPc) (s : State) : State :=
  {| pc := p; local := local s; jobs := jobs s; closed := closed s;
     workers := workers s; wg := wg s; shared := shared s |}.
Definition set_local (l : Scan) (s : State) : State :=
  {| pc := pc s; local := l; jobs := jobs s; closed := closed s;
     workers := workers s; wg := wg s; shared := shared s |}.
Definition set_jobs (l : list FileJob) (s : State) : State :=
  {| pc := pc s; local := local s; jobs := l; closed := closed s;
     workers := workers s; wg := wg s; shared := shared s |}.
Definition set_closed (b : bool) (s : State) : State :=
  {| pc := pc s; local := local s; jobs := jobs s; closed := b;
     workers := workers s; wg := wg s; shared := shared s |}.
Definition set_workers (l : list Worker) (s : State) : State :=
  {| pc := pc s; local := local s; jobs := jobs s; closed := closed s;
     workers := l; wg := wg s; shared := shared s |}.
Definition set_wg (n : nat) (s : State) : State :=
  {| pc := pc s; local := local s; jobs := jobs s; closed := closed s;
     workers := workers s; wg := n; shared := shared s |}.
Definition set_shared (sh : Shared) (s : State) : State :=
  {| pc := pc s; local := local s; jobs := jobs s; closed := closed s;
     workers := workers s; wg := wg s; shared := sh |}.

Inductive Action := AMain | AWorker (i : nat).

Section Run.
Variable config : Config.
(** The body of the listing loop, [classify_v1 ToLower config] or
    [classify_v2 ToLower config]. *)
Variable classify : ObjectAttrs → Verdict.
Variable w : World.

Definition init : State :=
  {| pc := PStart; local := scan0; jobs := []; closed := false; workers := [];
     wg := 0;
     shared := {| stats := {| totalFiles := 0; copiedFiles := 0; skippedExisting := 0;
                              skippedDate := 0; errorFiles := 0 |};
                  s3 := present w; calls := [] |} |}.

Definition halted (s : State) : bool :=
  match pc s with
  | PDone | PPanic => true
  | _ => false
  end.

(** [config.MaxWorkers*2], an [int], and [cap(jobs)]. *)
Definition chanSize : Z := Go.wrap64 (MaxWorkers config * 2).
Definition capacity : nat := Z.to_nat chanSize.

(** [main], from the [make] of the jobs channel on (configuration, logger
    and clients are set up before any goroutine exists).  [wg.Add(1)] and the
    [go] statement are one step; [jobs <- job] blocks on a full buffer and
    counts in [filesQueued] once through; [wg.Wait()] blocks until the
    counter is zero. *)
Definition main_step (s : State) : option State :=
  match pc s with
  | PStart =>
    if decide (chanSize < 0)
    then Some (set_pc PPanic s)               (* makechan: size out of range *)
    else Some (set_pc (PSpawn (Z.to_nat (MaxWorkers config))) s)
  | PSpawn (S todo) =>
    Some (set_workers (workers s ++ [WRecv]) (set_wg (S (wg s)) (set_pc (PSpawn todo) s)))
  | PSpawn O => Some (set_pc (PScan (listing w)) s)
  | PScan [] => Some (set_closed true (set_pc PWait s))
  | PScan (attrs :: rest) =>
    match classify attrs with
    | Ignored => Some (set_pc (PScan rest) s)
    | SkippedByDate => Some (set_local (count_skipped (local s)) (set_pc (PScan rest) s))
    | Queued job => Some (set_pc (PSend job rest) s)
    end
  | PSend job rest =>
    if decide (length (jobs s) < capacity)%nat
    then Some (set_local (count_queued job (local s))
                 (set_jobs (jobs s ++ [job]) (set_pc (PScan rest) s)))
    else None
  | PWait =>
    match wg s with
    | O => Some (set_pc PDone s)
    | S _ => None
    end
  | PDone | PPanic => None
  end.

Definition move (i : nat) (next : Shared * Worker) (s : State) : State :=
  set_workers (<[i := snd next]> (workers s)) (set_shared (fst next) s).

(** The worker at index [i].  The receive blocks on an empty channel that
    is not closed; on a closed and empty one the loop ends and the deferred
    [wg.Done()] runs. *)
Definition worker_step (i : nat) (g : Worker) (s : State) : option State :=
  match g with
  | WRecv =>
    match jobs s with
    | job :: rest => Some (set_workers (<[i := WCount job]> (workers s)) (set_jobs rest s))
    | [] =>
      if closed s
      then match wg s with
           | O => Some (set_pc PPanic s)      (* negative WaitGroup counter *)
           | S n => Some (set_workers (<[i := WExit]> (workers s)) (set_wg n s))
           end
      else None
    end
  | WCount job => Some (move i (count_step (shared s), WHead job) s)
  | WHead job => Some (move i (head_step w job (shared s)) s)
  | WOpen job => Some (move i (open_step w job (shared s)) s)
  | WUpload job => Some (move i (upload_step w job (shared s)) s)
  | WExit => None
  end.

(** The effect of one atomic action; [None] when the thread is blocked,
    absent or finished, or the process has ended. *)
Definition fire (a : Action) (s : State) : option State :=
  if halted s then None
  else match a with
  | AMain => main_step s
  | AWorker i =>
    match workers s !! i with
    | Some g => worker_step i g s
    | None => None
    end
  end.

Definition step (s s' : State) : Prop := ∃ a, fire a s = Some s'.

Definition reachable (s : State) : Prop := rtc step init s.

Fixpoint exec (sched : list Action) (s : State) : State :=
  match sched with
  | [] => s
  | a :: sched' => exec sched' (default s (fire a s))
  end.

Definition copying (g : Worker) : nat :=
  match g with WHead _ | WOpen _ | WUpload _ => 1 | _ => 0 end.

(** The number of object copies in flight. *)
Definition inflight (s : State) : nat := sum_list (copying <$> workers s).

(** The counters the final summary prints (second variant):
    total processed, copied, skipped as existing, skipped before the
    cutoff date, errors. *)
Definition summary (s : State) : Z * Z * Z * Z * Z :=
  let st := stats (shared s) in
  (totalFiles st, copiedFiles st, skippedExisting st, skippedDate st, errorFiles st).

End Run.
End Migrate.

(** ** The command line of the spreadsheet program: [ValidateFile], the
    output path of [ProcessExcel], [main] *)

Module Cli.

(** What [os.Stat(path)] returns: an error for which [os.IsNotExist] holds,
    another error (permission denied, a path component that is a file, ...),
    or a [FileInfo].  With an error the [FileInfo] is [nil]. *)
Inductive StatResult :=
| StatNotExist
| StatFails
| StatInfo (isDir : bool).

(** The two errors of [ValidateFile], by the statement that returns them. *)
Inductive ValidateError :=
| ErrNotFound          (* "file not found or is a directory" *)
| ErrNotExcel.         (* "file must be an Excel file (.xlsx or .xls)" *)

(** A call returns a value or ends the process in a run-time panic. *)
Inductive Outcome (A : Type) :=
| Returns (a : A)
| Panics.
Arguments Returns {A} a.
Arguments Panics {A}.

(** [ValidateFile(path)]; [None] is [nil].  In
    [os.IsNotExist(err) || info.IsDir()] the right operand is evaluated when
    the left one is false, also when [err] is another error and [info] is
    [nil]: the method call on the nil interface panics. *)
Definition ValidateFile (stat : string → StatResult) (path : string)
    : Outcome (option ValidateError) :=
  match stat path with
  | StatNotExist => Returns (Some ErrNotFound)
  | StatFails => Panics
  | StatInfo true => Returns (Some ErrNotFound)
  | StatInfo false =>
    let ext := Go.Ext path in
    if negb (String.eqb ext ".xlsx") && negb (String.eqb ext ".xls")
    then Returns (Some ErrNotExcel)
    else Returns None
  end.

(** [out := filePath[:len(filePath)-len(ext)] + "_updated" + ext] with
    [ext := filepath.Ext(filePath)], the path [ProcessExcel] saves to. *)
Definition outputPath (filePath : string) : string :=
  let ext := Go.Ext filePath in
  substring 0 (String.length filePath - String.length ext) filePath
  +:+ "_updated" +:+ ext.

(** [models.CLERK_SECRET_KEY], as the constants file has it. *)
Definition CLERK_SECRET_KEY : string := "".

(** How the process ends: [main] returns (status 0), [os.Exit(1)], or a
    panic. *)
Inductive Exit := Exit0 | Exit1 | ExitPanic.

(** [main], over [os.Args], the file system, the secret key and what the
    call of [ProcessExcel] does. *)
Definition main (args : list string) (stat : string → StatResult)
    (secretKey : string)
    (ProcessExcel : string → string → Outcome (option Excel.ProcessError)) : Exit :=
  if decide (length args < 2)%nat then Exit1
  else match args !! 1%nat with
  | None => Exit1
  | Some filePath =>
    match ValidateFile stat filePath with
    | Panics => ExitPanic
    | Returns (Some _) => Exit1
    | Returns None =>
      if String.eqb secretKey "" then Exit1
      else match ProcessExcel filePath secretKey with
           | Panics => ExitPanic
           | Returns (Some _) => Exit1
           | Returns None => Exit0
           end
    end
  end.

End Cli.

(** ** The migration: configuration and the scan counter of the first
    variant *)

Module Settings.
Import Migrate.

(** What [json.Unmarshal(data, config)] finds in the configuration file:
    for each key of [Config] that has a JSON name, the value the object gives
    it, if any.  A key that is absent leaves the field as it is;
    [CutoffDate] is tagged [json:"-"] and is never set from the file. *)
Record Fields := {
  gcs_bucket : option string;
  s3_bucket : option string;
  aws_credentials_file : option string;
  aws_region : option string;
  log_file : option string;
  cutoff_date : option string;
  max_workers : option Z;
  video_extensions : option (list string)
}.

(** What [os.ReadFile] and [json.Unmarshal] make of the file. *)
Inductive ConfigFile :=
| Unreadable                 (* [os.ReadFile] returns an error *)
| Malformed                  (* [json.Unmarshal] returns an error *)
| Object (fields : Fields).

Inductive LoadError :=
| ErrParseFile               (* "failed to parse config file" *)
| ErrParseCutoff.            (* "failed to parse cutoff date" *)

Definition overlay (fields : Fields) (config : Config) : Config :=
  {| GCSBucket := default (GCSBucket config) (gcs_bucket fields);
     S3Bucket := default (S3Bucket config) (s3_bucket fields);
     AWSCredentialsFile :=
       default (AWSCredentialsFile config) (aws_credentials_file fields);
     AWSRegion := default (AWSRegion config) (aws_region fields);
     LogFile := default (LogFile config) (log_file fields);
     CutoffDate := CutoffDate config;
     CutoffDateStr := default (CutoffDateStr config) (cutoff_date fields);
     MaxWorkers := default (MaxWorkers config) (max_workers fields);
     VideoExtensions := default (VideoExtensions config) (video_extensions fields) |}.

(** The zero [time.Time], January 1 of year 1. *)
Definition zeroTime : Go.Time := Go.Date 1 1 1.

(** The struct literal of [LoadConfig], first and second variant. *)
Definition defaults_v1 : Config :=
  {| GCSBucket := ""; S3Bucket := "";
     AWSCredentialsFile := "/home/sadiq/projects/scripts/migrate_gcp_to_aws/.aws/credentials";
     AWSRegion := "";
     LogFile := "/home/sadiq/projects/scripts/migrate_gcp_to_aws/logs/migrate_gcp_to_s3.log";
     CutoffDate := zeroTime; CutoffDateStr := "2025-09-07";
     MaxWorkers := 20;
     VideoExtensions := [".mp4"; ".avi"; ".mov"; ".mkv"; ".webm"; ".m4v"] |}.

Definition defaults_v2 : Config :=
  {| GCSBucket := ""; S3Bucket := "";
     AWSCredentialsFile := "/home/sadiq/projects/scripts/migrate_gcp_to_aws/.aws/credentials";
     AWSRegion := "ap-south-1";
     LogFile := "/home/sadiq/projects/scripts/migrate_gcp_to_aws/logs/migrate_gcp_to_s3.log";
     CutoffDate := zeroTime; CutoffDateStr := "2025-09-07";
     MaxWorkers := 10;
     VideoExtensions := [".mp4"; ".avi"; ".mov"; ".mkv"; ".webm"; ".m4v"] |}.

Definition set_CutoffDate (t : Go.Time) (config : Config) : Config :=
  {| GCSBucket := GCSBucket config; S3Bucket := S3Bucket config;
     AWSCredentialsFile := AWSCredentialsFile config; AWSRegion := AWSRegion config;
     LogFile := LogFile config; CutoffDate := t;
     CutoffDateStr := CutoffDateStr config; MaxWorkers := MaxWorkers config;
     VideoExtensions := VideoExtensions config |}.

(** [LoadConfig(configPath)] over the struct literal of its variant and
    the file system. *)
Definition LoadConfig (defaults : Config) (ReadFile : string → ConfigFile)
    (configPath : string) : LoadError + Config :=
  let loaded :=
    if negb (String.eqb configPath "") then
      match ReadFile configPath with
      | Unreadable => Some defaults
      | Malformed => None
      | Object fields => Some (overlay fields defaults)
      end
    else Some defaults in
  match loaded with
  | None => inl ErrParseFile
  | Some config =>
    match Go.Parse_date (CutoffDateStr config) with
    | None => inl ErrParseCutoff
    | Some cutoffDate => inr (set_CutoffDate cutoffDate config)
    end
  end.

(** The path [main] passes. *)
Definition configPath : string := "migrate_config.json".

Section Scanned.
Variable ToLower : string → string.

(** [totalProcessed] of the first variant's listing loop, counted after
    the directory and extension tests and before the date is read. *)
Fixpoint totalProcessed (config : Config) (listing : list ObjectAttrs) (acc : Z) : Z :=
  match listing with
  | [] => acc
  | attrs :: rest =>
    totalProcessed config rest
      (if Go.HasSuffix (Name attrs) "/" then acc
       else if negb (isVideoFile ToLower (Name attrs) (VideoExtensions config)) then acc
       else Go.Int64_Add acc 1)
  end.

End Scanned.

End Settings.

(** ** Concrete runs, for the examples below *)

(** A run on a sheet of four data rows (one without an identifier), with
    one answer of each kind from the identity service. *)
Module ExcelDemo.
Import Clerk Excel.

Definition rows : list (list string) :=
  [ ["Id"; "Plan"; "Seats"; "Region"; "Clerk user"];
    ["1"; "pro"; "3"; "eu"; "user_1"];
    ["2"; "free"; "1"; "us"; "user_2"];
    ["3"; "free"];
    ["4"; "pro"; "9"; "in"; "user_3"] ].

Definition answer (e : Entry) : Exchange :=
  if String.eqb (UserID e) "user_1" then
    Response 200 (Some {| FirstName := "Ann"; LastName := "Lee"; Username := "ann";
                          EmailAddresses := [] |})
  else if String.eqb (UserID e) "user_2" then NoResponse
  else Response 404 None.

Definition world : World :=
  {| file := Sheet rows; exchange := answer; saveFails := false; cut := λ value, value |}.

Definition round : list Action := [AMain; AWorker 0; AWorker 1; AWorker 2; ACloser].

Definition schedule : list Action := concat (replicate 16 round).

Definition final : State := exec world BATCH_SIZE schedule init.

(** With two semaphore slots, the state after the second worker is
    spawned: two fetches in flight, the third entry waiting. *)
Definition midway : State := exec world 2 (replicate 7 AMain) init.



(** The same rows under a header row that fills the sheet: [MaxColumns]
    cells, so that the new column would be the next one. *)
Definition wide : World :=
  {| file := Sheet (replicate (Z.to_nat MaxColumns) "h" :: tail rows); exchange := answer;
     saveFails := false; cut := λ value, value |}.

Definition final_wide : State := exec wide BATCH_SIZE schedule init.

End ExcelDemo.

(** The cutoff of the default configuration, [2025-09-07]. *)
Module ScanDemo.
Import Migrate.

Definition config : Config :=
  {| GCSBucket := "recordings"; S3Bucket := "archive";
     AWSCredentialsFile := "/home/sadiq/projects/scripts/migrate_gcp_to_aws/.aws/credentials";
     AWSRegion := "ap-south-1";
     LogFile := "/home/sadiq/projects/scripts/migrate_gcp_to_aws/logs/migrate_gcp_to_s3.log";
     CutoffDate := Go.Date 2025 9 7; CutoffDateStr := "2025-09-07";
     MaxWorkers := 2;
     VideoExtensions := [".mp4"; ".avi"; ".mov"; ".mkv"; ".webm"; ".m4v"] |}.

Definition object (name : string) (created : Go.Time) : ObjectAttrs :=
  {| Name := name; Created := created |}.

(** Objects laid out for the first variant (date in the second segment). *)
Definition listing_v1 : list ObjectAttrs :=
  [ object "port1/" (Go.Date 2025 9 1);
    object "port1/2025-09-06/a.mp4" (Go.Date 2025 9 20);
    object "port1/2025-09-07/b.MP4" (Go.Date 2025 9 20);
    object "port1/notes/c.mp4" (Go.Date 2025 9 20);
    object "port1/2025-09-08/readme.txt" (Go.Date 2025 9 20) ].

(** Objects laid out for the second variant (date in the first segment). *)
Definition listing_v2 : list ObjectAttrs :=
  [ object "2025-09-06/a.mp4" (Go.Date 2025 9 20);
    object "2025-09-07/b.mp4" (Go.Date 2025 9 20);
    object "clips/intro.mp4" (Go.Date 2025 10 1);
    object "clips/old.mp4" (Go.Date 2025 8 1) ].

End ScanDemo.

(** A second run of the second variant over [ScanDemo.listing_v2], the
    destination holding both eligible keys, with two workers. *)
Module PoolDemo.
Import Migrate.

Definition classify : ObjectAttrs → Verdict := classify_v2 Go.asciiLower ScanDemo.config.

Definition world : World :=
  {| listing := ScanDemo.listing_v2;
     objectOf := λ key, key;
     present := {[ "2025-09-07/b.mp4"; "clips/intro.mp4" ]};
     readable := λ _, true;
     uploadable := λ _, true |}.

Definition round : list Action := [AMain; AWorker 0; AWorker 1].

Definition final : State :=
  exec ScanDemo.config classify world (concat (replicate 16 round)) (init world).

(** Both workers inside [fileExistsInS3]. *)
Definition midway : State :=
  exec ScanDemo.config classify world
    (replicate 9 AMain ++ [AWorker 0; AWorker 0; AWorker 1; AWorker 1]) (init world).

Definition job : FileJob :=
  {| GCSPath := "2025-09-07/b.mp4"; RelativePath := "2025-09-07/b.mp4";
     CreatedTime := Go.Date 2025 9 20 |}.

End PoolDemo.

(** A first run of the second variant over [ScanDemo.listing_v2]: one of
    the two eligible keys is at the destination already, the other is
    copied. *)
Module CopyDemo.
Import Migrate.

Definition world : World :=
  {| listing := ScanDemo.listing_v2;
     objectOf := λ key, key;
     present := {[ "2025-09-07/b.mp4" ]};
     readable := λ _, true;
     uploadable := λ _, true |}.

Definition final : State :=
  exec ScanDemo.config PoolDemo.classify world (concat (replicate 16 PoolDemo.round))
    (init world).



End CopyDemo.

(** A run of the second variant over two keys that differ by a doubled
    slash: their requests address one object.  Worker 0 takes both jobs, one
    after the other. *)
Module AliasDemo.
Import Migrate.

Definition objects : list ObjectAttrs :=
  [ ScanDemo.object "2025-09-08/a.mp4" (Go.Date 2025 9 20);
    ScanDemo.object "2025-09-08//a.mp4" (Go.Date 2025 9 20) ].

Definition world : World :=
  {| listing := objects;
     objectOf := λ key, if String.eqb key "2025-09-08//a.mp4"
                        then "2025-09-08/a.mp4" else key;
     present := ∅;
     readable := λ _, true;
     uploadable := λ _, true |}.

Definition final : State :=
  exec ScanDemo.config PoolDemo.classify world
    (replicate 12 AMain ++ replicate 12 (AWorker 0) ++ replicate 2 (AWorker 1)
     ++ replicate 2 AMain)
    (init world).

End AliasDemo.

(** The configuration of [ScanDemo] with a [max_workers] that [LoadConfig]
    lets through: zero and a negative number. *)
Module EdgeDemo.
Import Migrate.

Definition with_workers (n : Z) : Config :=
  {| GCSBucket := GCSBucket ScanDemo.config; S3Bucket := S3Bucket ScanDemo.config;
     AWSCredentialsFile := AWSCredentialsFile ScanDemo.config;
     AWSRegion := AWSRegion ScanDemo.config; LogFile := LogFile ScanDemo.config;
     CutoffDate := CutoffDate ScanDemo.config;
     CutoffDateStr := CutoffDateStr ScanDemo.config;
     MaxWorkers := n;
     VideoExtensions := VideoExtensions ScanDemo.config |}.

(** [main] alone, scheduled twenty times. *)
Definition stuck : State :=
  exec (with_workers 0) PoolDemo.classify CopyDemo.world (replicate 20 AMain)
    (init CopyDemo.world).

Definition crashed : State :=
  exec (with_workers (-1)) PoolDemo.classify CopyDemo.world (replicate 20 AMain)
    (init CopyDemo.world).

End EdgeDemo.

(** * Proofs *)

(** ** Pools of threads: sums and unions over a list updated by index *)

Section Pool.
Context {A B : Type}.
Implicit Types (f : A → nat) (h : A → list B) (l : list A).

Definition tally f l : nat := sum_list (f <$> l).

Lemma tally_app f l1 l2 : tally f (l1 ++ l2) = (tally f l1 + tally f l2)%nat.
Proof. unfold tally. induction l1 as [|a l1 IH]; csimpl; lia. Qed.

Lemma tally_nil f : tally f [] = 0%nat.
Proof. done. Qed.

Lemma tally_snoc f l a : tally f (l ++ [a]) = (tally f l + f a)%nat.
Proof. rewrite tally_app. unfold tally. csimpl. lia. Qed.

Lemma tally_insert f l i g g' :
  l !! i = Some g →
  (tally f (<[i := g']> l) + f g = tally f l + f g')%nat.
Proof.
  unfold tally. revert i. induction l as [|a l IH]; intros [|i] Hi; simplify_eq/=.
  - lia.
  - specialize (IH i Hi). lia.
Qed.

Lemma tally_lookup_le f l i g : l !! i = Some g → (f g ≤ tally f l)%nat.
Proof.
  unfold tally. revert i. induction l as [|a l IH]; intros [|i] Hi; simplify_eq/=.
  - lia.
  - specialize (IH i Hi). lia.
Qed.

Lemma tally_pos f l : (0 < tally f l)%nat → ∃ i g, l !! i = Some g ∧ (0 < f g)%nat.
Proof.
  unfold tally. induction l as [|a l IH]; csimpl; [lia|]. intros Hpos.
  destruct (decide (0 < f a)%nat) as [Ha|Ha].
  - exists 0%nat, a. done.
  - destruct IH as (i & g & Hi & Hg); [lia|]. exists (S i), g. done.
Qed.

Lemma tally_zero_bind f h l :
  (∀ g, f g = 0%nat → h g = []) → tally f l = 0%nat → l ≫= h = [].
Proof.
  unfold tally. intros Hfh. induction l as [|a l IH]; csimpl; [done|]. intros Hz.
  rewrite (Hfh a), IH by lia. done.
Qed.

Lemma bind_lookup_length h l i g :
  l !! i = Some g → (length (h g) ≤ length (l ≫= h))%nat.
Proof.
  revert i. induction l as [|a l IH]; intros [|i] Hi; simplify_eq/=;
    rewrite length_app; [lia|]. specialize (IH i Hi). lia.
Qed.

Lemma bind_insert_perm h l i g g' :
  l !! i = Some g →
  (<[i := g']> l ≫= h) ++ h g ≡ₚ (l ≫= h) ++ h g'.
Proof.
  revert i. induction l as [|a l IH]; intros [|i] Hi; simplify_eq/=.
  - solve_Permutation.
  - rewrite <- !(assoc_L (++)). f_equiv. by apply IH.
Qed.

End Pool.

(** ** [ProcessExcel]: the invariant of every schedule *)

Module ExcelProofs.

Section ExcelInvariant.
Import Clerk Excel.
Context (w : World) (N : nat).

(** A worker holds a slot of [sem] from its spawn to its [<-sem]. *)
Definition holding (g : Goroutine) : nat :=
  match g with GFetch _ | GSend _ | GRelease => 1 | _ => 0 end.

(** A worker counts in the WaitGroup until its deferred [wg.Done()]. *)
Definition live (g : Goroutine) : nat :=
  match g with GExit => 0 | _ => 1 end.

(** The result a worker has still to send. *)
Definition owed (g : Goroutine) : list Result :=
  match g with
  | GFetch e => [outcome w e]
  | GSend r => [r]
  | _ => []
  end.

(** The entries the spawn loop has still to hand to a worker. *)
Definition todo_of (p : MainPc) : list Entry :=
  match p with
  | MStart => enqueued w
  | MLoop todo => todo
  | MAcquire e todo | MGo e todo => e :: todo
  | _ => []
  end.

Definition at_go (p : MainPc) : nat :=
  match p with MGo _ _ => 1 | _ => 0 end.

Definition added (p : MainPc) : nat :=
  match p with MAcquire _ _ | MGo _ _ => 1 | _ => 0 end.

Definition past_loop (p : MainPc) : bool :=
  match p with MRange | MSave | MReturn _ => true | _ => false end.

Definition closer_ok (s : State) : Prop :=
  match closer s with
  | CNone => closed s = false ∧ pc s ≠ MRange ∧ pc s ≠ MSave
  | CWait => closed s = false ∧ pc s = MRange
  | CDone => closed s = true ∧ tally live (gs s) = 0%nat ∧ past_loop (pc s) = true
  end.

(** What [ProcessExcel] returns is decided by the file and by [SaveAs]. *)
Definition returned : option ProcessError :=
  match file w with
  | OpenFails => Some ErrOpen
  | GetRowsFails => Some ErrGetRows
  | Sheet _ => if saveFails w then Some ErrSaveAs else None
  end.

Record Inv' (s : State) : Prop := {
  inv_start : pc s = MStart → s = init;
  inv_sem : sem s = (tally holding (gs s) + at_go (pc s))%nat;
  inv_cap : (sem s ≤ N)%nat;
  inv_wg : wg s = (tally live (gs s) + added (pc s))%nat;
  inv_closer : closer_ok s;
  inv_perm :
    outcome w <$> enqueued w ≡ₚ
      (outcome w <$> todo_of (pc s)) ++ (gs s ≫= owed) ++ results s ++ applied s;
  inv_sheet : ∀ r, r ∈ applied s → writable (column w) (ResRow r) →
    sheet s !! (column w, ResRow r) = Some (stored w (UserName r));
  inv_end : ∀ err, pc s = MSave ∨ pc s = MReturn err →
    results s = [] ∧ tally live (gs s) = 0%nat;
  inv_ret :
    pc s = MStart ∨ pc s = MReturn returned
    ∨ ((∃ rows, file w = Sheet rows) ∧ ∀ err, pc s ≠ MReturn err)
}.

Definition Inv (s : State) : Prop :=
  match pc s with
  | MPanic => file w = Sheet [] ∧ s = set_pc MPanic init
  | _ => Inv' s
  end.

(** The steps a thread has still to take, for the termination measure. *)
Definition weight (g : Goroutine) : nat :=
  match g with
  | GFetch _ => 5 | GSend _ => 4 | GRelease => 2 | GDefer => 1 | GExit => 0
  end.

Definition main_weight (p : MainPc) : nat :=
  match p with
  | MStart => 8 * length (enqueued w) + 5
  | MLoop todo => 8 * length todo + 4
  | MAcquire _ todo => 8 * length todo + 11
  | MGo _ todo => 8 * length todo + 10
  | MRange => 2
  | MSave => 1
  | MReturn _ | MPanic => 0
  end.

Definition closer_weight (c : Closer) : nat :=
  match c with CWait => 1 | _ => 0 end.

Definition measure (s : State) : nat :=
  if halted s then 0
  else main_weight (pc s) + tally weight (gs s) + length (results s)
       + closer_weight (closer s).

Definition finished (s : State) : Prop := halted s = true.

Lemma outcome_row e : ResRow (outcome w e) = Row e.
Proof.
  unfold outcome, resolve. destruct (FetchUserName _ _) as [name err]. done.
Qed.

Lemma rows_outcome (l : list Entry) : ResRow <$> (outcome w <$> l) = Row <$> l.
Proof.
  rewrite <- list_fmap_compose. apply list_fmap_ext. intros _ e _. apply outcome_row.
Qed.

End ExcelInvariant.

Section ExcelSteps.
Import Clerk Excel.
Context (w : World) (N : nat).

Lemma rowEntry_row r row e : rowEntry r row = Some e → Row e = Z.of_nat r + 1.
Proof.
  unfold rowEntry. intros H. repeat case_match; simplify_eq/=. done.
Qed.

Lemma entriesFrom_rows r rest :
  Forall (λ e, Z.of_nat r + 1 ≤ Row e) (entriesFrom r rest)
  ∧ NoDup (Row <$> entriesFrom r rest).
Proof.
  revert r. induction rest as [|row rest IH]; intros r; simpl.
  - split; constructor.
  - destruct (IH (S r)) as [Hge Hnd].
    assert (Forall (λ e, Z.of_nat r + 1 < Row e) (entriesFrom (S r) rest)) as Hgt.
    { eapply Forall_impl; [exact Hge|]. simpl. intros; lia. }
    destruct (rowEntry r row) as [e|] eqn:He.
    + apply rowEntry_row in He. split.
      * constructor; [lia|]. eapply Forall_impl; [exact Hgt|]. simpl. intros; lia.
      * csimpl. constructor; [|done]. rewrite He. intros Hin.
        apply list_elem_of_fmap in Hin as (e' & Heq & Hin).
        rewrite Forall_forall in Hgt. specialize (Hgt e' Hin). lia.
    + split; [|done]. eapply Forall_impl; [exact Hgt|]. simpl. intros; lia.
Qed.

Lemma enqueued_rows_nodup : NoDup (Row <$> enqueued w).
Proof.
  unfold enqueued. destruct (file w); try constructor.
  apply entriesFrom_rows.
Qed.

Ltac inv_open H :=
  destruct H as [Hstart Hsem Hcap Hwg Hcl Hperm Hsheet Hend Hret];
  unfold closer_ok in *; simpl in *.

Ltac ret_keep Hret :=
  destruct Hret as [?|[?|[? _]]]; try done;
  right; right; split; [done|intros ??; done].

Ltac inv_split :=
  unfold Inv; simpl; split; unfold closer_ok; simpl;
  try done; try lia; try (intros ? [?|?]; done);
  try match goal with H : _ ∨ _ ∨ _ |- _ ∨ _ ∨ _ => ret_keep H end.

Lemma closer_cases s :
  closer_ok s →
  match pc s with
  | MLoop _ | MAcquire _ _ | MGo _ _ | MStart => closer s = CNone ∧ closed s = false
  | _ => True
  end.
Proof.
  unfold closer_ok. destruct (closer s), (pc s); simpl; intuition congruence.
Qed.

Lemma main_step_inv s s' :
  halted s = false → main_step w N s = Some s' → Inv' w N s → Inv w N s'.
Proof.
  intros Hh Hstep HI. unfold main_step in Hstep.
  pose proof (closer_cases s (inv_closer _ _ _ HI)) as Hcc.
  destruct s as [p sm wgc g cl res cld sh app]. simpl in *.
  inv_open HI.
  destruct p as [|todo|e todo|e todo| | |err|]; simpl in *; try done.
  - (* MStart *)
    specialize (Hstart eq_refl). unfold init in Hstart.
    injection Hstart as -> -> -> -> -> -> -> ->.
    clear Hsem Hwg Hcl Hperm Hsheet Hend Hret.
    unfold enqueued, column in *.
    destruct (file w) as [| |rows] eqn:Hfile; simplify_eq/=.
    + inv_split; [unfold enqueued; by rewrite Hfile| |].
      * intros r Hr. by apply elem_of_nil in Hr.
      * right; left. unfold returned. by rewrite Hfile.
    + inv_split; [unfold enqueued; by rewrite Hfile| |].
      * intros r Hr. by apply elem_of_nil in Hr.
      * right; left. unfold returned. by rewrite Hfile.
    + destruct rows as [|row rows]; simplify_eq/=.
      * unfold Inv; simpl. done.
      * inv_split.
        -- unfold enqueued. by rewrite Hfile, app_nil_r.
        -- intros r Hr. by apply elem_of_nil in Hr.
        -- right; right. split; [eauto|done].
  - destruct Hcc as [-> ->].
    destruct todo as [|e todo]; simplify_eq/=; inv_split.
  - destruct Hcc as [-> ->]. case_decide; simplify_eq/=. inv_split.
  - destruct Hcc as [-> ->]. simplify_eq/=. inv_split.
    + rewrite tally_snoc. simpl. lia.
    + rewrite tally_snoc. simpl. lia.
    + rewrite bind_app. simpl. rewrite Hperm. solve_Permutation.
  - destruct res as [|r rest]; simplify_eq/=.
    + destruct cld; simplify_eq/=. inv_split.
      * destruct cl; intuition congruence.
      * intros _ _. destruct cl; intuition congruence.
    + inv_split.
      * rewrite Hperm. solve_Permutation.
      * intros r0 Hr0 Hw. unfold SetCellValue.
        apply elem_of_app in Hr0 as [Hr0|Hr0].
        -- case_decide; [|by apply Hsheet].
           rewrite lookup_insert_ne; [by apply Hsheet|].
           intros [=Heq].
           pose proof enqueued_rows_nodup as Hnd.
           rewrite <- (rows_outcome w), Hperm in Hnd.
           rewrite fmap_app in Hnd. apply NoDup_app in Hnd as (_ & _ & Hnd).
           csimpl in Hnd. rewrite fmap_app in Hnd.
           apply NoDup_cons in Hnd as [Hnd _].
           apply Hnd. rewrite Heq. apply elem_of_app. right.
           apply list_elem_of_fmap. eauto.
        -- apply list_elem_of_singleton in Hr0 as ->.
           rewrite decide_True by done. by rewrite lookup_insert_eq.
  - simplify_eq/=. destruct Hret as [?|[?|[[rows Hfile] _]]]; try done. inv_split.
    + destruct cl; intuition congruence.
    + intros err' _. eapply (Hend None). by left.
    + right; left. unfold returned. by rewrite Hfile.
Qed.

Lemma live_zero_owed l : tally live l = 0%nat → l ≫= owed w = [].
Proof.
  apply tally_zero_bind. intros g Hg. destruct g; simpl in *; done.
Qed.

Lemma Inv_intro s : pc s ≠ MPanic → Inv' w N s → Inv w N s.
Proof. unfold Inv. by destruct (pc s). Qed.

Lemma worker_step_inv i g s s' :
  halted s = false → gs s !! i = Some g → worker_step w i g s = Some s' →
  Inv' w N s → Inv w N s'.
Proof.
  intros Hh Hi Hstep HI.
  pose proof (λ g', tally_insert holding (gs s) i g g' Hi) as Hhold.
  pose proof (λ g', tally_insert live (gs s) i g g' Hi) as Hlive.
  pose proof (λ g', bind_insert_perm (owed w) (gs s) i g g' Hi) as Hbind.
  pose proof (tally_lookup_le live (gs s) i g Hi) as Hle.
  destruct s as [p sm wgc l cl res cld sh app]. simpl in *.
  inv_open HI.
  assert (p ≠ MPanic ∧ p ≠ MStart) as [Hp1 Hp2].
  { split; intros ->; [done|]. specialize (Hstart eq_refl).
    unfold init in Hstart. injection Hstart as _ _ -> _ _ _ _ _. done. }
  assert (cl = CDone → False) as Hnd.
  { intros ->. destruct Hcl as (_ & Hz & _). destruct g; simpl in *; try lia. done. }
  assert (cld = false) as ->.
  { destruct cl; try tauto. }
  assert (∀ err, p = MSave ∨ p = MReturn err → False) as Hne.
  { intros err Hp. destruct (Hend err Hp) as [_ Hz].
    destruct g; simpl in *; try lia. done. }
  destruct g as [e|r| | |]; simpl in *.
  - simplify_eq/=. specialize (Hhold (GSend (outcome w e))).
    specialize (Hlive (GSend (outcome w e))). specialize (Hbind (GSend (outcome w e))).
    simpl in *. apply Permutation_app_inv_r in Hbind.
    apply Inv_intro; [done|]. split; unfold closer_ok; simpl; try done; try lia.
    + destruct cl; try tauto.
    + by rewrite Hbind.
    + intros err Hp. destruct (Hne err Hp).
  - case_decide; simplify_eq/=. specialize (Hhold GRelease).
    specialize (Hlive GRelease). specialize (Hbind GRelease). simpl in *.
    rewrite app_nil_r in Hbind.
    apply Inv_intro; [done|]. split; unfold closer_ok; simpl; try done; try lia.
    + destruct cl; try tauto.
    + rewrite Hperm, <- Hbind. solve_Permutation.
    + intros err Hp. destruct (Hne err Hp).
  - destruct sm as [|sm]; simplify_eq/=. specialize (Hhold GDefer).
    specialize (Hlive GDefer). specialize (Hbind GDefer). simpl in *.
    rewrite !app_nil_r in Hbind.
    apply Inv_intro; [done|]. split; unfold closer_ok; simpl; try done; try lia.
    + destruct cl; try tauto.
    + by rewrite Hbind.
    + intros err Hp. destruct (Hne err Hp).
  - destruct wgc as [|wgc]; simplify_eq/=; [lia|]. specialize (Hhold GExit).
    specialize (Hlive GExit). specialize (Hbind GExit). simpl in *.
    rewrite !app_nil_r in Hbind.
    apply Inv_intro; [done|]. split; unfold closer_ok; simpl; try done; try lia.
    + destruct cl; try tauto.
    + by rewrite Hbind.
    + intros err Hp. destruct (Hne err Hp).
  - done.
Qed.

Lemma closer_step_inv s s' :
  halted s = false → closer_step s = Some s' → Inv' w N s → Inv w N s'.
Proof.
  intros Hh Hstep HI. unfold closer_step in Hstep.
  destruct s as [p sm wgc l cl res cld sh app]. simpl in *.
  inv_open HI.
  destruct cl; try done. destruct wgc as [|wgc]; try done.
  destruct Hcl as [-> ->]. simplify_eq/=.
  apply Inv_intro; [done|]. split; unfold closer_ok; simpl; try done; lia.
Qed.

Lemma fire_inv a s s' : fire w N a s = Some s' → Inv w N s → Inv w N s'.
Proof.
  unfold fire. destruct (halted s) eqn:Hh; [done|]. intros Hstep HI.
  assert (Inv' w N s) as HI'.
  { unfold Inv, halted in *. by destruct (pc s). }
  destruct a as [|i|].
  - by eapply main_step_inv.
  - destruct (gs s !! i) as [g|] eqn:Hi; [|done]. by eapply worker_step_inv.
  - by eapply closer_step_inv.
Qed.

Lemma init_inv : Inv w N init.
Proof.
  unfold Inv. simpl. split; unfold closer_ok; simpl; try done; try lia.
  - by rewrite app_nil_r.
  - intros r Hr. by apply elem_of_nil in Hr.
  - by left.
Qed.

Lemma reachable_inv s : reachable w N s → Inv w N s.
Proof.
  unfold reachable. intros Hr.
  eapply (rtc_ind_r (Inv w N)); [apply init_inv| |exact Hr].
  intros s1 s2 _ [a Ha] IH. by eapply fire_inv.
Qed.

Lemma fire_measure a s s' : fire w N a s = Some s' → (measure w s' < measure w s)%nat.
Proof.
  unfold fire, measure. destruct (halted s) eqn:Hh; [done|]. intros Hstep.
  destruct a as [|i|].
  - unfold main_step in Hstep. destruct s as [p sm wgc l cl res cld sh app].
    unfold halted in *. simpl in *.
    destruct p as [|todo|e todo|e todo| | |err|]; simpl in *; try done.
    + unfold enqueued. destruct (file w) as [| |[|row rows]]; simplify_eq/=;
        rewrite ?tally_nil; lia.
    + destruct todo; simplify_eq/=; lia.
    + case_decide; simplify_eq/=; lia.
    + simplify_eq/=. rewrite tally_snoc. simpl. lia.
    + destruct res; [destruct cld|]; simplify_eq/=; lia.
    + simplify_eq/=. lia.
  - destruct (gs s !! i) as [g|] eqn:Hi; [|done].
    pose proof (λ g', tally_insert weight (gs s) i g g' Hi) as Hw.
    pose proof (tally_lookup_le weight (gs s) i g Hi) as Hle.
    destruct s as [p sm wgc l cl res cld sh app].
    unfold halted in *. simpl in *.
    destruct g as [e|r| | |]; simpl in *.
    + simplify_eq/=. rewrite Hh. specialize (Hw (GSend (outcome w e))). simpl in *. lia.
    + destruct cld; [simplify_eq/=; lia|]. case_decide; simplify_eq/=.
      rewrite Hh, length_app. specialize (Hw GRelease). simpl in *. lia.
    + destruct sm; simplify_eq/=. rewrite Hh. specialize (Hw GDefer). simpl in *. lia.
    + destruct wgc; simplify_eq/=; [lia|]. rewrite Hh. specialize (Hw GExit).
      simpl in *. lia.
    + done.
  - unfold closer_step in Hstep. destruct s as [p sm wgc l cl res cld sh app].
    unfold halted in *. simpl in *.
    destruct cl; try done. destruct wgc; try done.
    destruct cld; simplify_eq/=; [lia|]. rewrite Hh. simpl. lia.
Qed.

Lemma step_sn s : sn (step w N) s.
Proof.
  remember (measure w s) as n eqn:Hn. revert s Hn.
  induction n as [n IH] using lt_wf_ind. intros s ->.
  constructor. intros s' [a Ha]. apply fire_measure in Ha.
  by eapply IH.
Qed.

Lemma worker_enabled s i g :
  Inv' w N s → halted s = false → closed s = false →
  gs s !! i = Some g → g ≠ GExit →
  ∃ s', fire w N (AWorker i) s = Some s'.
Proof.
  intros HI Hh Hcld Hi Hg. unfold fire. rewrite Hh, Hi.
  pose proof (tally_lookup_le holding (gs s) i g Hi) as Hhold.
  pose proof (tally_lookup_le live (gs s) i g Hi) as Hlive.
  pose proof (bind_lookup_length (owed w) (gs s) i g Hi) as Howed.
  destruct HI as [_ Hsem _ Hwg _ Hperm _ _ _].
  apply Permutation_length in Hperm.
  rewrite !length_app, !length_fmap in Hperm.
  destruct g as [e|r| | |]; simpl in *; try done.
  - eauto.
  - rewrite Hcld. case_decide; [eauto|lia].
  - destruct (sem s); [lia|eauto].
  - destruct (wg s); [lia|eauto].
Qed.

Lemma progress s :
  (0 < N)%nat → Inv w N s → finished s ∨ red (step w N) s.
Proof.
  intros HN HI. unfold finished. destruct (halted s) eqn:Hh; [by left|right].
  assert (Inv' w N s) as HI'.
  { unfold Inv, halted in *. by destruct (pc s). }
  pose proof (closer_cases s (inv_closer _ _ _ HI')) as Hcc.
  assert (∀ s', main_step w N s = Some s' → red (step w N) s) as Hmain.
  { intros s' Hs'. exists s', AMain. unfold fire. by rewrite Hh. }
  assert (∀ i g, closed s = false → gs s !! i = Some g → (0 < live g)%nat →
            red (step w N) s) as Hworker.
  { intros i g Hcld Hi Hg. destruct (worker_enabled s i g) as [s' Hs']; try done.
    - intros ->. simpl in Hg. lia.
    - by exists s', (AWorker i). }
  unfold main_step in Hmain.
  destruct (pc s) as [|todo|e todo|e todo| | |err|] eqn:Hpc; try done.
  - destruct (file w) as [| |[|row rows]]; eauto.
  - destruct todo; eauto.
  - case_decide as Hlt; [eauto|]. destruct Hcc as [_ Hcld].
    destruct (tally_pos holding (gs s)) as (i & g & Hi & Hg).
    { pose proof (inv_sem _ _ _ HI'). rewrite Hpc in *. simpl in *. lia. }
    eapply (Hworker i g); [done..|]. destruct g; simpl in *; lia.
  - eauto.
  - destruct (results s) as [|r rest] eqn:Hres; [|eauto].
    destruct (closed s) eqn:Hcld; [eauto|].
    pose proof (inv_closer _ _ _ HI') as Hcl. unfold closer_ok in Hcl.
    rewrite Hpc, Hcld in Hcl.
    destruct (closer s) eqn:Hc; [by destruct Hcl as (_ & ? & _)| |by destruct Hcl].
    destruct (wg s) as [|n] eqn:Hwg.
    + exists (set_closer CDone (set_closed true s)), ACloser.
      unfold fire, closer_step. by rewrite Hh, Hc, Hwg, Hcld.
    + destruct (tally_pos live (gs s)) as (i & g & Hi & Hg).
      { pose proof (inv_wg _ _ _ HI'). rewrite Hpc in *. simpl in *. lia. }
      by eapply (Hworker i g).
  - eauto.
  - unfold halted in Hh. by rewrite Hpc in Hh.
  - unfold halted in Hh. by rewrite Hpc in Hh.
Qed.

Lemma returned_applied s err :
  Inv w N s → pc s = MReturn err →
  err = returned w ∧ applied s ≡ₚ outcome w <$> enqueued w.
Proof.
  intros HI Hpc. unfold Inv in HI. rewrite Hpc in HI.
  destruct HI as [_ _ _ _ _ Hperm _ Hend Hret].
  destruct (Hend err) as [Hres Hlive]; [by right|].
  rewrite Hpc, Hres, (live_zero_owed _ Hlive) in Hperm. simpl in Hperm.
  split; [|done].
  destruct Hret as [?|[?|[_ Hne]]]; [congruence|congruence|].
  by destruct (Hne err).
Qed.

Lemma tally_mono (f h : Goroutine → nat) l :
  (∀ g, f g ≤ h g)%nat → (tally f l ≤ tally h l)%nat.
Proof.
  intros Hfh. unfold tally. induction l as [|a l IH]; csimpl; [lia|].
  specialize (Hfh a). lia.
Qed.

Lemma inflight_bound s : Inv w N s → (inflight s ≤ N)%nat.
Proof.
  unfold Inv, inflight. intros HI.
  assert (tally fetching (gs s) ≤ tally holding (gs s))%nat as Hle.
  { apply tally_mono. intros []; simpl; lia. }
  fold (tally fetching (gs s)).
  destruct (pc s) eqn:Hpc;
    try (pose proof (inv_sem _ _ _ HI); pose proof (inv_cap _ _ _ HI); lia).
  destruct HI as [_ Hs]. rewrite Hs. simpl. rewrite tally_nil. lia.
Qed.
End ExcelSteps.

End ExcelProofs.

(** ** 64-bit counters *)

Lemma wrap64_small x : - 2 ^ 63 ≤ x < 2 ^ 63 → Go.wrap64 x = x.
Proof.
  intros Hx. unfold Go.wrap64. rewrite Z.mod_small; lia.
Qed.

Lemma wrap64_add x y : Go.wrap64 (Go.wrap64 x + y) = Go.wrap64 (x + y).
Proof.
  unfold Go.wrap64.
  replace (((x + 2 ^ 63) mod 2 ^ 64 - 2 ^ 63 + y + 2 ^ 63))
    with ((x + 2 ^ 63) mod 2 ^ 64 + y) by lia.
  replace (x + y + 2 ^ 63) with ((x + 2 ^ 63) + y) by lia.
  by rewrite Zplus_mod_idemp_l.
Qed.

(** ** The migration: the invariant of every schedule *)

Module MigrateProofs.

Section MigrateInvariant.
Import Migrate.
Context (config : Config) (classify : ObjectAttrs → Verdict) (w : World).

Definition live (g : Worker) : nat :=
  match g with WExit => 0 | _ => 1 end.

Definition busy (g : Worker) : nat :=
  match g with WCount _ | WHead _ | WOpen _ | WUpload _ => 1 | _ => 0 end.

Definition uncounted (g : Worker) : nat :=
  match g with WCount _ => 1 | _ => 0 end.


Definition to_spawn (p : MainPc) : nat :=
  match p with
  | PStart => Z.to_nat (MaxWorkers config)
  | PSpawn todo => todo
  | _ => 0
  end.

Definition past_scan (p : MainPc) : bool :=
  match p with PWait | PDone => true | _ => false end.

(** The local counters once the rest of the listing has been scanned. *)
Definition scan_ahead (s : State) : Scan :=
  match pc s with
  | PStart | PSpawn _ => scan classify (listing w) (local s)
  | PScan rest => scan classify rest (local s)
  | PSend job rest => scan classify rest (count_queued job (local s))
  | _ => local s
  end.

Record Inv' (s : State) : Prop := {
  inv_start : pc s = PStart → s = init w;
  inv_workers : (length (workers s) + to_spawn (pc s))%nat = Z.to_nat (MaxWorkers config);
  inv_wg : wg s = tally live (workers s);
  inv_closed : closed s = past_scan (pc s);
  inv_live : closed s = false → tally live (workers s) = length (workers s);
  inv_cap : (length (jobs s) ≤ capacity config)%nat;
  inv_skd : skippedDate (stats (shared s)) = 0;
  inv_scan : scan_ahead s = scan classify (listing w) scan0;
  inv_total :
    totalFiles (stats (shared s)) =
      Go.wrap64 (Z.of_nat (length (sent (local s))) - Z.of_nat (length (jobs s))
                 - Z.of_nat (tally uncounted (workers s)));
  inv_drained : (tally live (workers s) < length (workers s))%nat → jobs s = [];
  inv_done : pc s = PDone →
    tally live (workers s) = 0%nat ∧ ((0 < length (workers s))%nat → jobs s = [])
}.

Definition Inv (s : State) : Prop :=
  match pc s with
  | PPanic => chanSize config < 0 ∧ s = set_pc PPanic (init w)
  | _ => Inv' s
  end.

Definition weight (g : Worker) : nat :=
  match g with
  | WRecv => 1 | WCount _ => 6 | WHead _ => 5 | WOpen _ => 4 | WUpload _ => 3
  | WExit => 0
  end.

Definition main_weight (p : MainPc) : nat :=
  match p with
  | PStart => 8 * length (listing w) + 2 * Z.to_nat (MaxWorkers config) + 5
  | PSpawn todo => 8 * length (listing w) + 2 * todo + 4
  | PScan rest => 8 * length rest + 3
  | PSend _ rest => 8 * length rest + 10
  | PWait => 1
  | PDone | PPanic => 0
  end.

Definition measure (s : State) : nat :=
  if halted s then 0
  else main_weight (pc s) + tally weight (workers s) + 6 * length (jobs s).

Definition finished (s : State) : Prop := halted s = true.

End MigrateInvariant.

Section MigrateSteps.
Import Migrate.
Context (config : Config) (classify : ObjectAttrs → Verdict) (w : World).

Local Abbreviation Inv' := (Inv' config classify w).
Local Abbreviation Inv := (Inv config classify w).
Local Abbreviation fire := (fire config classify w).
Local Abbreviation step := (step config classify w).

Ltac inv_open H :=
  destruct H as [Hstart Hworkers Hwg Hclosed Hlive Hcap Hskd Hscan Htotal Hdrain Hdone];
  simpl in *.

Lemma pool_Inv_intro s : pc s ≠ PPanic → Inv' s → Inv s.
Proof. unfold MigrateProofs.Inv. by destruct (pc s). Qed.

Ltac inv_goal :=
  apply pool_Inv_intro; [done|]; split; simpl;
  rewrite ?tally_snoc, ?length_app; simpl; try done; try lia;
  try (intros; match goal with H : _ → tally _ _ = _ |- _ => rewrite H by done end; lia);
  try (match goal with H : totalFiles _ = _ |- _ => rewrite H end; f_equal; lia).

Lemma pool_main_step_inv s s' :
  halted s = false → main_step config classify w s = Some s' → Inv' s → Inv s'.
Proof.
  intros Hh Hstep HI. unfold main_step in Hstep.
  destruct s as [p loc js cld ws wgc sh]. simpl in *.
  inv_open HI. unfold scan_ahead in *. simpl in *.
  destruct p as [|[|todo]|[|attrs rest]|job rest| | |]; simpl in *; try done.
  - specialize (Hstart eq_refl). unfold init in Hstart.
    injection Hstart as -> -> -> -> -> ->.
    case_decide; simplify_eq/=.
    + unfold MigrateProofs.Inv. simpl. done.
    + inv_goal.
  - simplify_eq/=. inv_goal.
  - simplify_eq/=. inv_goal.
  - simplify_eq/=. inv_goal.
  - destruct (classify attrs) as [| |job] eqn:Hc; simplify_eq/=; inv_goal.
  - case_decide; simplify_eq/=. inv_goal.
  - destruct wgc; simplify_eq/=. inv_goal. intros _. split; [done|].
    intros Hpos. apply Hdrain. lia.
Qed.

(** What the three remote steps leave alone. *)
Definition frame (sh : Shared) (next : Shared * Worker) : Prop :=
  skippedDate (stats (fst next)) = skippedDate (stats sh)
  ∧ totalFiles (stats (fst next)) = totalFiles (stats sh)
  ∧ live (snd next) = 1%nat ∧ uncounted (snd next) = 0%nat.

Lemma head_step_frame job sh : frame sh (head_step w job sh).
Proof. unfold frame, head_step. by case_match. Qed.

Lemma open_step_frame job sh : frame sh (open_step w job sh).
Proof. unfold frame, open_step. by case_match. Qed.

Lemma upload_step_frame job sh : frame sh (upload_step w job sh).
Proof. unfold frame, upload_step. by case_match. Qed.

Lemma pool_move_inv i g next p loc js cld ws wgc sh :
  let s := {| pc := p; local := loc; jobs := js; closed := cld; workers := ws;
              wg := wgc; shared := sh |} in
  ws !! i = Some g → live g = 1%nat → uncounted g = 0%nat →
  p ≠ PPanic → p ≠ PStart → p ≠ PDone → frame sh next →
  Inv' s → Inv (move i next s).
Proof.
  intros s Hi Hg1 Hg2 Hp1 Hp2 Hp3 (Hf1 & Hf2 & Hf3 & Hf4) HI.
  pose proof (tally_insert live ws i g (snd next) Hi) as Hl.
  pose proof (tally_insert uncounted ws i g (snd next) Hi) as Hu.
  inv_open HI. unfold scan_ahead in *. simpl in *.
  apply pool_Inv_intro; [done|]. split; simpl; rewrite ?length_insert;
    try done; try lia.
  - intros Hc. rewrite <- Hlive by done. lia.
  - rewrite Hf2, Htotal. f_equal. lia.
  - intros Hlt. apply Hdrain. lia.
Qed.

Lemma pool_worker_step_inv i g s s' :
  halted s = false → workers s !! i = Some g →
  worker_step w i g s = Some s' → Inv' s → Inv s'.
Proof.
  intros Hh Hi Hstep HI.
  pose proof (λ g', tally_insert live (workers s) i g g' Hi) as Hl.
  pose proof (λ g', tally_insert uncounted (workers s) i g g' Hi) as Hu.
  pose proof (tally_lookup_le live (workers s) i g Hi) as Hle.
  destruct s as [p loc js cld ws wgc sh]. simpl in *.
  inv_open HI. unfold scan_ahead in *. simpl in *.
  assert (p ≠ PPanic ∧ p ≠ PDone ∧ p ≠ PStart) as (Hp1 & Hp3 & Hp2).
  { split_and!; intros ->; [done|done|]. specialize (Hstart eq_refl).
    unfold init in Hstart. injection Hstart as _ _ _ -> _ _. done. }
  destruct g as [|job|job|job|job|]; simpl in *.
  - destruct js as [|job rest]; simplify_eq/=.
    + destruct (past_scan p) eqn:Hps; [|done].
      destruct (tally live ws) eqn:Hz; simplify_eq/=; [lia|].
      specialize (Hl WExit). specialize (Hu WExit). simpl in *.
      apply pool_Inv_intro; [done|]. split; simpl; rewrite ?length_insert;
        try done; try lia.
      rewrite Htotal. f_equal. lia.
    + specialize (Hl (WCount job)). specialize (Hu (WCount job)). simpl in *.
      apply pool_Inv_intro; [done|]. split; simpl; rewrite ?length_insert;
        try done; try lia.
      * intros Hc. rewrite <- Hlive by done. lia.
      * rewrite Htotal. f_equal. lia.
      * intros Hlt. by specialize (Hdrain ltac:(lia)).
  - simplify_eq/=. specialize (Hl (WHead job)). specialize (Hu (WHead job)).
    simpl in *.
    apply pool_Inv_intro; [done|]. split; simpl; rewrite ?length_insert;
      try done; try lia.
    + intros Hc. rewrite <- Hlive by done. lia.
    + rewrite Htotal. unfold Go.Int64_Add. rewrite wrap64_add. f_equal. lia.
    + intros Hlt. apply Hdrain. lia.
  - simplify_eq/=. eapply (pool_move_inv i (WHead job)); try done.
    apply head_step_frame.
  - simplify_eq/=. eapply (pool_move_inv i (WOpen job)); try done.
    apply open_step_frame.
  - simplify_eq/=. eapply (pool_move_inv i (WUpload job)); try done.
    apply upload_step_frame.
  - done.
Qed.

Lemma pool_fire_inv a s s' : fire a s = Some s' → Inv s → Inv s'.
Proof.
  unfold Migrate.fire. destruct (halted s) eqn:Hh; [done|]. intros Hstep HI.
  assert (Inv' s) as HI'.
  { unfold MigrateProofs.Inv, halted in *. by destruct (pc s). }
  destruct a as [|i].
  - by eapply pool_main_step_inv.
  - destruct (workers s !! i) as [g|] eqn:Hi; [|done]. by eapply pool_worker_step_inv.
Qed.

Lemma pool_init_inv : Inv (init w).
Proof.
  unfold MigrateProofs.Inv. simpl. split; simpl; try done; try lia.
Qed.

Lemma pool_reachable_inv s : reachable config classify w s → Inv s.
Proof.
  unfold reachable. intros Hr.
  eapply (rtc_ind_r (MigrateProofs.Inv config classify w)); [apply pool_init_inv| |exact Hr].
  intros s1 s2 _ [a Ha] IH. by eapply pool_fire_inv.
Qed.

Lemma pool_fire_measure a s s' :
  fire a s = Some s' → (measure config w s' < measure config w s)%nat.
Proof.
  unfold Migrate.fire, measure. destruct (halted s) eqn:Hh; [done|]. intros Hstep.
  destruct a as [|i].
  - unfold main_step in Hstep. destruct s as [p loc js cld ws wgc sh].
    unfold halted in *. simpl in *.
    destruct p as [|[|todo]|[|attrs rest]|job rest| | |]; simpl in *; try done.
    + case_decide; simplify_eq/=; lia.
    + simplify_eq/=. lia.
    + simplify_eq/=. rewrite tally_snoc. simpl. lia.
    + simplify_eq/=. lia.
    + destruct (classify attrs); simplify_eq/=; lia.
    + case_decide; simplify_eq/=. rewrite length_app. simpl. lia.
    + destruct wgc; simplify_eq/=. lia.
  - destruct (workers s !! i) as [g|] eqn:Hi; [|done].
    pose proof (λ g', tally_insert weight (workers s) i g g' Hi) as Hw.
    pose proof (tally_lookup_le weight (workers s) i g Hi) as Hle.
    destruct s as [p loc js cld ws wgc sh].
    unfold halted in *. simpl in *.
    destruct g as [|job|job|job|job|]; simpl in *.
    + destruct js as [|job rest]; simplify_eq/=.
      * destruct cld; [|done]. destruct wgc; simplify_eq/=; [lia|].
        rewrite Hh. specialize (Hw WExit). simpl in *. lia.
      * rewrite Hh. specialize (Hw (WCount job)). simpl in *. lia.
    + simplify_eq/=. rewrite Hh. specialize (Hw (WHead job)). simpl in *. lia.
    + simplify_eq/=. rewrite Hh. unfold head_step.
      destruct (fileExistsInS3 _ _); simpl;
        [specialize (Hw WRecv)|specialize (Hw (WOpen job))]; simpl in *; lia.
    + simplify_eq/=. rewrite Hh. unfold open_step.
      destruct (readable _ _); simpl;
        [specialize (Hw (WUpload job))|specialize (Hw WRecv)]; simpl in *; lia.
    + simplify_eq/=. rewrite Hh. unfold upload_step.
      destruct (uploadable _ _); simpl; specialize (Hw WRecv); simpl in *; lia.
    + done.
Qed.

Lemma pool_step_sn s : sn step s.
Proof.
  remember (measure config w s) as n eqn:Hn. revert s Hn.
  induction n as [n IH] using lt_wf_ind. intros s ->.
  constructor. intros s' [a Ha]. apply pool_fire_measure in Ha.
  by eapply IH.
Qed.

Lemma pool_worker_enabled s i g :
  Inv' s → halted s = false → workers s !! i = Some g →
  g ≠ WExit → (g = WRecv → jobs s ≠ [] ∨ closed s = true) →
  ∃ s', fire (AWorker i) s = Some s'.
Proof.
  intros HI Hh Hi Hg Hrecv. unfold Migrate.fire. rewrite Hh, Hi.
  pose proof (tally_lookup_le live (workers s) i g Hi) as Hlive.
  pose proof (inv_wg _ _ _ _ HI) as Hwg.
  destruct g as [|job|job|job|job|]; simpl in *; try done; eauto.
  destruct (jobs s) as [|job rest]; [|eauto].
  destruct (Hrecv eq_refl) as [?|Hc]; [done|]. rewrite Hc.
  destruct (wg s); [lia|eauto].
Qed.

Lemma chanSize_small : 0 < MaxWorkers config < 2 ^ 62 → chanSize config = MaxWorkers config * 2.
Proof. intros HN. unfold chanSize. apply wrap64_small. lia. Qed.

Lemma pool_progress s :
  0 < MaxWorkers config < 2 ^ 62 → Inv s → finished s ∨ red step s.
Proof.
  intros HN HI. unfold finished. destruct (halted s) eqn:Hh; [by left|right].
  assert (Inv' s) as HI'.
  { unfold MigrateProofs.Inv, halted in *. by destruct (pc s). }
  assert (∀ s', main_step config classify w s = Some s' → red step s) as Hmain.
  { intros s' Hs'. exists s', AMain. unfold Migrate.fire. by rewrite Hh. }
  assert (∀ i g, workers s !! i = Some g → g ≠ WExit →
            (g = WRecv → jobs s ≠ [] ∨ closed s = true) → red step s) as Hworker.
  { intros i g Hi Hg Hrecv.
    destruct (pool_worker_enabled s i g) as [s' Hs']; try done.
    by exists s', (AWorker i). }
  pose proof (inv_workers _ _ _ _ HI') as Hws.
  pose proof (inv_closed _ _ _ _ HI') as Hcld.
  pose proof (inv_live _ _ _ _ HI') as Hlive.
  pose proof (inv_wg _ _ _ _ HI') as Hwg.
  unfold main_step in Hmain.
  destruct (pc s) as [|[|todo]|[|attrs rest]|job rest| | |] eqn:Hpc; simpl in *;
    try (by eauto).
  - case_decide; eauto.
  - destruct (classify attrs); eauto.
  - case_decide as Hlt; [eauto|].
    destruct (tally_pos live (workers s)) as (i & g & Hi & Hg).
    { rewrite Hlive by done. lia. }
    apply (Hworker i g Hi).
    + intros ->. simpl in Hg. lia.
    + intros _. left. intros Hnil. rewrite Hnil in Hlt. simpl in Hlt.
      unfold capacity in Hlt. rewrite chanSize_small in Hlt by done. lia.
  - destruct (wg s) as [|n] eqn:Hw; [eauto|].
    destruct (tally_pos live (workers s)) as (i & g & Hi & Hg); [lia|].
    apply (Hworker i g Hi).
    + intros ->. simpl in Hg. lia.
    + intros _. by right.
  - unfold halted in Hh. by rewrite Hpc in Hh.
  - unfold halted in Hh. by rewrite Hpc in Hh.
Qed.

(** The one panic of the program is that of [make], before any listing. *)
Lemma pool_panic s :
  reachable config classify w s → pc s = PPanic →
  chanSize config < 0 ∧ local s = scan0.
Proof.
  intros Hs Hpc. pose proof (pool_reachable_inv s Hs) as HI.
  unfold MigrateProofs.Inv in HI. rewrite Hpc in HI.
  destruct HI as [Hneg ->]. done.
Qed.

Lemma pool_inflight_bound s : Inv s → (inflight s ≤ Z.to_nat (MaxWorkers config))%nat.
Proof.
  unfold MigrateProofs.Inv, inflight. intros HI. fold (tally copying (workers s)).
  assert (tally copying (workers s) ≤ length (workers s))%nat as Hle.
  { unfold tally. induction (workers s) as [|g l IH]; csimpl; [lia|].
    destruct g; simpl; lia. }
  destruct (pc s) eqn:Hpc;
    try (pose proof (inv_workers _ _ _ _ HI); lia).
  destruct HI as [_ Hs]. rewrite Hs. simpl. rewrite tally_nil. lia.
Qed.
End MigrateSteps.

(** *** The listing loop on its own *)

Section ScanFacts.
Import Migrate.
Context (classify : ObjectAttrs → Verdict).

Definition skipped (attrs : ObjectAttrs) : nat :=
  match classify attrs with SkippedByDate => 1 | _ => 0 end.

Lemma eligible_cons a l :
  eligible classify (a :: l) =
    match classify a with
    | Queued job => job :: eligible classify l
    | _ => eligible classify l
    end.
Proof. unfold eligible. csimpl. by destruct (classify a). Qed.

Lemma scan_sent l acc : sent (scan classify l acc) = sent acc ++ eligible classify l.
Proof.
  revert acc. induction l as [|a l IH]; intros acc.
  - simpl. by rewrite app_nil_r.
  - rewrite eligible_cons. simpl. rewrite IH.
    destruct (classify a); simpl; try done. by rewrite <- (assoc_L (++)).
Qed.

Lemma scan_filesQueued l acc n :
  filesQueued acc = Go.wrap64 n →
  filesQueued (scan classify l acc)
  = Go.wrap64 (n + Z.of_nat (length (eligible classify l))).
Proof.
  revert acc n. induction l as [|a l IH]; intros acc n Hacc.
  - simpl. rewrite Hacc. f_equal. lia.
  - rewrite eligible_cons. simpl. destruct (classify a); simpl.
    + by apply IH.
    + by apply IH.
    + rewrite (IH _ (n + 1)); [f_equal; lia|]. simpl.
      unfold Go.Int64_Add. by rewrite Hacc, wrap64_add.
Qed.

Lemma scan_skippedByDate l acc n :
  skippedByDate acc = Go.wrap64 n →
  skippedByDate (scan classify l acc)
  = Go.wrap64 (n + Z.of_nat (tally skipped l)).
Proof.
  revert acc n. induction l as [|a l IH]; intros acc n Hacc; simpl.
  - rewrite Hacc, tally_nil. f_equal. lia.
  - unfold tally. csimpl. fold (tally skipped l). unfold skipped at 1.
    destruct (classify a); simpl.
    + by apply IH.
    + rewrite (IH _ (n + 1)); [f_equal; lia|]. simpl.
      unfold Go.Int64_Add. by rewrite Hacc, wrap64_add.
    + by apply IH.
Qed.

Lemma elem_of_eligible job l :
  job ∈ eligible classify l ↔ ∃ attrs, attrs ∈ l ∧ classify attrs = Queued job.
Proof.
  unfold eligible. rewrite list_elem_of_omap. split.
  - intros (a & Ha & Hq). exists a. split; [done|].
    destruct (classify a); by simplify_eq.
  - intros (a & Ha & Hq). exists a. split; [done|]. by rewrite Hq.
Qed.

End ScanFacts.

(** *** A second run over a destination that holds every eligible key *)

Section Rerun.
Import Migrate.
Context (config : Config) (classify : ObjectAttrs → Verdict) (w : World).
Hypothesis Hpresent :
  ∀ job, job ∈ eligible classify (listing w) →
    objectOf w (RelativePath job) ∈ present w.

Definition is_head (c : Call) : Prop :=
  match c with HeadObject _ => True | _ => False end.

Definition probing (g : Worker) : Prop :=
  match g with
  | WCount job | WHead job => job ∈ eligible classify (listing w)
  | WOpen _ | WUpload _ => False
  | _ => True
  end.

Definition ahead (p : MainPc) : list ObjectAttrs :=
  match p with
  | PScan rest | PSend _ rest => rest
  | _ => []
  end.

Record Idem (s : State) : Prop := {
  id_s3 : s3 (shared s) = present w;
  id_calls : Forall is_head (calls (shared s));
  id_copied : copiedFiles (stats (shared s)) = 0;
  id_errors : errorFiles (stats (shared s)) = 0;
  id_skipped :
    skippedExisting (stats (shared s)) =
      Go.wrap64 (Z.of_nat (length (sent (local s))) - Z.of_nat (length (jobs s))
                 - Z.of_nat (tally busy (workers s)));
  id_ahead : Forall (λ a, a ∈ listing w) (ahead (pc s));
  id_hand : ∀ job rest, pc s = PSend job rest → job ∈ eligible classify (listing w);
  id_jobs : Forall (λ job, job ∈ eligible classify (listing w)) (jobs s);
  id_workers : Forall probing (workers s)
}.

Lemma rerun_init : Idem (init w).
Proof. split; simpl; try done; by constructor. Qed.

Lemma rerun_fire a s s' :
  fire config classify w a s = Some s' → Idem s → Idem s'.
Proof.
  unfold fire. destruct (halted s) eqn:Hh; [done|]. intros Hstep HI.
  destruct a as [|i].
  - unfold main_step in Hstep. destruct s as [p loc js cld ws wgc sh].
    destruct HI as [Hs3 Hcalls Hcop Herr Hsk Hahead Hhand Hjobs Hws]. simpl in *.
    destruct p as [|[|todo]|[|attrs rest]|job rest| | |]; simpl in *; try done.
    + case_decide; simplify_eq/=; split; simpl; try done.
    + simplify_eq/=. split; simpl; try done. by apply Forall_forall.
    + simplify_eq/=. split; simpl; try done.
      * rewrite tally_snoc. simpl. rewrite Hsk. f_equal. lia.
      * apply Forall_app. split; [done|]. by repeat constructor.
    + simplify_eq/=. split; simpl; try done.
    + apply Forall_cons in Hahead as [Ha Hahead].
      destruct (classify attrs) as [| |job] eqn:Hc; simplify_eq/=;
        split; simpl; try done.
      intros job' rest' [= <- <-]. apply elem_of_eligible. eauto.
    + case_decide; simplify_eq/=. split; simpl; try done.
      * rewrite !length_app. simpl. rewrite Hsk. f_equal. lia.
      * apply Forall_app. split; [done|]. repeat constructor. by eapply Hhand.
    + destruct wgc; simplify_eq/=. split; simpl; try done.
  - destruct (workers s !! i) as [g|] eqn:Hi; [|done].
    pose proof (λ g', tally_insert busy (workers s) i g g' Hi) as Hb.
    destruct s as [p loc js cld ws wgc sh].
    destruct HI as [Hs3 Hcalls Hcop Herr Hsk Hahead Hhand Hjobs Hws]. simpl in *.
    pose proof (Forall_lookup_1 _ _ _ _ Hws Hi) as Hg.
    destruct g as [|job|job|job|job|]; simpl in *; try done.
    + destruct js as [|job rest]; simplify_eq/=.
      * destruct cld; [|done]. destruct wgc; simplify_eq/=.
        -- split; simpl; try done.
        -- specialize (Hb WExit). simpl in *. split; simpl; try done.
           ++ rewrite Hsk. f_equal. lia.
           ++ by apply Forall_insert.
      * apply Forall_cons in Hjobs as [Hjob Hjobs].
        specialize (Hb (WCount job)). simpl in *. split; simpl; try done.
        -- rewrite Hsk. f_equal. lia.
        -- by apply Forall_insert.
    + simplify_eq/=. specialize (Hb (WHead job)). simpl in *.
      split; simpl; try done.
      * rewrite Hsk. f_equal. lia.
      * by apply Forall_insert.
    + simplify_eq/=. unfold move, head_step, fileExistsInS3.
      rewrite bool_decide_eq_true_2 by (rewrite Hs3; by apply Hpresent).
      specialize (Hb WRecv). simpl in *. split; simpl; try done.
      * apply Forall_app. split; [done|]. by repeat constructor.
      * rewrite Hsk. unfold Go.Int64_Add. rewrite wrap64_add. f_equal. lia.
      * by apply Forall_insert.
Qed.

Lemma rerun_reachable s : reachable config classify w s → Idem s.
Proof.
  unfold reachable. intros Hr.
  eapply (rtc_ind_r Idem); [apply rerun_init| |exact Hr].
  intros s1 s2 _ [a Ha] IH. by eapply rerun_fire.
Qed.

End Rerun.

End MigrateProofs.

(** * The claims *)

(** ** The resolver *)

Section ResolverFacts.
Import Clerk.

Lemma stringTrim_id (s : string) : Clerk.stringTrim s = s.
Proof.
  unfold Clerk.stringTrim, Go.string_of_bytes, Go.bytes_of_string.
  apply string_of_list_byte_of_string.
Qed.

Lemma fullName_nonempty (a b : string) : Go.Sprintf_s_s a b ≠ "".
Proof.
  unfold Go.Sprintf_s_s. induction a as [|c a _]; simpl; discriminate.
Qed.

(** Every decoded 200 response resolves to the joined name: the three
    fallbacks of [FetchUserName] are never reached. *)
Lemma FetchUserName_ok userID user :
  FetchUserName userID (Response StatusOK (Some user))
  = (Go.Sprintf_s_s (FirstName user) (LastName user), None).
Proof.
  unfold FetchUserName. simpl. rewrite stringTrim_id.
  destruct (String.eqb_spec (Go.Sprintf_s_s (FirstName user) (LastName user)) "")
    as [Heq|Hne]; [|done].
  by destruct (fullName_nonempty _ _ Heq).
Qed.

(** C1, at a failing input: status 200, empty first and last name, one
    email address and a handle.  [FetchUserName] returns the joining space,
    not the email address. *)
Example FetchUserName_empty_name_returns_space :
  FetchUserName "user_1"
    (Response 200 (Some {| FirstName := ""; LastName := ""; Username := "handle";
                           EmailAddresses := [ {| EmailAddress := "a@b.c" |} ] |}))
  = (" ", None).
Proof. reflexivity. Qed.

(** C2, at a failing input: status 200, first name [Ann], no last name.
    [FetchUserName] returns the name with its trailing space. *)
Example FetchUserName_keeps_trailing_space :
  FetchUserName "user_1"
    (Response 200 (Some {| FirstName := "Ann"; LastName := ""; Username := "";
                           EmailAddresses := [] |}))
  = ("Ann ", None).
Proof. reflexivity. Qed.

(** C3. [stringTrim] is the identity on every string; hence the joined
    name, which holds the joining space, is never empty after it, and a row
    whose identifier cell is any non-empty string, blanks only included,
    contributes an entry with that cell as its identifier. *)
Theorem stringTrim_is_identity (s : string) :
  stringTrim s = s
  ∧ (∀ first last, stringTrim (Go.Sprintf_s_s first last) ≠ "")
  ∧ (∀ r pre post, length pre = 4%nat → s ≠ "" →
       rowEntry r (pre ++ s :: post) = Some {| Row := Z.of_nat r + 1; UserID := s |})
  ∧ rowEntry 1 [""; ""; ""; ""; "   "] = Some {| Row := 2; UserID := "   " |}.
Proof.
  split; [apply stringTrim_id|]. split; [|split; [|reflexivity]].
  - intros first last. rewrite stringTrim_id. apply fullName_nonempty.
  - intros r pre post Hpre Hs. unfold rowEntry, USERIDs_COLOUMN.
    rewrite decide_True by (rewrite length_app; simpl; lia).
    rewrite lookup_app_r by lia. rewrite Hpre. simpl. rewrite stringTrim_id.
    by destruct (String.eqb_spec s "").
Qed.

End ResolverFacts.

(** ** The spreadsheet run *)

Section ExcelFacts.
Import Clerk Excel ExcelProofs.
Context (w : World) (N : nat).

Lemma exec_reachable sched s : reachable w N s → reachable w N (exec w N sched s).
Proof.
  revert s. induction sched as [|a sched IH]; intros s Hs; simpl; [done|].
  apply IH. destruct (fire w N a s) as [s'|] eqn:Hfire; simpl; [|done].
  eapply rtc_r; [exact Hs|]. by exists a.
Qed.

(** Every schedule ends, and it ends in a return of [ProcessExcel], or in
    the panic of [rows[0]] on a sheet without rows. *)
Lemma excel_total s :
  (0 < N)%nat → reachable w N s →
  sn (step w N) s
  ∧ (red (step w N) s ∨ (∃ ret, pc s = MReturn ret)
     ∨ (pc s = MPanic ∧ file w = Sheet [])).
Proof.
  intros HN Hs. split; [apply step_sn|].
  pose proof (reachable_inv w N s Hs) as HI.
  destruct (progress w N s HN HI) as [Hfin|Hred]; [|by left]. right.
  unfold finished, halted in Hfin. unfold Inv in HI.
  destruct (pc s); try done; [left; eauto|right]. by destruct HI.
Qed.

(** At the return every enqueued entry has its cell, set to its own result. *)
Lemma cells_at_return s ret e :
  reachable w N s → pc s = MReturn ret → e ∈ enqueued w →
  writable (column w) (Row e) →
  sheet s !! (column w, Row e) = Some (stored w (UserName (outcome w e))).
Proof.
  intros Hs Hpc He Hw. pose proof (reachable_inv w N s Hs) as HI.
  destruct (returned_applied w N s ret HI Hpc) as [_ Hperm].
  unfold Inv in HI. rewrite Hpc in HI.
  rewrite <- (outcome_row w e) in *. apply (inv_sheet _ _ _ HI); [|done].
  rewrite Hperm. apply list_elem_of_fmap. eauto.
Qed.




End ExcelFacts.


(** C8. Under every schedule, with a positive [BATCH_SIZE], the run ends
    (no schedule is infinite, [sn]; short of the return, or of the panic of
    [rows[0]] on a sheet without rows, some thread can take a step, [red]),
    and when [ProcessExcel] returns the results the range loop has applied
    are, up to order, exactly one result per enqueued entry: as many as
    there are entries, no row twice. *)
Theorem one_result_per_entry (w : Excel.World) (N : nat) (s : Excel.State) :
  (0 < N)%nat →
  Excel.reachable w N s →
  sn (Excel.step w N) s
  ∧ (red (Excel.step w N) s ∨ (∃ ret, Excel.pc s = Excel.MReturn ret)
     ∨ (Excel.pc s = Excel.MPanic ∧ Excel.file w = Excel.Sheet []))
  ∧ ∀ ret, Excel.pc s = Excel.MReturn ret →
      Excel.applied s ≡ₚ Excel.outcome w <$> Excel.enqueued w
      ∧ length (Excel.applied s) = length (Excel.enqueued w)
      ∧ NoDup (Clerk.ResRow <$> Excel.applied s).
Proof.
  intros HN Hs. destruct (excel_total w N s HN Hs) as [Hsn Hend].
  split; [done|]. split; [done|]. intros ret Hpc.
  pose proof (ExcelProofs.reachable_inv w N s Hs) as HI.
  destruct (ExcelProofs.returned_applied w N s ret HI Hpc) as [_ Hperm].
  split; [done|]. split.
  - by rewrite Hperm, length_fmap.
  - rewrite Hperm, ExcelProofs.rows_outcome. apply ExcelProofs.enqueued_rows_nodup.
Qed.



Lemma one_result_per_entry_witness :
  length (Excel.applied ExcelDemo.final) = 3%nat
  ∧ NoDup (Clerk.ResRow <$> Excel.applied ExcelDemo.final).
Proof.
  destruct (one_result_per_entry ExcelDemo.world Clerk.BATCH_SIZE ExcelDemo.final)
    as (_ & _ & Hret).
  - unfold Clerk.BATCH_SIZE. lia.
  - apply exec_reachable. apply rtc_refl.
  - destruct (Hret None) as (_ & Hlen & Hnd); [vm_compute; reflexivity|].
    split; [exact Hlen|exact Hnd].
Defined.

(** ** The listing filter *)

Section FilterFacts.
Import Migrate MigrateProofs.
Context (ToLower : string → string) (config : Config).

Lemma classify_v1_queued attrs job :
  classify_v1 ToLower config attrs = Queued job →
  GCSPath job = Name attrs
  ∧ ∃ d, extractDateFromPath_v1 (Name attrs) = Some d
         ∧ Go.Before d (CutoffDate config) = false.
Proof.
  unfold classify_v1. intros H. repeat case_match; simplify_eq/=. eauto.
Qed.

Lemma classify_v2_queued attrs job :
  classify_v2 ToLower config attrs = Queued job →
  GCSPath job = Name attrs
  ∧ match extractDateFromPath_v2 (Name attrs) with
    | Some d => Go.Before d (CutoffDate config) = false
    | None => Go.Before (Created attrs) (CutoffDate config) = false
    end.
Proof.
  unfold classify_v2. intros H. repeat case_match; simplify_eq/=; eauto.
Qed.

Lemma sent_scan0 classify listing :
  sent (scan classify listing scan0) = eligible classify listing.
Proof. by rewrite scan_sent. Qed.

Lemma queued_is_sent classify listing attrs job :
  attrs ∈ listing → classify attrs = Queued job →
  job ∈ sent (scan classify listing scan0).
Proof.
  intros Hin Hq. rewrite sent_scan0. apply elem_of_eligible. eauto.
Qed.

End FilterFacts.

(** C4, as the code has it.  A video object whose date folder cannot be
    read is never a fatal error: the loop body gives a verdict for every
    object, and the one panic of either program is that of [make], before
    the listing.  In the first variant the object is excluded and counted in
    [skippedByDate]: no job with its path is sent.  In the second variant
    its creation time decides: created before the cutoff it is excluded,
    otherwise it is queued. *)
Theorem unreadable_date_policy
    (ToLower : string → string) (config : Migrate.Config)
    (listing : list Migrate.ObjectAttrs) (attrs : Migrate.ObjectAttrs) :
  attrs ∈ listing →
  Go.HasSuffix (Migrate.Name attrs) "/" = false →
  Migrate.isVideoFile ToLower (Migrate.Name attrs) (Migrate.VideoExtensions config) = true →
  (Migrate.extractDateFromPath_v1 (Migrate.Name attrs) = None →
     Migrate.classify_v1 ToLower config attrs = Migrate.SkippedByDate
     ∧ ∀ job, job ∈ Migrate.sent
                      (Migrate.scan (Migrate.classify_v1 ToLower config) listing Migrate.scan0) →
         Migrate.GCSPath job ≠ Migrate.Name attrs)
  ∧ (Migrate.extractDateFromPath_v2 (Migrate.Name attrs) = None →
     if Go.Before (Migrate.Created attrs) (Migrate.CutoffDate config)
     then Migrate.classify_v2 ToLower config attrs = Migrate.SkippedByDate
     else {| Migrate.GCSPath := Migrate.Name attrs;
             Migrate.RelativePath := Migrate.Name attrs;
             Migrate.CreatedTime := Migrate.Created attrs |}
          ∈ Migrate.sent
              (Migrate.scan (Migrate.classify_v2 ToLower config) listing Migrate.scan0))
  ∧ (∀ w s,
       Migrate.reachable config (Migrate.classify_v1 ToLower config) w s
       ∨ Migrate.reachable config (Migrate.classify_v2 ToLower config) w s →
       Migrate.pc s = Migrate.PPanic →
       Migrate.chanSize config < 0 ∧ Migrate.local s = Migrate.scan0).
Proof.
  intros Hin Hdir Hvideo. split; [|split]; cycle 2.
  { intros w s [Hs|Hs] Hpc; by eapply MigrateProofs.pool_panic. }
  - intros Hdate. split.
    + unfold Migrate.classify_v1. by rewrite Hdir, Hvideo, Hdate.
    + intros job Hjob Hpath. rewrite sent_scan0 in Hjob.
      apply MigrateProofs.elem_of_eligible in Hjob as (a & _ & Hq).
      apply classify_v1_queued in Hq as (Hname & d & Hd & _). congruence.
  - intros Hdate.
    destruct (Go.Before (Migrate.Created attrs) (Migrate.CutoffDate config)) eqn:Hb.
    + unfold Migrate.classify_v2. by rewrite Hdir, Hvideo, Hdate, Hb.
    + apply (queued_is_sent _ _ attrs); [done|].
      unfold Migrate.classify_v2. by rewrite Hdir, Hvideo, Hdate, Hb.
Qed.

(** C4 fails in the second variant: [clips/intro.mp4] has no date folder,
    was created after the cutoff, and is queued. *)
Lemma unreadable_date_is_queued_by_creation_time :
  Migrate.extractDateFromPath_v2 "clips/intro.mp4" = None
  ∧ Migrate.sent
      (Migrate.scan (Migrate.classify_v2 Go.asciiLower ScanDemo.config)
         [ScanDemo.object "clips/intro.mp4" (Go.Date 2025 10 1)] Migrate.scan0)
    = [ {| Migrate.GCSPath := "clips/intro.mp4";
           Migrate.RelativePath := "clips/intro.mp4";
           Migrate.CreatedTime := Go.Date 2025 10 1 |} ].
Proof. split; reflexivity. Qed.

Lemma unreadable_date_policy_witness :
  (∀ job, job ∈ Migrate.sent
                  (Migrate.scan (Migrate.classify_v1 Go.asciiLower ScanDemo.config)
                     ScanDemo.listing_v1 Migrate.scan0) →
     Migrate.GCSPath job ≠ "port1/notes/c.mp4")
  ∧ {| Migrate.GCSPath := "clips/intro.mp4"; Migrate.RelativePath := "clips/intro.mp4";
       Migrate.CreatedTime := Go.Date 2025 10 1 |}
    ∈ Migrate.sent
        (Migrate.scan (Migrate.classify_v2 Go.asciiLower ScanDemo.config)
           ScanDemo.listing_v2 Migrate.scan0).
Proof.
  split.
  - destruct (unreadable_date_policy Go.asciiLower ScanDemo.config ScanDemo.listing_v1
                (ScanDemo.object "port1/notes/c.mp4" (Go.Date 2025 9 20)))
      as (Hv1 & _ & _).
    + apply (list_elem_of_lookup_2 _ 3%nat). reflexivity.
    + reflexivity.
    + reflexivity.
    + destruct Hv1 as [_ Hv1]; [reflexivity|]. exact Hv1.
  - destruct (unreadable_date_policy Go.asciiLower ScanDemo.config ScanDemo.listing_v2
                (ScanDemo.object "clips/intro.mp4" (Go.Date 2025 10 1)))
      as (_ & Hv2 & _).
    + apply (list_elem_of_lookup_2 _ 2%nat). reflexivity.
    + reflexivity.
    + reflexivity.
    + exact (Hv2 eq_refl).
Defined.

(** C5. For an object that passes the directory and extension tests and
    whose date folder reads as [d], in either variant: when [d] is the cutoff
    date or later its job is sent to the workers, and when [d] is before the
    cutoff no job with its path is sent. *)
Theorem cutoff_is_inclusive
    (ToLower : string → string) (config : Migrate.Config)
    (listing : list Migrate.ObjectAttrs) (attrs : Migrate.ObjectAttrs) (d : Go.Time) :
  attrs ∈ listing →
  Go.HasSuffix (Migrate.Name attrs) "/" = false →
  Migrate.isVideoFile ToLower (Migrate.Name attrs) (Migrate.VideoExtensions config) = true →
  (Migrate.extractDateFromPath_v1 (Migrate.Name attrs) = Some d →
     (Migrate.CutoffDate config ≤ d →
        {| Migrate.GCSPath := Migrate.Name attrs;
           Migrate.RelativePath := Migrate.Name attrs; Migrate.CreatedTime := d |}
        ∈ Migrate.sent
            (Migrate.scan (Migrate.classify_v1 ToLower config) listing Migrate.scan0))
     ∧ (d < Migrate.CutoffDate config →
        Migrate.classify_v1 ToLower config attrs = Migrate.SkippedByDate
        ∧ ∀ job, job ∈ Migrate.sent
                         (Migrate.scan (Migrate.classify_v1 ToLower config) listing
                            Migrate.scan0) →
            Migrate.GCSPath job ≠ Migrate.Name attrs))
  ∧ (Migrate.extractDateFromPath_v2 (Migrate.Name attrs) = Some d →
     (Migrate.CutoffDate config ≤ d →
        {| Migrate.GCSPath := Migrate.Name attrs;
           Migrate.RelativePath := Migrate.Name attrs;
           Migrate.CreatedTime := Migrate.Created attrs |}
        ∈ Migrate.sent
            (Migrate.scan (Migrate.classify_v2 ToLower config) listing Migrate.scan0))
     ∧ (d < Migrate.CutoffDate config →
        Migrate.classify_v2 ToLower config attrs = Migrate.SkippedByDate
        ∧ ∀ job, job ∈ Migrate.sent
                         (Migrate.scan (Migrate.classify_v2 ToLower config) listing
                            Migrate.scan0) →
            Migrate.GCSPath job ≠ Migrate.Name attrs)).
Proof.
  intros Hin Hdir Hvideo. split; intros Hdate; split.
  - intros Hd. apply (queued_is_sent _ _ attrs); [done|].
    unfold Migrate.classify_v1, Go.Before. rewrite Hdir, Hvideo, Hdate.
    by rewrite (proj2 (Z.ltb_ge _ _) Hd).
  - intros Hd. split.
    + unfold Migrate.classify_v1, Go.Before. rewrite Hdir, Hvideo, Hdate.
      by rewrite (proj2 (Z.ltb_lt _ _) Hd).
    + intros job Hjob Hpath. rewrite sent_scan0 in Hjob.
      apply MigrateProofs.elem_of_eligible in Hjob as (a & _ & Hq).
      apply classify_v1_queued in Hq as (Hname & d' & Hd' & Hb).
      rewrite <- Hname, Hpath, Hdate in Hd'. simplify_eq.
      unfold Go.Before in Hb. apply Z.ltb_ge in Hb. lia.
  - intros Hd. apply (queued_is_sent _ _ attrs); [done|].
    unfold Migrate.classify_v2, Go.Before. rewrite Hdir, Hvideo, Hdate.
    by rewrite (proj2 (Z.ltb_ge _ _) Hd).
  - intros Hd. split.
    + unfold Migrate.classify_v2, Go.Before. rewrite Hdir, Hvideo, Hdate.
      by rewrite (proj2 (Z.ltb_lt _ _) Hd).
    + intros job Hjob Hpath. rewrite sent_scan0 in Hjob.
      apply MigrateProofs.elem_of_eligible in Hjob as (a & _ & Hq).
      apply classify_v2_queued in Hq as (Hname & Hb).
      rewrite <- Hname, Hpath, Hdate in Hb.
      unfold Go.Before in Hb. apply Z.ltb_ge in Hb. lia.
Qed.

Lemma cutoff_is_inclusive_witness :
  {| Migrate.GCSPath := "port1/2025-09-07/b.MP4";
     Migrate.RelativePath := "port1/2025-09-07/b.MP4";
     Migrate.CreatedTime := Go.Date 2025 9 7 |}
  ∈ Migrate.sent
      (Migrate.scan (Migrate.classify_v1 Go.asciiLower ScanDemo.config)
         ScanDemo.listing_v1 Migrate.scan0)
  ∧ (∀ job, job ∈ Migrate.sent
                    (Migrate.scan (Migrate.classify_v2 Go.asciiLower ScanDemo.config)
                       ScanDemo.listing_v2 Migrate.scan0) →
       Migrate.GCSPath job ≠ "2025-09-06/a.mp4").
Proof.
  split.
  - destruct (cutoff_is_inclusive Go.asciiLower ScanDemo.config ScanDemo.listing_v1
                (ScanDemo.object "port1/2025-09-07/b.MP4" (Go.Date 2025 9 20))
                (Go.Date 2025 9 7)) as [Hv1 _].
    + apply (list_elem_of_lookup_2 _ 2%nat). reflexivity.
    + reflexivity.
    + reflexivity.
    + destruct Hv1 as [Hv1 _]; [reflexivity|]. apply Hv1. reflexivity.
  - destruct (cutoff_is_inclusive Go.asciiLower ScanDemo.config ScanDemo.listing_v2
                (ScanDemo.object "2025-09-06/a.mp4" (Go.Date 2025 9 20))
                (Go.Date 2025 9 6)) as [_ Hv2].
    + apply (list_elem_of_lookup_2 _ 0%nat). reflexivity.
    + reflexivity.
    + reflexivity.
    + destruct Hv2 as [_ Hv2]; [reflexivity|]. apply Hv2. reflexivity.
Defined.

(** ** The worker pool of the migration *)

Section PoolFacts.
Import Migrate MigrateProofs.
Context (config : Config) (classify : ObjectAttrs → Verdict) (w : World).

Lemma pool_exec_reachable sched s :
  reachable config classify w s →
  reachable config classify w (exec config classify w sched s).
Proof.
  revert s. induction sched as [|a sched IH]; intros s Hs; simpl; [done|].
  apply IH. destruct (fire config classify w a s) as [s'|] eqn:Hfire; simpl; [|done].
  eapply rtc_r; [exact Hs|]. by exists a.
Qed.

(** With a positive [MaxWorkers] every schedule ends, and it ends with the
    summary printed. *)
Lemma pool_total s :
  0 < MaxWorkers config < 2 ^ 62 → reachable config classify w s →
  sn (step config classify w) s
  ∧ (red (step config classify w) s ∨ pc s = PDone).
Proof.
  intros HN Hs. split; [apply pool_step_sn|].
  pose proof (pool_reachable_inv config classify w s Hs) as HI.
  destruct (pool_progress config classify w s HN HI) as [Hfin|Hred]; [|by left].
  right. unfold finished, halted in Hfin. unfold Inv in HI.
  destruct (pc s); try done. destruct HI as [Hneg _].
  rewrite chanSize_small in Hneg by done. lia.
Qed.

Lemma live_zero_idle l :
  tally live l = 0%nat → tally busy l = 0%nat ∧ tally uncounted l = 0%nat.
Proof.
  unfold tally. induction l as [|g l IH]; csimpl; [done|]. intros Hz.
  destruct g; simpl in *; try lia; apply IH; lia.
Qed.

(** When the summary is printed the local counters are those of the whole
    listing. *)
Lemma pool_done_local s :
  reachable config classify w s → pc s = PDone →
  local s = scan classify (listing w) scan0.
Proof.
  intros Hs Hpc. pose proof (pool_reachable_inv config classify w s Hs) as HI.
  unfold Inv in HI. rewrite Hpc in HI.
  pose proof (inv_scan _ _ _ _ HI) as Hscan. unfold scan_ahead in Hscan.
  by rewrite Hpc in Hscan.
Qed.

(** With workers, the channel is then empty and the workers are gone. *)
Lemma pool_done s :
  0 < MaxWorkers config → reachable config classify w s → pc s = PDone →
  local s = scan classify (listing w) scan0
  ∧ jobs s = [] ∧ tally busy (workers s) = 0%nat
  ∧ totalFiles (stats (shared s))
    = Go.wrap64 (Z.of_nat (length (eligible classify (listing w)))).
Proof.
  intros HN Hs Hpc. pose proof (pool_reachable_inv config classify w s Hs) as HI.
  unfold Inv in HI. rewrite Hpc in HI.
  destruct (inv_done _ _ _ _ HI Hpc) as [Hlive Hjobs].
  pose proof (inv_workers _ _ _ _ HI) as Hws. rewrite Hpc in Hws. simpl in Hws.
  specialize (Hjobs ltac:(lia)).
  destruct (live_zero_idle _ Hlive) as [Hbusy Hunc].
  pose proof (pool_done_local s Hs Hpc) as Hscan.
  split; [done|]. split; [done|]. split; [done|].
  rewrite (inv_total _ _ _ _ HI), Hjobs, Hunc, Hscan, scan_sent. simpl.
  f_equal. lia.
Qed.

End PoolFacts.

(** C6, as the code has it.  For a job whose key exists at the
    destination (the object its [HeadObject] request addresses is there) the
    loop body counts the job in [totalFiles], makes the one
    [HeadObject] call, counts it in [skippedExisting] and goes back to the
    receive: no other counter moves, no reader is opened, nothing is
    uploaded, the destination is unchanged.  Hence a run over a destination
    that holds every eligible key ends (under every schedule, with a
    [MaxWorkers] that is positive and whose double is an [int]) having made
    [HeadObject] calls only, with [copiedFiles = 0] and [skippedExisting] and
    [totalFiles] both equal to the number of eligible objects (as 64-bit
    counters). *)
Theorem existing_keys_are_skipped
    (config : Migrate.Config) (classify : Migrate.ObjectAttrs → Migrate.Verdict)
    (w : Migrate.World) :
  0 < Migrate.MaxWorkers config < 2 ^ 62 →
  (∀ job, job ∈ Migrate.eligible classify (Migrate.listing w) →
     Migrate.objectOf w (Migrate.RelativePath job) ∈ Migrate.present w) →
  (∀ job sh, Migrate.objectOf w (Migrate.RelativePath job) ∈ Migrate.s3 sh →
     Migrate.head_step w job sh
       = ({| Migrate.stats := Migrate.add_skippedExisting (Migrate.stats sh);
             Migrate.s3 := Migrate.s3 sh;
             Migrate.calls := Migrate.calls sh
                              ++ [Migrate.HeadObject (Migrate.RelativePath job)] |},
          Migrate.WRecv)
     ∧ Migrate.iteration w job sh
       = {| Migrate.stats :=
              Migrate.add_skippedExisting (Migrate.add_total (Migrate.stats sh));
            Migrate.s3 := Migrate.s3 sh;
            Migrate.calls := Migrate.calls sh
                             ++ [Migrate.HeadObject (Migrate.RelativePath job)] |})
  ∧ ∀ s, Migrate.reachable config classify w s →
      (sn (Migrate.step config classify w) s
       ∧ (red (Migrate.step config classify w) s ∨ Migrate.pc s = Migrate.PDone))
      ∧ Migrate.copiedFiles (Migrate.stats (Migrate.shared s)) = 0
      ∧ Migrate.errorFiles (Migrate.stats (Migrate.shared s)) = 0
      ∧ Migrate.s3 (Migrate.shared s) = Migrate.present w
      ∧ Forall MigrateProofs.is_head (Migrate.calls (Migrate.shared s))
      ∧ (Migrate.pc s = Migrate.PDone →
           let n := Z.of_nat (length (Migrate.eligible classify (Migrate.listing w))) in
           Migrate.skippedExisting (Migrate.stats (Migrate.shared s)) = Go.wrap64 n
           ∧ Migrate.totalFiles (Migrate.stats (Migrate.shared s)) = Go.wrap64 n
           ∧ (n < 2 ^ 63 →
                Migrate.skippedExisting (Migrate.stats (Migrate.shared s)) = n)).
Proof.
  intros HN Hpresent. split.
  - intros job sh Hkey.
    assert (Migrate.head_step w job sh
            = ({| Migrate.stats := Migrate.add_skippedExisting (Migrate.stats sh);
                  Migrate.s3 := Migrate.s3 sh;
                  Migrate.calls := Migrate.calls sh
                     ++ [Migrate.HeadObject (Migrate.RelativePath job)] |},
               Migrate.WRecv)) as Hhead.
    { unfold Migrate.head_step, Migrate.fileExistsInS3.
      by rewrite bool_decide_eq_true_2. }
    split; [exact Hhead|].
    unfold Migrate.iteration.
    change (Migrate.s3 sh) with (Migrate.s3 (Migrate.count_step sh)) in Hkey.
    unfold Migrate.head_step, Migrate.fileExistsInS3.
    by rewrite bool_decide_eq_true_2.
  - intros s Hs. split; [by apply pool_total|].
    pose proof (MigrateProofs.rerun_reachable config classify w Hpresent s Hs) as HI.
    destruct HI as [Hs3 Hcalls Hcop Herr Hsk _ _ _ _].
    do 4 (split; [done|]). intros Hpc n.
    destruct (pool_done config classify w s (proj1 HN) Hs Hpc)
      as (Hloc & Hjobs & Hbusy & Htot).
    assert (Migrate.skippedExisting (Migrate.stats (Migrate.shared s)) = Go.wrap64 n)
      as Hskip.
    { rewrite Hsk, Hjobs, Hbusy, Hloc, MigrateProofs.scan_sent. simpl.
      unfold n. f_equal. lia. }
    split; [done|]. split; [done|]. intros Hn. rewrite Hskip.
    apply wrap64_small. lia.
Qed.

(** C6 as stated fails: the loop body also counts the skipped job in
    [totalFiles]. *)
Lemma skipped_job_counts_in_totalFiles :
  Migrate.stats (Migrate.shared (Migrate.init PoolDemo.world))
  = {| Migrate.totalFiles := 0; Migrate.copiedFiles := 0; Migrate.skippedExisting := 0;
       Migrate.skippedDate := 0; Migrate.errorFiles := 0 |}
  ∧ Migrate.objectOf PoolDemo.world (Migrate.RelativePath PoolDemo.job)
    ∈ Migrate.present PoolDemo.world
  ∧ Migrate.stats
      (Migrate.iteration PoolDemo.world PoolDemo.job
         (Migrate.shared (Migrate.init PoolDemo.world)))
    = {| Migrate.totalFiles := 1; Migrate.copiedFiles := 0; Migrate.skippedExisting := 1;
         Migrate.skippedDate := 0; Migrate.errorFiles := 0 |}.
Proof.
  split; [reflexivity|]. split; [|vm_compute; reflexivity].
  apply (bool_decide_unpack _). vm_compute. exact I.
Qed.

Lemma existing_keys_are_skipped_witness :
  Migrate.stats (Migrate.shared PoolDemo.final)
  = {| Migrate.totalFiles := 2; Migrate.copiedFiles := 0; Migrate.skippedExisting := 2;
       Migrate.skippedDate := 0; Migrate.errorFiles := 0 |}
  ∧ Migrate.skippedExisting (Migrate.stats (Migrate.shared PoolDemo.final))
    = Z.of_nat (length (Migrate.eligible PoolDemo.classify ScanDemo.listing_v2))
  ∧ Forall MigrateProofs.is_head (Migrate.calls (Migrate.shared PoolDemo.final)).
Proof.
  split; [vm_compute; reflexivity|].
  destruct (existing_keys_are_skipped ScanDemo.config PoolDemo.classify PoolDemo.world)
    as [_ Hrun].
  - simpl. lia.
  - intros job Hjob. vm_compute in Hjob.
    apply elem_of_cons in Hjob as [->|Hjob];
      [apply (bool_decide_unpack _); vm_compute; exact I|].
    apply elem_of_cons in Hjob as [->|Hjob];
      [apply (bool_decide_unpack _); vm_compute; exact I|].
    by apply elem_of_nil in Hjob.
  - destruct (Hrun PoolDemo.final) as (_ & _ & _ & _ & Hcalls & Hdone).
    + apply pool_exec_reachable. apply rtc_refl.
    + destruct Hdone as (_ & _ & Hskip); [vm_compute; reflexivity|].
      split; [|exact Hcalls]. apply Hskip. reflexivity.
Defined.

(** C9. In the variant whose [Stats] has the [skippedDate] field, no step
    of any thread changes that counter: it is 0 in every state of every run,
    so the summary line of the objects skipped before the cutoff date prints
    0, while the objects the date filter excluded are counted in the local
    [skippedByDate] alone (a 64-bit count of the [SkippedByDate] verdicts of
    the listing).  With a [MaxWorkers] that is positive and whose double is
    an [int], every schedule reaches the summary: no schedule is infinite
    ([sn]) and, short of the summary, some thread can take a step ([red]). *)
Theorem skippedDate_is_never_incremented
    (ToLower : string → string) (config : Migrate.Config) (w : Migrate.World)
    (s : Migrate.State) :
  Migrate.reachable config (Migrate.classify_v2 ToLower config) w s →
  Migrate.skippedDate (Migrate.stats (Migrate.shared s)) = 0
  ∧ (∃ total copied existing errors,
       Migrate.summary s = (total, copied, existing, 0, errors))
  ∧ (Migrate.pc s = Migrate.PDone →
       Migrate.skippedByDate (Migrate.local s)
       = Go.wrap64
           (Z.of_nat (tally (MigrateProofs.skipped (Migrate.classify_v2 ToLower config))
                            (Migrate.listing w))))
  ∧ (0 < Migrate.MaxWorkers config < 2 ^ 62 →
       sn (Migrate.step config (Migrate.classify_v2 ToLower config) w) s
       ∧ (red (Migrate.step config (Migrate.classify_v2 ToLower config) w) s
          ∨ Migrate.pc s = Migrate.PDone)).
Proof.
  intros Hs.
  assert (Migrate.skippedDate (Migrate.stats (Migrate.shared s)) = 0) as Hskd.
  { pose proof (MigrateProofs.pool_reachable_inv _ _ _ s Hs) as HI.
    unfold MigrateProofs.Inv in HI.
    destruct (Migrate.pc s) eqn:Hpc;
      try (exact (MigrateProofs.inv_skd _ _ _ _ HI)).
    destruct HI as [_ ->]. done. }
  split; [done|]. split; [|split].
  - unfold Migrate.summary. rewrite Hskd. eauto.
  - intros Hpc. rewrite (pool_done_local _ _ _ s Hs Hpc).
    rewrite (MigrateProofs.scan_skippedByDate _ _ _ 0); [f_equal; lia|done].
  - intros HN. by apply pool_total.
Qed.

Lemma skippedDate_is_never_incremented_witness :
  Migrate.pc PoolDemo.final = Migrate.PDone
  ∧ Migrate.skippedByDate (Migrate.local PoolDemo.final) = 2
  ∧ Migrate.summary PoolDemo.final = (2, 0, 2, 0, 0).
Proof.
  assert (Migrate.pc PoolDemo.final = Migrate.PDone) as Hpc
    by (vm_compute; reflexivity).
  split; [exact Hpc|].
  destruct (skippedDate_is_never_incremented Go.asciiLower ScanDemo.config
              PoolDemo.world PoolDemo.final) as (_ & _ & Hlocal & _).
  - apply pool_exec_reachable. apply rtc_refl.
  - split; [|vm_compute; reflexivity]. rewrite (Hlocal Hpc). reflexivity.
Defined.

(** C10. In every state of every run, the identity fetches in flight are
    at most [BATCH_SIZE] (the capacity of [sem]), and the object copies in
    flight are at most [MaxWorkers]. *)
Theorem in_flight_is_bounded
    (xw : Excel.World) (N : nat) (xs : Excel.State)
    (config : Migrate.Config) (classify : Migrate.ObjectAttrs → Migrate.Verdict)
    (mw : Migrate.World) (ms : Migrate.State) :
  (0 < N)%nat →
  0 < Migrate.MaxWorkers config →
  Excel.reachable xw N xs →
  Migrate.reachable config classify mw ms →
  (Excel.inflight xs ≤ N)%nat
  ∧ Z.of_nat (Migrate.inflight ms) ≤ Migrate.MaxWorkers config.
Proof.
  intros _ HM Hxs Hms. split.
  - apply (ExcelProofs.inflight_bound xw). by apply ExcelProofs.reachable_inv.
  - pose proof (MigrateProofs.pool_inflight_bound config classify mw ms
                  (MigrateProofs.pool_reachable_inv _ _ _ ms Hms)). lia.
Qed.

Lemma in_flight_is_bounded_witness :
  (Excel.inflight ExcelDemo.midway = 2 ∧ Excel.inflight ExcelDemo.midway ≤ 2)%nat
  ∧ Migrate.inflight PoolDemo.midway = 2%nat
  ∧ Z.of_nat (Migrate.inflight PoolDemo.midway) ≤ 2.
Proof.
  destruct (in_flight_is_bounded ExcelDemo.world 2 ExcelDemo.midway
              ScanDemo.config PoolDemo.classify PoolDemo.world PoolDemo.midway)
    as [Hx Hm].
  - lia.
  - reflexivity.
  - apply exec_reachable. apply rtc_refl.
  - apply pool_exec_reachable. apply rtc_refl.
  - split; [split; [vm_compute; reflexivity|exact Hx]|].
    split; [vm_compute; reflexivity|exact Hm].
Defined.

(** * Further properties of the code *)

(** ** Strings as lists of bytes *)

Section StringFacts.

Local Abbreviation bytes := list_ascii_of_string.

Lemma bytes_length s : String.length s = length (bytes s).
Proof. induction s as [|c s IH]; simpl; [done|by rewrite IH]. Qed.

Lemma bytes_app a b : bytes (a +:+ b) = bytes a ++ bytes b.
Proof. induction a as [|c a IH]; simpl; [done|by rewrite IH]. Qed.

Lemma bytes_inj a b : bytes a = bytes b → a = b.
Proof.
  intros H. rewrite <- (string_of_list_ascii_of_string a), H.
  apply string_of_list_ascii_of_string.
Qed.

Lemma bytes_get s i : String.get i s = bytes s !! i.
Proof.
  revert i. induction s as [|c s IH]; intros [|i]; simpl; first [done|apply IH].
Qed.

Lemma bytes_substring s i n : bytes (substring i n s) = take n (drop i (bytes s)).
Proof.
  revert i n. induction s as [|c s IH]; intros [|i] [|n]; simpl; try done.
  by rewrite (IH 0%nat n), drop_0.
Qed.

(** [Go.HasSuffix] is the suffix relation. *)
Lemma HasSuffix_spec s suf :
  Go.HasSuffix s suf = true ↔ ∃ pre, s = pre +:+ suf.
Proof.
  unfold Go.HasSuffix. rewrite andb_true_iff, Nat.leb_le. split.
  - intros [Hle Heq]. apply String.eqb_eq in Heq.
    exists (substring 0 (String.length s - String.length suf) s).
    apply bytes_inj. rewrite bytes_app, bytes_substring, drop_0.
    rewrite <- Heq at 2. rewrite bytes_substring, !bytes_length in *.
    rewrite (take_ge (drop _ _)) by (rewrite length_drop; lia).
    by rewrite take_drop.
  - intros [pre ->]. rewrite String.eqb_eq. split.
    + rewrite !bytes_length, bytes_app, length_app. lia.
    + apply bytes_inj. rewrite bytes_substring, !bytes_length, bytes_app, length_app.
      replace (length (bytes pre) + length (bytes suf) - length (bytes suf))%nat
        with (length (bytes pre)) by lia.
      rewrite drop_app_length. apply take_ge. lia.
Qed.

(** The loop of [filepath.Ext], read from the last byte backwards: [r] is
    what is still to be read, reversed, and [acc] what has been passed. *)
Fixpoint ext_scan (r acc : list ascii) : list ascii :=
  match r with
  | [] => []
  | c :: r' =>
    if Ascii.eqb c "/" then []
    else if Ascii.eqb c "." then c :: acc
    else ext_scan r' (c :: acc)
  end.

Lemma Ext_from_scan p i :
  (i < length (bytes p))%nat →
  bytes (Go.Ext_from p i)
  = ext_scan (rev (take (S i) (bytes p))) (drop (S i) (bytes p)).
Proof.
  induction i as [|i IH]; intros Hi.
  - simpl. rewrite bytes_get.
    destruct (bytes p) as [|c l] eqn:Hp; [simpl in Hi; lia|]. simpl.
    rewrite drop_0.
    destruct (Ascii.eqb c "/"); [done|]. destruct (Ascii.eqb c "."); [|done].
    rewrite bytes_substring, Hp, drop_0, bytes_length, Hp. simpl.
    by rewrite take_ge by lia.
  - simpl Go.Ext_from. rewrite bytes_get.
    destruct (lookup_lt_is_Some_2 (bytes p) (S i) Hi) as [c Hc]. rewrite Hc.
    rewrite (take_S_r _ _ c Hc), rev_app_distr. simpl.
    destruct (Ascii.eqb c "/"); [done|]. destruct (Ascii.eqb c ".").
    + rewrite bytes_substring, bytes_length.
      rewrite take_ge by (rewrite length_drop; lia).
      by rewrite (drop_S _ c (S i) Hc).
    + rewrite IH by lia. by rewrite (drop_S _ c (S i) Hc).
Qed.

Lemma Ext_scan p : bytes (Go.Ext p) = ext_scan (rev (bytes p)) [].
Proof.
  unfold Go.Ext. rewrite bytes_length.
  destruct (length (bytes p)) as [|i] eqn:Hlen.
  - by destruct (bytes p).
  - rewrite Ext_from_scan by lia. rewrite <- Hlen, firstn_all.
    by rewrite drop_all.
Qed.

Definition plain (c : ascii) : Prop := c ≠ "."%char ∧ c ≠ "/"%char.

Lemma ext_scan_plain t r acc :
  Forall plain t → ext_scan (rev t ++ r) acc = ext_scan r (t ++ acc).
Proof.
  revert acc. induction t as [|c t IH] using rev_ind; intros acc Ht; [done|].
  apply Forall_app in Ht as [Ht Hc]. apply Forall_singleton in Hc as [Hc1 Hc2].
  rewrite rev_app_distr. simpl.
  destruct (Ascii.eqb_spec c "/"); [done|]. destruct (Ascii.eqb_spec c "."); [done|].
  rewrite IH by done. by rewrite <- (assoc_L (++)).
Qed.

Lemma ext_scan_acc r acc :
  ext_scan r acc = match ext_scan r [] with [] => [] | e => e ++ acc end.
Proof.
  revert acc. induction r as [|c r IH]; intros acc; simpl; [done|].
  destruct (Ascii.eqb c "/"); [done|]. destruct (Ascii.eqb c "."); [done|].
  rewrite (IH (c :: acc)), (IH [c]).
  destruct (ext_scan r []); [done|]. simpl. by rewrite <- (assoc_L (++)).
Qed.

(** A non-empty extension is a dot followed by bytes other than dot and
    slash, and the path ends with it. *)
Lemma ext_scan_inv r acc e :
  ext_scan r acc = e → e ≠ [] →
  ∃ t r', r = rev t ++ "."%char :: r' ∧ Forall plain t ∧ e = "."%char :: t ++ acc.
Proof.
  revert acc. induction r as [|c r IH]; intros acc; simpl; [congruence|].
  destruct (Ascii.eqb_spec c "/") as [->|Hc1]; [congruence|].
  destruct (Ascii.eqb_spec c ".") as [->|Hc2].
  - intros <- _. by exists [], r.
  - intros He Hne. destruct (IH _ He Hne) as (t & r' & -> & Ht & ->).
    exists (t ++ [c]), r'. split; [by rewrite rev_app_distr|]. split.
    + apply Forall_app. split; [done|]. by apply Forall_singleton.
    + by rewrite <- (assoc_L (++)).
Qed.

Lemma Ext_inv p :
  Go.Ext p ≠ "" →
  ∃ stem t, p = stem +:+ Go.Ext p ∧ bytes (Go.Ext p) = "."%char :: t ∧ Forall plain t.
Proof.
  intros Hne.
  destruct (ext_scan_inv (rev (bytes p)) [] (bytes (Go.Ext p))) as (t & r' & Hr & Ht & He).
  - by rewrite Ext_scan.
  - intros Hnil. apply Hne. apply bytes_inj. by rewrite Hnil.
  - rewrite app_nil_r in He. exists (string_of_list_ascii (rev r')), t.
    split; [|done]. apply bytes_inj.
    rewrite bytes_app, list_ascii_of_string_of_list_ascii, He.
    rewrite <- (rev_involutive (bytes p)), Hr, rev_app_distr, rev_involutive.
    simpl. by rewrite <- (assoc_L (++)).
Qed.

Lemma Ext_app stem e t :
  bytes e = "."%char :: t → Forall plain t → Go.Ext (stem +:+ e) = e.
Proof.
  intros He Ht. apply bytes_inj.
  rewrite Ext_scan, bytes_app, He, rev_app_distr. simpl.
  rewrite <- (assoc_L (++)), ext_scan_plain by done. simpl.
  by rewrite app_nil_r.
Qed.

(** A path without extension stays so when bytes other than dot and slash
    are appended. *)
Lemma Ext_app_plain p t :
  Go.Ext p = "" → Forall plain (bytes t) → Go.Ext (p +:+ t) = "".
Proof.
  intros Hp Ht. apply bytes_inj.
  rewrite Ext_scan, bytes_app, rev_app_distr, ext_scan_plain by done.
  rewrite ext_scan_acc, <- Ext_scan, Hp. done.
Qed.

(** The path is its stem followed by its extension. *)
Lemma Ext_stem p :
  p = substring 0 (String.length p - String.length (Go.Ext p)) p +:+ Go.Ext p.
Proof.
  destruct (String.eqb_spec (Go.Ext p) "") as [He|He].
  - rewrite He. simpl. apply bytes_inj.
    rewrite bytes_app, bytes_substring, drop_0, bytes_length. simpl.
    rewrite Nat.sub_0_r, firstn_all. by rewrite app_nil_r.
  - destruct (Ext_inv p He) as (stem & t & Hp & _).
    assert (bytes p = bytes stem ++ bytes (Go.Ext p)) as Hb.
    { rewrite Hp at 1. apply bytes_app. }
    apply bytes_inj. rewrite bytes_app, bytes_substring, drop_0, !bytes_length.
    rewrite Hb, length_app.
    replace (length (bytes stem) + length (bytes (Go.Ext p)) - length (bytes (Go.Ext p)))%nat
      with (length (bytes stem)) by lia.
    by rewrite take_app_length.
Qed.

Lemma Ext_is_suffix p e t :
  bytes e = "."%char :: t → Forall plain t →
  Go.Ext p = e ↔ Go.HasSuffix p e = true.
Proof.
  intros He Ht. rewrite HasSuffix_spec. split.
  - intros Hp. assert (Go.Ext p ≠ "") as Hne.
    { rewrite Hp. intros ->. done. }
    destruct (Ext_inv p Hne) as (stem & _ & Hstem & _). exists stem. by rewrite <- Hp.
  - intros [pre ->]. by eapply Ext_app.
Qed.

End StringFacts.

(** ** The command line of the spreadsheet program *)

Section CliFacts.
Import Cli.

Lemma plain_xlsx : Forall plain (list_ascii_of_string "xlsx").
Proof. repeat constructor; discriminate. Qed.

Lemma plain_xls : Forall plain (list_ascii_of_string "xls").
Proof. repeat constructor; discriminate. Qed.

Lemma plain_updated : Forall plain (list_ascii_of_string "_updated").
Proof. repeat constructor; discriminate. Qed.

Lemma string_app_assoc (a b c : string) : (a +:+ b) +:+ c = a +:+ b +:+ c.
Proof. apply bytes_inj. by rewrite !bytes_app, (assoc_L (++)). Qed.

Lemma string_app_nil_r (a : string) : a +:+ "" = a.
Proof. apply bytes_inj. by rewrite bytes_app, app_nil_r. Qed.

Lemma string_app_length (a b : string) :
  String.length (a +:+ b) = (String.length a + String.length b)%nat.
Proof. by rewrite !bytes_length, bytes_app, length_app. Qed.

Lemma ValidateFile_nil stat path :
  ValidateFile stat path = Returns None ↔
  stat path = StatInfo false
  ∧ (Go.HasSuffix path ".xlsx" = true ∨ Go.HasSuffix path ".xls" = true).
Proof.
  unfold ValidateFile.
  rewrite <- (Ext_is_suffix path ".xlsx" _ eq_refl plain_xlsx).
  rewrite <- (Ext_is_suffix path ".xls" _ eq_refl plain_xls).
  destruct (stat path) as [| |[|]]; try (split; [done|intros [? _]; done]).
  destruct (String.eqb_spec (Go.Ext path) ".xlsx") as [H1|H1]; simpl.
  { split; [|done]. intros _. split; [done|by left]. }
  destruct (String.eqb_spec (Go.Ext path) ".xls") as [H2|H2]; simpl.
  { split; [|done]. intros _. split; [done|by right]. }
  split; [done|]. intros [_ [?|?]]; done.
Qed.

Lemma outputPath_stem filePath :
  ∃ stem, filePath = stem +:+ Go.Ext filePath
          ∧ outputPath filePath = stem +:+ "_updated" +:+ Go.Ext filePath.
Proof.
  exists (substring 0 (String.length filePath - String.length (Go.Ext filePath)) filePath).
  split; [apply Ext_stem|done].
Qed.

End CliFacts.

(** X1. [ValidateFile] returns [nil] exactly for a path that [os.Stat]
    reports as an existing file that is no directory and whose name ends
    with [.xlsx] or [.xls], the bytes compared as they are (an upper-case
    extension is refused).  It panics, instead of returning an error,
    exactly when [os.Stat] fails with an error other than not-exist: the
    [FileInfo] is then [nil] and [info.IsDir()] is still evaluated. *)
Theorem ValidateFile_accepts_excel_files_only
    (stat : string → Cli.StatResult) (path : string) :
  (Cli.ValidateFile stat path = Cli.Returns None ↔
     stat path = Cli.StatInfo false
     ∧ (Go.HasSuffix path ".xlsx" = true ∨ Go.HasSuffix path ".xls" = true))
  ∧ (Cli.ValidateFile stat path = Cli.Panics ↔ stat path = Cli.StatFails)
  ∧ Cli.ValidateFile (λ _, Cli.StatInfo false) "users.XLSX"
    = Cli.Returns (Some Cli.ErrNotExcel).
Proof.
  split; [apply ValidateFile_nil|]. split; [|reflexivity].
  unfold Cli.ValidateFile. destruct (stat path) as [| |[|]]; try done.
  destruct (_ && _); done.
Qed.

(** X2. The path [ProcessExcel] saves to is the input path with [_updated]
    put between its stem and its extension: it is eight bytes longer, so
    never the input path itself, it lies in the same directory (the stem is
    kept), and [filepath.Ext] gives the same extension for it, so a path
    that [ValidateFile] accepts has an output path of the same kind. *)
Theorem outputPath_keeps_stem_and_extension (filePath : string) :
  (∃ stem, filePath = stem +:+ Go.Ext filePath
           ∧ Cli.outputPath filePath = stem +:+ "_updated" +:+ Go.Ext filePath)
  ∧ String.length (Cli.outputPath filePath) = (String.length filePath + 8)%nat
  ∧ Cli.outputPath filePath ≠ filePath
  ∧ Go.Ext (Cli.outputPath filePath) = Go.Ext filePath.
Proof.
  destruct (outputPath_stem filePath) as (stem & Hp & Hout).
  assert (String.length (Cli.outputPath filePath) = (String.length filePath + 8)%nat)
    as Hlen.
  { rewrite Hout. rewrite Hp at 2. rewrite !string_app_length. simpl. lia. }
  split; [eauto|]. split; [done|]. split.
  - intros Heq. rewrite Heq in Hlen. lia.
  - rewrite Hout. destruct (String.eqb_spec (Go.Ext filePath) "") as [He|He].
    + assert (filePath = stem) as <-.
      { rewrite Hp at 1. rewrite He. apply string_app_nil_r. }
      rewrite He. change ("_updated" +:+ "") with "_updated".
      apply Ext_app_plain; [done|apply plain_updated].
    + destruct (Ext_inv filePath He) as (_ & t & _ & Ht & Hplain).
      rewrite <- string_app_assoc. by eapply Ext_app.
Qed.

(** X3. [main] ends with status 0 only after [ProcessExcel] has returned
    [nil] for the path given as first argument, a path [ValidateFile]
    accepted, with a secret key that is not empty.  With the secret key the
    constants file ships, the empty string, [main] never calls
    [ProcessExcel]: whatever the arguments and the file, it ends in
    [os.Exit(1)] or in the panic of [ValidateFile]. *)
Theorem main_needs_a_secret_key
    (args : list string) (stat : string → Cli.StatResult) (secretKey : string)
    (ProcessExcel : string → string → Cli.Outcome (option Excel.ProcessError)) :
  (Cli.main args stat secretKey ProcessExcel = Cli.Exit0 ↔
     ∃ filePath, args !! 1%nat = Some filePath
       ∧ Cli.ValidateFile stat filePath = Cli.Returns None
       ∧ secretKey ≠ ""
       ∧ ProcessExcel filePath secretKey = Cli.Returns None)
  ∧ Cli.main args stat Cli.CLERK_SECRET_KEY ProcessExcel ≠ Cli.Exit0
  ∧ ∀ other, Cli.main args stat Cli.CLERK_SECRET_KEY other
             = Cli.main args stat Cli.CLERK_SECRET_KEY ProcessExcel.
Proof.
  split; [|split].
  - unfold Cli.main. split.
    + intros H. case_decide; [done|].
      destruct (args !! 1%nat) as [filePath|]; [|done]. exists filePath.
      destruct (Cli.ValidateFile stat filePath) as [[e|]|]; try done.
      destruct (String.eqb_spec secretKey ""); [done|].
      destruct (ProcessExcel filePath secretKey) as [[e|]|]; done.
    + intros (filePath & Harg & Hval & Hkey & Hrun).
      rewrite decide_False by (apply lookup_lt_Some in Harg; lia).
      rewrite Harg, Hval, Hrun. by destruct (String.eqb_spec secretKey "").
  - unfold Cli.main. case_decide; [done|].
    destruct (args !! 1%nat) as [filePath|]; [|done].
    destruct (Cli.ValidateFile stat filePath) as [[e|]|]; done.
  - intros other. unfold Cli.main. case_decide; [done|].
    destruct (args !! 1%nat) as [filePath|]; [|done].
    destruct (Cli.ValidateFile stat filePath) as [[e|]|]; done.
Qed.

(** ** The entries of a sheet and the names resolved for them *)

Section EntryFacts.
Import Clerk.

Lemma rowEntry_spec r row e :
  rowEntry r row = Some e ↔
  row !! 4%nat = Some (UserID e) ∧ UserID e ≠ "" ∧ Row e = Z.of_nat r + 1.
Proof.
  unfold rowEntry, USERIDs_COLOUMN. simpl. split.
  - intros H. case_decide; [|done].
    destruct (row !! 4%nat) as [cell|] eqn:Hc; [|done].
    rewrite stringTrim_id in H.
    destruct (String.eqb_spec cell ""); simplify_eq/=. done.
  - intros (Hc & Hne & Hrow).
    rewrite decide_True by (apply lookup_lt_Some in Hc; lia).
    rewrite Hc, stringTrim_id. destruct (String.eqb_spec (UserID e) ""); [done|].
    simpl. f_equal. destruct e; simpl in *. congruence.
Qed.

Lemma entriesFrom_spec r rest e :
  e ∈ entriesFrom r rest ↔
  ∃ i row, rest !! i = Some row ∧ rowEntry (r + i) row = Some e.
Proof.
  revert r. induction rest as [|row0 rest IH]; intros r; simpl.
  - split; [intros H; by apply elem_of_nil in H|intros (i & row & H & _); done].
  - assert (e ∈ entriesFrom (S r) rest ↔
            ∃ i row, (row0 :: rest) !! S i = Some row ∧ rowEntry (r + S i) row = Some e)
      as Htail.
    { rewrite IH. split; intros (i & row & Hi & He); exists i, row;
        rewrite Nat.add_succ_r in *; done. }
    destruct (rowEntry r row0) as [e0|] eqn:Hr.
    + rewrite elem_of_cons, Htail. split.
      * intros [->|(i & row & Hi & He)]; [|eauto].
        exists 0%nat, row0. by rewrite Nat.add_0_r.
      * intros ([|i] & row & Hi & He); [|eauto]. left.
        rewrite Nat.add_0_r in He. by simplify_eq/=.
    + rewrite Htail. split.
      * intros (i & row & Hi & He). eauto.
      * intros ([|i] & row & Hi & He); [|eauto].
        rewrite Nat.add_0_r in He. by simplify_eq/=.
Qed.

Lemma entriesFrom_increasing r rest i j ei ej :
  (i < j)%nat → entriesFrom r rest !! i = Some ei → entriesFrom r rest !! j = Some ej →
  Row ei < Row ej.
Proof.
  revert r i j. induction rest as [|row rest IH]; intros r i j Hij; simpl; [done|].
  destruct (rowEntry r row) as [e|] eqn:He; [|by apply IH].
  destruct i as [|i], j as [|j]; simpl; try lia.
  - intros [= <-] Hj. apply ExcelProofs.rowEntry_row in He.
    destruct (ExcelProofs.entriesFrom_rows (S r) rest) as [Hge _].
    rewrite Forall_forall in Hge.
    specialize (Hge ej (list_elem_of_lookup_2 _ _ _ Hj)). lia.
  - apply IH. lia.
Qed.

Lemma entriesFrom_length r rest : (length (entriesFrom r rest) ≤ length rest)%nat.
Proof.
  revert r. induction rest as [|row rest IH]; intros r; simpl; [done|].
  specialize (IH (S r)). destruct (rowEntry r row); simpl; lia.
Qed.

Lemma collectEntries_elem rows e :
  e ∈ collectEntries rows ↔
  ∃ (r : nat) row, (1 ≤ r)%nat ∧ rows !! r = Some row
    ∧ row !! 4%nat = Some (UserID e) ∧ UserID e ≠ "" ∧ Row e = Z.of_nat r + 1.
Proof.
  unfold collectEntries. rewrite entriesFrom_spec. split.
  - intros (i & row & Hi & He). rewrite lookup_drop in Hi.
    apply rowEntry_spec in He. exists (1 + i)%nat, row. split; [lia|done].
  - intros (r & row & Hr & Hrow & He). exists (r - 1)%nat, row.
    rewrite lookup_drop. replace (1 + (r - 1))%nat with r by lia.
    split; [done|]. by apply rowEntry_spec.
Qed.

Lemma FetchUserName_cases userID x :
  (∃ user, x = Response StatusOK (Some user)
     ∧ FetchUserName userID x = (Go.Sprintf_s_s (FirstName user) (LastName user), None))
  ∨ (∃ err, FetchUserName userID x = ("", Some err)).
Proof.
  destruct x as [| |status [user|]].
  - right. by eexists.
  - right. by eexists.
  - destruct (Z.eq_dec status StatusOK) as [->|Hs].
    + left. exists user. split; [done|apply FetchUserName_ok].
    + right. exists (ErrStatus status). unfold FetchUserName.
      by destruct (Z.eqb_spec status StatusOK).
  - right. unfold FetchUserName. destruct (status =? StatusOK); simpl; eauto.
Qed.

Lemma resolve_name_nonempty e x : UserName (resolve e x) ≠ "".
Proof.
  unfold resolve.
  destruct (FetchUserName_cases (UserID e) x) as [(user & -> & Hok)|(err & Herr)].
  - rewrite Hok. simpl. apply fullName_nonempty.
  - rewrite Herr. simpl. done.
Qed.

End EntryFacts.

(** X4. The entries [ProcessExcel] enqueues are exactly the rows below the
    header that have at least five cells and a fifth cell that is not the
    empty string: a row at index [r >= 1] of [rows] gives the entry with
    [Row = r + 1] and that cell, unchanged, as [UserID]; the header row, a
    shorter row and a row with an empty fifth cell give none. *)
Theorem collectEntries_takes_rows_with_an_identifier
    (rows : list (list string)) (e : Clerk.Entry) :
  e ∈ Clerk.collectEntries rows ↔
  ∃ (r : nat) (row : list string),
    (1 ≤ r)%nat ∧ rows !! r = Some row
    ∧ row !! 4%nat = Some (Clerk.UserID e) ∧ Clerk.UserID e ≠ ""
    ∧ Clerk.Row e = Z.of_nat r + 1.
Proof. apply collectEntries_elem. Qed.

(** X5. The entries come in the order of the rows: their sheet rows are
    strictly increasing along the list (so no row is enqueued twice), each
    lies between 2 and the number of rows, and there are fewer entries than
    rows. *)
Theorem collectEntries_keeps_row_order (rows : list (list string)) :
  (∀ i j ei ej, (i < j)%nat →
     Clerk.collectEntries rows !! i = Some ei →
     Clerk.collectEntries rows !! j = Some ej →
     Clerk.Row ei < Clerk.Row ej)
  ∧ (∀ e, e ∈ Clerk.collectEntries rows →
       2 ≤ Clerk.Row e ≤ Z.of_nat (length rows))
  ∧ (length (Clerk.collectEntries rows) ≤ length rows - 1)%nat.
Proof.
  split; [|split].
  - intros i j ei ej. apply entriesFrom_increasing.
  - intros e He. apply collectEntries_elem in He as (r & row & Hr & Hrow & _ & _ & ->).
    apply lookup_lt_Some in Hrow. lia.
  - unfold Clerk.collectEntries.
    pose proof (entriesFrom_length 1 (drop 1 rows)) as Hlen.
    by rewrite length_drop in Hlen.
Qed.

(** X6. [FetchUserName] returns without error exactly when the response
    has status 200 and a body that decodes, and the name is then the first
    name, a space and the last name.  With any other status the body is not
    looked at and the error carries the status.  The name returned is empty
    exactly when an error is returned. *)
Theorem FetchUserName_fails_or_names (userID : string) (x : Clerk.Exchange) :
  ((Clerk.FetchUserName userID x).2 = None ↔
     ∃ user, x = Clerk.Response Clerk.StatusOK (Some user)
       ∧ (Clerk.FetchUserName userID x).1
         = Clerk.FirstName user +:+ " " +:+ Clerk.LastName user)
  ∧ ((Clerk.FetchUserName userID x).1 = "" ↔ (Clerk.FetchUserName userID x).2 ≠ None)
  ∧ (∀ status body, status ≠ Clerk.StatusOK →
       Clerk.FetchUserName userID (Clerk.Response status body)
       = ("", Some (Clerk.ErrStatus status))).
Proof.
  split; [|split].
  - destruct (FetchUserName_cases userID x) as [(user & -> & Hok)|(err & Herr)].
    + rewrite Hok. simpl. split; [eauto|done].
    + rewrite Herr. simpl. split; [done|].
      intros (user & -> & _). rewrite FetchUserName_ok in Herr. done.
  - destruct (FetchUserName_cases userID x) as [(user & -> & Hok)|(err & Herr)].
    + rewrite Hok. simpl. split; [|done].
      intros Heq. by destruct (fullName_nonempty _ _ Heq).
    + rewrite Herr. simpl. done.
  - intros status body Hs. unfold Clerk.FetchUserName.
    by destruct (Z.eqb_spec status Clerk.StatusOK).
Qed.

(** ** [ProcessExcel]: what is written, spawned and left behind *)

Module SheetProofs.

Section SheetInvariant.
Import Clerk Excel ExcelProofs.
Context (w : World) (N : nat).

(** The sheet of rows the run works on, when the file has one with a
    header row. *)
Definition has_header : Prop := ∃ row rows, file w = Sheet (row :: rows).

Record Cells (s : State) : Prop := {
  ce_spawned : (length (gs s) + length (todo_of w (pc s)))%nat = length (enqueued w);
  ce_cells : ∀ k v, sheet s !! k = Some v →
    writable k.1 k.2
    ∧ ((k = (column w, 1) ∧ v = "User Name")
       ∨ ∃ r, r ∈ applied s ∧ k = (column w, ResRow r) ∧ v = stored w (UserName r));
  ce_header : pc s ≠ MStart → pc s ≠ MPanic → (∃ rows, file w = Sheet rows) →
    has_header
    ∧ (writable (column w) 1 → sheet s !! (column w, 1) = Some "User Name");
  ce_closer : ∀ ret, pc s = MReturn ret → (∃ rows, file w = Sheet rows) →
    closer s = CDone ∧ closed s = true
}.

Lemma enqueued_row_ge e : e ∈ enqueued w → 2 ≤ Row e.
Proof.
  unfold enqueued. destruct (file w) as [| |rows];
    try (intros He; by apply elem_of_nil in He).
  intros He. apply collectEntries_elem in He as (r & row & Hr & _ & _ & _ & ->). lia.
Qed.

(** The header fits a cell: it is stored as it is. *)
Lemma stored_header : stored w "User Name" = "User Name".
Proof. unfold stored. rewrite decide_True; [done|]. vm_compute. discriminate. Qed.

Lemma cells_init : Cells init.
Proof. split; simpl; done. Qed.

Lemma cells_panic : file w = Sheet [] → Cells (set_pc MPanic init).
Proof.
  intros Hfile. split; simpl; try done.
  unfold enqueued. by rewrite Hfile.
Qed.

Ltac cells_easy :=
  try done;
  try (intros; repeat match goal with H : ∃ _, _ |- _ => destruct H end; congruence);
  try (intros; match goal with H : _ → _ → _ → has_header ∧ _ |- _ => by apply H end).

Lemma cells_fire a s s' :
  fire w N a s = Some s' → Inv w N s → Cells s → Cells s'.
Proof.
  intros Hfire HI HC. pose proof (fire_inv w N a s s' Hfire HI) as HI'.
  assert (pc s' = MPanic ∨ pc s' ≠ MPanic) as [Hp|Hp].
  { destruct (pc s'); auto. }
  { unfold Inv in HI'. rewrite Hp in HI'. destruct HI' as [Hfile ->].
    by apply cells_panic. }
  unfold fire in Hfire. destruct (halted s) eqn:Hh; [done|].
  assert (Inv' w N s) as HJ.
  { unfold Inv, halted in *. by destruct (pc s). }
  destruct HC as [Hsp Hcells Hhead Hcl].
  destruct a as [|i|].
  - unfold main_step in Hfire.
    destruct s as [p sm wgc g cl res cld sh app]. simpl in *.
    destruct p as [|todo|e todo|e todo| | |err|]; simpl in *; try done.
    + pose proof (inv_start _ _ _ HJ eq_refl) as Hinit. unfold init in Hinit.
      injection Hinit as -> -> -> -> -> -> -> ->.
      unfold enqueued, column, has_header in *.
      destruct (file w) as [| |[|row rows]] eqn:Hfile; simplify_eq/=.
      * split; simpl; unfold enqueued; rewrite ?Hfile; cells_easy.
      * split; simpl; unfold enqueued; rewrite ?Hfile; cells_easy.
      * split; simpl; unfold enqueued, column, has_header; rewrite ?Hfile; cells_easy.
        -- intros k v Hk. unfold SetCellValue in Hk. case_decide; [|done].
           rewrite stored_header in Hk.
           apply lookup_singleton_Some in Hk as [<- <-]. split; [done|]. by left.
        -- intros _ _ _. split; [eauto|]. intros Hw. unfold SetCellValue.
           rewrite decide_True by done.
           by rewrite stored_header, lookup_insert_eq.
    + destruct todo as [|e todo]; simplify_eq/=; split; simpl; cells_easy.
    + case_decide; simplify_eq/=. split; simpl; cells_easy.
    + simplify_eq/=. split; simpl; cells_easy. rewrite length_app. simpl. lia.
    + destruct res as [|r rest]; simplify_eq/=.
      * destruct cld; simplify_eq/=. split; simpl; cells_easy.
      * assert (ResRow r ≠ 1) as Hrow.
        { pose proof (inv_perm _ _ _ HJ) as Hperm. simpl in Hperm.
          assert (r ∈ outcome w <$> enqueued w) as Hr.
          { rewrite Hperm, !elem_of_app, elem_of_cons. auto. }
          apply list_elem_of_fmap in Hr as (e & -> & He).
          rewrite outcome_row. apply enqueued_row_ge in He. lia. }
        split; simpl; try done.
        -- intros k v Hk.
           assert (sheet_keeps : sh !! k = Some v →
                     writable k.1 k.2
                     ∧ ((k = (column w, 1) ∧ v = "User Name")
                        ∨ ∃ r', r' ∈ app ++ [r] ∧ k = (column w, ResRow r')
                                ∧ v = stored w (UserName r'))).
           { intros Hold. destruct (Hcells k v Hold) as [Hw [?|(r' & Hr' & ? & ?)]];
               (split; [done|]); [by left|].
             right. exists r'. split; [|done]. apply elem_of_app. by left. }
           unfold SetCellValue in Hk. case_decide as Hw; [|by apply sheet_keeps].
           destruct (decide (k = (column w, ResRow r))) as [->|Hne].
           ++ rewrite lookup_insert_eq in Hk. simplify_eq. split; [done|].
              right. exists r.
              split; [|done]. apply elem_of_app. right. by apply list_elem_of_singleton.
           ++ rewrite lookup_insert_ne in Hk by done. by apply sheet_keeps.
        -- intros _ _ Hfile. destruct (Hhead ltac:(done) ltac:(done) Hfile) as [? Hh1].
           split; [done|]. intros Hw1. unfold SetCellValue. case_decide; [|by apply Hh1].
           rewrite lookup_insert_ne; [by apply Hh1|]. intros [=]. done.
    + simplify_eq/=. split; simpl; cells_easy.
      intros ret _ _. pose proof (inv_closer _ _ _ HJ) as Hc.
      unfold closer_ok in Hc. simpl in Hc.
      destruct cl; intuition congruence.
  - destruct (gs s !! i) as [g|] eqn:Hi; [|done].
    assert (pc s' = pc s ∧ sheet s' = sheet s ∧ applied s' = applied s
            ∧ length (gs s') = length (gs s) ∧ closer s' = closer s
            ∧ closed s' = closed s) as (Hpc & Hsh & Happ & Hlen & Hcl' & Hcld').
    { destruct s as [p sm wgc l cl res cld sh app]. simpl in *.
      destruct g as [e|r| | |]; simpl in *.
      - simplify_eq/=. by rewrite length_insert.
      - destruct cld; [simplify_eq/=; done|]. case_decide; simplify_eq/=.
        by rewrite length_insert.
      - destruct sm; simplify_eq/=. by rewrite length_insert.
      - destruct wgc; simplify_eq/=; try done. by rewrite length_insert.
      - done. }
    split; rewrite ?Hpc, ?Hsh, ?Happ, ?Hlen, ?Hcl', ?Hcld'; done.
  - unfold closer_step in Hfire.
    destruct s as [p sm wgc l cl res cld sh app]. simpl in *.
    destruct cl; try done. destruct wgc; try done.
    destruct cld; simplify_eq/=. split; simpl; done.
Qed.

Lemma reachable_cells s : reachable w N s → Cells s.
Proof.
  unfold reachable. intros Hr.
  enough (rtc (step w N) init s ∧ Cells s) as [_ HC]; [done|].
  eapply (rtc_ind_r (λ s, rtc (step w N) init s ∧ Cells s) init);
    [split; [done|apply cells_init]| |exact Hr].
  intros s1 s2 _ [a Ha] [Hs1 IH]. split.
  - eapply rtc_r; [exact Hs1|]. by exists a.
  - eapply cells_fire; [exact Ha| |exact IH]. by apply reachable_inv.
Qed.

Lemma live_zero_exited l : tally live l = 0%nat → Forall (λ g, g = GExit) l.
Proof.
  unfold tally. induction l as [|g l IH]; csimpl; [constructor|]. intros Hz.
  destruct g; simpl in *; try lia. constructor; [done|]. apply IH. lia.
Qed.

(** A worker that has not returned is never met in a halted state, and
    the results channel is not closed under it. *)
Lemma worker_running s i g :
  Inv w N s → gs s !! i = Some g → g ≠ GExit →
  halted s = false ∧ closed s = false ∧ Inv' w N s.
Proof.
  intros HI Hi Hg.
  assert (0 < tally live (gs s))%nat as Hlive.
  { pose proof (tally_lookup_le live (gs s) i g Hi). destruct g; simpl in *; try lia.
    done. }
  unfold Inv in HI. destruct (pc s) eqn:Hpc;
    try (destruct HI as [_ ->]; done).
  all: pose proof (inv_closer _ _ _ HI) as Hc; unfold closer_ok in Hc.
  all: unfold halted; rewrite Hpc.
  all: try (split; [done|]; split; [|done];
            destruct (closer s); [tauto|tauto|]; destruct Hc as (_ & ? & _); lia).
  destruct (inv_end _ _ _ HI err) as [_ Hz]; [by right|]. lia.
Qed.

End SheetInvariant.

End SheetProofs.

Section SheetFacts.
Import Clerk Excel ExcelProofs SheetProofs.
Context (w : World) (N : nat).

Lemma applied_outcome s r :
  Inv' w N s → r ∈ applied s → ∃ e, e ∈ enqueued w ∧ r = outcome w e.
Proof.
  intros HI Hr. pose proof (inv_perm _ _ _ HI) as Hperm.
  assert (r ∈ outcome w <$> enqueued w) as Hin.
  { rewrite Hperm, !elem_of_app. auto. }
  apply list_elem_of_fmap in Hin as (e & -> & He). eauto.
Qed.

(** Every cell a run has set is the header cell or the cell of an entry,
    holding that entry's own result. *)
(** Every cell a run has set is a cell of the sheet: the header cell or the
    cell of an entry, holding what the library stores of that entry's own
    result. *)
Lemma written_cells s k v :
  reachable w N s → sheet s !! k = Some v →
  writable k.1 k.2
  ∧ ((k = (column w, 1) ∧ v = "User Name")
     ∨ ∃ e, e ∈ enqueued w ∧ k = (column w, Row e)
            ∧ v = stored w (UserName (outcome w e))).
Proof.
  intros Hs Hk. pose proof (reachable_inv w N s Hs) as HI.
  pose proof (reachable_cells w N s Hs) as HC.
  assert (Inv' w N s) as HI'.
  { unfold Inv in HI. destruct (pc s); try done. destruct HI as [_ ->]. done. }
  destruct (ce_cells _ _ HC k v Hk) as [Hw [?|(r & Hr & -> & ->)]];
    (split; [done|]); [by left|right].
  destruct (applied_outcome s r HI' Hr) as (e & He & ->).
  exists e. by rewrite outcome_row.
Qed.

(** The cells the code asks for: the header and one per entry. *)
Definition asked : gmap (Z * Z) string :=
  <[(column w, 1) := "User Name"]>
    (list_to_map ((λ e, ((column w, Row e), stored w (UserName (outcome w e))))
                  <$> enqueued w)).

Lemma sheet_lookup_at_return s ret k :
  reachable w N s → pc s = MReturn ret → (∃ rows, file w = Sheet rows) →
  writable k.1 k.2 → sheet s !! k = asked !! k.
Proof.
  intros Hs Hpc Hfile Hw. pose proof (reachable_cells w N s Hs) as HC. unfold asked.
  destruct (decide (k = (column w, 1))) as [->|Hk].
  - rewrite lookup_insert_eq. apply (ce_header _ _ HC); by rewrite ?Hpc.
  - rewrite lookup_insert_ne by done.
    destruct (list_to_map _ !! k) as [v|] eqn:HL.
    + apply elem_of_list_to_map_2, list_elem_of_fmap in HL as (e & [= -> ->] & He).
      by apply (cells_at_return w N s ret).
    + destruct (sheet s !! k) as [v|] eqn:Hv; [|done].
      apply not_elem_of_list_to_map_2 in HL. destruct HL.
      destruct (written_cells s k v Hs Hv) as [_ [[? _]|(e & He & -> & _)]]; [done|].
      rewrite <- list_fmap_compose. apply list_elem_of_fmap. by exists e.
Qed.

Lemma sheet_at_return s ret :
  reachable w N s → pc s = MReturn ret → (∃ rows, file w = Sheet rows) →
  sheet s = filter (λ cell, writable cell.1.1 cell.1.2) asked.
Proof.
  intros Hs Hpc Hfile. apply map_eq. intros k.
  destruct (decide (writable k.1 k.2)) as [Hw|Hw].
  - rewrite (sheet_lookup_at_return s ret k Hs Hpc Hfile Hw).
    destruct (asked !! k) as [v|] eqn:Hv; symmetry.
    + by apply map_lookup_filter_Some_2.
    + apply map_lookup_filter_None_2. by left.
  - rewrite map_lookup_filter_None_2; [|right; by intros x _].
    destruct (sheet s !! k) as [v|] eqn:Hv; [|done].
    by destruct (written_cells s k v Hs Hv) as [? _].
Qed.

(** A header row that fills the sheet leaves no column for the names:
    nothing is ever set. *)
Lemma full_header_row_sets_nothing s :
  reachable w N s → MaxColumns < column w → sheet s = ∅.
Proof.
  intros Hs Hcol. apply map_empty. intros k.
  destruct (sheet s !! k) as [v|] eqn:Hv; [|done].
  destruct (written_cells s k v Hs Hv) as [[Hw _] [[-> _]|(e & _ & -> & _)]];
    simpl in Hw; lia.
Qed.

Lemma worker_moves s i g :
  Inv' w N s → halted s = false → closed s = false →
  gs s !! i = Some g → g ≠ GExit →
  ∃ s', fire w N (AWorker i) s = Some s' ∧ pc s' = pc s
        ∧ (length (results s') ≤ length (enqueued w))%nat.
Proof.
  intros HI Hh Hcld Hi Hg. unfold fire. rewrite Hh, Hi.
  pose proof (tally_lookup_le holding (gs s) i g Hi) as Hhold.
  pose proof (tally_lookup_le live (gs s) i g Hi) as Hlive.
  pose proof (bind_lookup_length (owed w) (gs s) i g Hi) as Howed.
  destruct HI as [_ Hsem _ Hwg _ Hperm _ _ _].
  apply Permutation_length in Hperm.
  rewrite !length_app, !length_fmap in Hperm.
  destruct g as [e|r| | |]; simpl in *; try done.
  - eexists. split; [done|]. simpl. split; [done|lia].
  - rewrite Hcld. case_decide; [|lia]. eexists. split; [done|]. simpl.
    rewrite length_app. simpl. split; [done|lia].
  - destruct (sem s); [lia|]. eexists. split; [done|]. simpl. split; [done|lia].
  - destruct (wg s); [lia|]. eexists. split; [done|]. simpl. split; [done|lia].
Qed.

End SheetFacts.

(** X7. What a run of [ProcessExcel] writes.  The code asks for the header
    cell of the new column and for one cell per enqueued entry, and drops the
    errors of [ColumnNumberToName], [CoordinatesToCellName] and
    [SetCellValue].  In every state of every schedule a cell that has been
    set lies within the limits of the sheet and is the header cell, holding
    [User Name], or the cell of an enqueued entry in the new column, holding
    what the library stores of that entry's own result, which is never the
    empty string.  When [ProcessExcel] returns after reading a sheet, the
    cells set are exactly those asked for that lie within the limits: all of
    them when the new column is within [MaxColumns] and the rows within
    [TotalRows], every value as it is when it fits a cell.  When the header
    row already has [MaxColumns] cells, no cell is ever set. *)
Theorem sheet_holds_header_and_one_cell_per_entry
    (w : Excel.World) (N : nat) (s : Excel.State) :
  Excel.reachable w N s →
  (∀ k v, Excel.sheet s !! k = Some v →
     Excel.writable k.1 k.2
     ∧ ((k = (Excel.column w, 1) ∧ v = "User Name")
        ∨ ∃ e, e ∈ Excel.enqueued w ∧ k = (Excel.column w, Clerk.Row e)
               ∧ v = Excel.stored w (Clerk.UserName (Excel.outcome w e))
               ∧ Clerk.UserName (Excel.outcome w e) ≠ ""))
  ∧ (Excel.MaxColumns < Excel.column w → Excel.sheet s = ∅)
  ∧ ∀ ret, Excel.pc s = Excel.MReturn ret → (∃ rows, Excel.file w = Excel.Sheet rows) →
      Excel.sheet s
      = filter (λ cell, Excel.writable cell.1.1 cell.1.2)
          (<[(Excel.column w, 1) := "User Name"]>
             (list_to_map ((λ e, ((Excel.column w, Clerk.Row e),
                                  Excel.stored w (Clerk.UserName (Excel.outcome w e))))
                           <$> Excel.enqueued w)))
      ∧ (Excel.column w ≤ Excel.MaxColumns →
         (∀ rows, Excel.file w = Excel.Sheet rows →
            Z.of_nat (length rows) ≤ Excel.TotalRows) →
         (∀ e, e ∈ Excel.enqueued w →
            Z.of_nat (String.length (Clerk.UserName (Excel.outcome w e)))
              ≤ Excel.TotalCellChars) →
         Excel.sheet s
         = <[(Excel.column w, 1) := "User Name"]>
             (list_to_map ((λ e, ((Excel.column w, Clerk.Row e),
                                  Clerk.UserName (Excel.outcome w e)))
                           <$> Excel.enqueued w))).
Proof.
  intros Hs. split; [|split].
  - intros k v Hk.
    destruct (written_cells w N s k v Hs Hk) as [Hw [?|(e & He & -> & ->)]];
      (split; [done|]); [by left|right].
    exists e. split; [done|]. split; [done|]. split; [done|].
    apply resolve_name_nonempty.
  - by apply (full_header_row_sets_nothing w N).
  - intros ret Hpc Hfile. split; [by apply (sheet_at_return w N s ret)|].
    intros Hcol Hrows Hfit.
    assert (1 ≤ Excel.column w) as Hcol1.
    { destruct Hfile as [rows Hrows']. unfold Excel.column, Excel.nameColumn.
      rewrite Hrows'. lia. }
    assert (∀ e, e ∈ Excel.enqueued w → Excel.writable (Excel.column w) (Clerk.Row e))
      as Hcells.
    { intros e He. destruct Hfile as [rows Hrows']. specialize (Hrows rows Hrows').
      pose proof (SheetProofs.enqueued_row_ge w e He) as Hge.
      unfold Excel.enqueued in He. rewrite Hrows' in He.
      apply collectEntries_elem in He as (r & row & Hr & Hrow & _ & _ & ->).
      apply lookup_lt_Some in Hrow. unfold Excel.writable, Excel.TotalRows in *. lia. }
    apply map_eq. intros k.
    destruct (decide (k = (Excel.column w, 1))) as [->|Hk].
    + rewrite lookup_insert_eq.
      rewrite (sheet_lookup_at_return w N s ret _ Hs Hpc Hfile).
      * unfold asked. by rewrite lookup_insert_eq.
      * unfold Excel.writable, Excel.TotalRows. simpl. lia.
    + rewrite lookup_insert_ne by done.
      destruct (list_to_map _ !! k) as [v|] eqn:HL.
      * apply elem_of_list_to_map_2, list_elem_of_fmap in HL as (e & [= -> ->] & He).
        rewrite (cells_at_return w N s ret e Hs Hpc He (Hcells e He)).
        unfold Excel.stored. by rewrite decide_True by (by apply Hfit).
      * destruct (Excel.sheet s !! k) as [v|] eqn:Hv; [|done].
        apply not_elem_of_list_to_map_2 in HL. destruct HL.
        destruct (written_cells w N s k v Hs Hv) as [_ [[? _]|(e & He & -> & _)]];
          [done|].
        rewrite <- list_fmap_compose. apply list_elem_of_fmap. by exists e.
Qed.

Lemma sheet_holds_header_and_one_cell_per_entry_witness :
  Excel.sheet ExcelDemo.final
  = {[ (6, 1) := "User Name"; (6, 2) := "Ann Lee";
       (6, 3) := "Unknown User (user_2)"; (6, 5) := "Unknown User (user_3)" ]}
  ∧ Excel.sheet ExcelDemo.final_wide = ∅.
Proof.
  split.
  - destruct (sheet_holds_header_and_one_cell_per_entry
                ExcelDemo.world Clerk.BATCH_SIZE ExcelDemo.final) as (_ & _ & Hret).
    + apply exec_reachable. apply rtc_refl.
    + destruct (Hret None) as [Hall _]; [vm_compute; reflexivity|by eexists|].
      rewrite Hall. vm_compute. reflexivity.
  - destruct (sheet_holds_header_and_one_cell_per_entry
                ExcelDemo.wide Clerk.BATCH_SIZE ExcelDemo.final_wide) as (_ & Hnone & _).
    + apply exec_reachable. apply rtc_refl.
    + apply Hnone. vm_compute. reflexivity.
Defined.

(** X8. One goroutine is spawned per enqueued entry and none outlives the
    call: in every state of every schedule the workers spawned are at most
    the entries, and when [ProcessExcel] returns there is exactly one worker
    per entry, every one of them has returned, no slot of [sem] is held, the
    WaitGroup counter is zero and the results channel is empty; after a
    sheet was read the closing goroutine has closed the channel and ended
    too. *)
Theorem no_goroutine_outlives_ProcessExcel
    (w : Excel.World) (N : nat) (s : Excel.State) :
  Excel.reachable w N s →
  (length (Excel.gs s) ≤ length (Excel.enqueued w))%nat
  ∧ ∀ ret, Excel.pc s = Excel.MReturn ret →
      length (Excel.gs s) = length (Excel.enqueued w)
      ∧ Forall (λ g, g = Excel.GExit) (Excel.gs s)
      ∧ Excel.sem s = 0%nat ∧ Excel.wg s = 0%nat ∧ Excel.results s = []
      ∧ ((∃ rows, Excel.file w = Excel.Sheet rows) →
           Excel.closer s = Excel.CDone ∧ Excel.closed s = true).
Proof.
  intros Hs. pose proof (SheetProofs.reachable_cells w N s Hs) as HC.
  pose proof (SheetProofs.ce_spawned _ _ HC) as Hsp. split; [lia|].
  intros ret Hpc. pose proof (ExcelProofs.reachable_inv w N s Hs) as HI.
  unfold ExcelProofs.Inv in HI. rewrite Hpc in *. simpl in Hsp.
  destruct (ExcelProofs.inv_end _ _ _ HI ret) as [Hres Hlive]; [by right|].
  pose proof (ExcelProofs.inv_sem _ _ _ HI) as Hsem.
  pose proof (ExcelProofs.inv_wg _ _ _ HI) as Hwg.
  rewrite Hpc in Hsem, Hwg. simpl in Hsem, Hwg.
  split; [lia|]. split; [by apply SheetProofs.live_zero_exited|].
  assert (tally ExcelProofs.holding (Excel.gs s) = 0%nat) as Hhold.
  { pose proof (ExcelProofs.tally_mono ExcelProofs.holding ExcelProofs.live (Excel.gs s))
      as Hle. specialize (Hle ltac:(intros []; simpl; lia)). lia. }
  split; [lia|]. split; [lia|]. split; [done|].
  apply (SheetProofs.ce_closer _ _ HC ret Hpc).
Qed.

Lemma no_goroutine_outlives_ProcessExcel_witness :
  Excel.gs ExcelDemo.final = [Excel.GExit; Excel.GExit; Excel.GExit]
  ∧ length (Excel.gs ExcelDemo.final) = length (Excel.enqueued ExcelDemo.world)
  ∧ Excel.closed ExcelDemo.final = true.
Proof.
  destruct (no_goroutine_outlives_ProcessExcel
              ExcelDemo.world Clerk.BATCH_SIZE ExcelDemo.final) as [_ Hret].
  - apply exec_reachable. apply rtc_refl.
  - destruct (Hret None) as (Hlen & _ & _ & _ & _ & Hcl); [vm_compute; reflexivity|].
    split; [vm_compute; reflexivity|]. split; [exact Hlen|].
    apply Hcl. by eexists.
Defined.

(** X9. When the file cannot be opened, its rows cannot be read, or the
    sheet has no row at all, the run has one step: [ProcessExcel] returns
    the error of [OpenFile] or of [GetRows], or panics at [rows[0]]; no
    goroutine is spawned, no request is made and no cell is set. *)
Theorem unreadable_sheet_starts_nothing
    (w : Excel.World) (N : nat) (s : Excel.State) :
  (∀ row rows, Excel.file w ≠ Excel.Sheet (row :: rows)) →
  Excel.reachable w N s →
  s = Excel.init
  ∨ s = Excel.set_pc
          match Excel.file w with
          | Excel.OpenFails => Excel.MReturn (Some Excel.ErrOpen)
          | Excel.GetRowsFails => Excel.MReturn (Some Excel.ErrGetRows)
          | Excel.Sheet _ => Excel.MPanic
          end Excel.init.
Proof.
  intros Hfile Hs. unfold Excel.reachable in Hs.
  eapply (rtc_ind_r (λ s, s = Excel.init ∨ s = Excel.set_pc _ Excel.init) Excel.init);
    [by left| |exact Hs].
  intros s1 s2 _ [a Ha] [Hs1|Hs1]; rewrite Hs1 in Ha.
  - right. unfold Excel.fire in Ha. simpl in Ha. destruct a as [|i|]; simpl in Ha.
    + unfold Excel.main_step in Ha. simpl in Ha.
      destruct (Excel.file w) as [| |[|row rows]] eqn:Hf; simplify_eq/=; try done.
      by destruct (Hfile row rows).
    + done.
    + done.
  - unfold Excel.fire in Ha. simpl in Ha.
    destruct (Excel.file w) as [| |rows]; simpl in Ha; done.
Qed.

Lemma unreadable_sheet_starts_nothing_witness :
  Excel.exec {| Excel.file := Excel.GetRowsFails; Excel.exchange := ExcelDemo.answer;
                Excel.saveFails := false;
                Excel.cut := λ value, value |} Clerk.BATCH_SIZE
    [Excel.AMain; Excel.ACloser; Excel.AMain] Excel.init
  = Excel.set_pc (Excel.MReturn (Some Excel.ErrGetRows)) Excel.init.
Proof.
  destruct (unreadable_sheet_starts_nothing
              {| Excel.file := Excel.GetRowsFails; Excel.exchange := ExcelDemo.answer;
                 Excel.saveFails := false;
                Excel.cut := λ value, value |} Clerk.BATCH_SIZE
              (Excel.exec {| Excel.file := Excel.GetRowsFails;
                             Excel.exchange := ExcelDemo.answer;
                             Excel.saveFails := false;
                Excel.cut := λ value, value |} Clerk.BATCH_SIZE
                 [Excel.AMain; Excel.ACloser; Excel.AMain] Excel.init)) as [H|H].
  - intros row rows. simpl. discriminate.
  - apply exec_reachable. apply rtc_refl.
  - vm_compute in H. discriminate.
  - exact H.
Defined.

(** X10. A spawned worker never waits for another goroutine: in every
    state of every schedule, a worker that has not returned can take its
    next step at once.  The send on the results channel finds room, since
    the buffer has one place per entry; [<-sem] finds a token; the deferred
    [wg.Done()] finds a positive counter; and the step never panics.  Only
    the calling goroutine (at [sem <- struct{}{}] and at the range loop) and
    the closing goroutine (at [wg.Wait()]) ever block. *)
Theorem spawned_worker_never_blocks
    (w : Excel.World) (N : nat) (s : Excel.State) (i : nat) (g : Excel.Goroutine) :
  Excel.reachable w N s →
  Excel.gs s !! i = Some g →
  g ≠ Excel.GExit →
  ∃ s', Excel.fire w N (Excel.AWorker i) s = Some s'
        ∧ Excel.pc s' = Excel.pc s
        ∧ (length (Excel.results s') ≤ length (Excel.enqueued w))%nat.
Proof.
  intros Hs Hi Hg. pose proof (ExcelProofs.reachable_inv w N s Hs) as HI.
  destruct (SheetProofs.worker_running w N s i g HI Hi Hg) as (Hh & Hcld & HI').
  by apply (worker_moves w N s i g).
Qed.

Lemma spawned_worker_never_blocks_witness :
  ∃ s', Excel.fire ExcelDemo.world 2 (Excel.AWorker 1) ExcelDemo.midway = Some s'
        ∧ Excel.pc s' = Excel.pc ExcelDemo.midway
        ∧ (length (Excel.results s') ≤ 3)%nat.
Proof.
  apply (spawned_worker_never_blocks ExcelDemo.world 2 ExcelDemo.midway 1
           (Excel.GFetch {| Clerk.Row := 3; Clerk.UserID := "user_2" |})).
  - apply exec_reachable. apply rtc_refl.
  - reflexivity.
  - discriminate.
Defined.

(** ** The migration: every job is accounted for *)

Module AccountProofs.

Section Account.
Import Migrate MigrateProofs.
Context (config : Config) (classify : ObjectAttrs → Verdict) (w : World).

Definition is_probe (c : Call) : nat :=
  match c with HeadObject _ => 1 | _ => 0 end.
Definition is_open (c : Call) : nat :=
  match c with NewReader _ => 1 | _ => 0 end.
Definition is_upload (c : Call) : nat :=
  match c with Upload _ => 1 | _ => 0 end.

Definition at_head (g : Worker) : nat :=
  match g with WHead _ => 1 | _ => 0 end.
Definition at_open (g : Worker) : nat :=
  match g with WOpen _ => 1 | _ => 0 end.
Definition at_upload (g : Worker) : nat :=
  match g with WUpload _ => 1 | _ => 0 end.

(** The counters and the calls made, in numbers: [ns] jobs were skipped
    as existing, [nc] copied, [eo] failed at the open and [eu] at the
    upload. *)
Definition counts (s : State) (ns nc eo eu : nat) : Prop :=
  skippedExisting (stats (shared s)) = Go.wrap64 (Z.of_nat ns)
  ∧ copiedFiles (stats (shared s)) = Go.wrap64 (Z.of_nat nc)
  ∧ errorFiles (stats (shared s)) = Go.wrap64 (Z.of_nat (eo + eu))
  ∧ tally is_probe (calls (shared s))
    = (ns + tally at_open (workers s) + tally is_open (calls (shared s)))%nat
  ∧ tally is_open (calls (shared s))
    = (eo + tally at_upload (workers s) + tally is_upload (calls (shared s)))%nat
  ∧ tally is_upload (calls (shared s)) = (nc + eu)%nat.

Record Acct (s : State) : Prop := {
  ac_received :
    length (sent (local s))
    = (length (jobs s) + tally uncounted (workers s) + tally at_head (workers s)
       + tally is_probe (calls (shared s)))%nat;
  ac_counts : ∃ ns nc eo eu, counts s ns nc eo eu
}.

Lemma acct_init : Acct (init w).
Proof. split; [done|]. by exists 0%nat, 0%nat, 0%nat, 0%nat. Qed.

Lemma wrap64_succ (n : nat) :
  Go.Int64_Add (Go.wrap64 (Z.of_nat n)) 1 = Go.wrap64 (Z.of_nat (S n)).
Proof. unfold Go.Int64_Add. rewrite wrap64_add. f_equal. lia. Qed.

Lemma acct_fire a s s' :
  fire config classify w a s = Some s' → Acct s → Acct s'.
Proof.
  unfold fire. destruct (halted s) eqn:Hh; [done|]. intros Hstep [Hrecv Hcnt].
  destruct Hcnt as (ns & nc & eo & eu & Hsk & Hcp & Her & Hp & Ho & Hu).
  destruct a as [|i].
  - unfold main_step in Hstep. destruct s as [p loc js cld ws wgc sh]. simpl in *.
    destruct p as [|[|todo]|[|attrs rest]|job rest| | |]; simpl in *; try done.
    + case_decide; simplify_eq/=; (split; [done|]); by exists ns, nc, eo, eu.
    + simplify_eq/=. split; [done|]. by exists ns, nc, eo, eu.
    + simplify_eq/=. split; simpl.
      * rewrite !tally_snoc. simpl. lia.
      * exists ns, nc, eo, eu. unfold counts. simpl. rewrite !tally_snoc. simpl.
        split_and!; try done; lia.
    + simplify_eq/=. split; [done|]. by exists ns, nc, eo, eu.
    + destruct (classify attrs); simplify_eq/=; (split; [done|]);
        by exists ns, nc, eo, eu.
    + case_decide; simplify_eq/=. split; simpl.
      * rewrite !length_app. simpl. lia.
      * by exists ns, nc, eo, eu.
    + destruct wgc; simplify_eq/=. split; [done|]. by exists ns, nc, eo, eu.
  - destruct (workers s !! i) as [g|] eqn:Hi; [|done].
    pose proof (λ g', tally_insert uncounted (workers s) i g g' Hi) as H1.
    pose proof (λ g', tally_insert at_head (workers s) i g g' Hi) as H2.
    pose proof (λ g', tally_insert at_open (workers s) i g g' Hi) as H3.
    pose proof (λ g', tally_insert at_upload (workers s) i g g' Hi) as H4.
    destruct s as [p loc js cld ws wgc sh]. simpl in *.
    destruct g as [|job|job|job|job|]; simpl in *.
    + destruct js as [|job rest]; simplify_eq/=.
      * destruct cld; [|done]. destruct wgc; simplify_eq/=.
        -- split; [done|]. by exists ns, nc, eo, eu.
        -- specialize (H1 WExit). specialize (H2 WExit). specialize (H3 WExit).
           specialize (H4 WExit). simpl in *. split; simpl; [lia|].
           exists ns, nc, eo, eu. unfold counts. simpl. split_and!; try done; lia.
      * specialize (H1 (WCount job)). specialize (H2 (WCount job)).
        specialize (H3 (WCount job)). specialize (H4 (WCount job)). simpl in *.
        split; simpl; [lia|].
        exists ns, nc, eo, eu. unfold counts. simpl. split_and!; try done; lia.
    + simplify_eq/=. specialize (H1 (WHead job)). specialize (H2 (WHead job)).
      specialize (H3 (WHead job)). specialize (H4 (WHead job)). simpl in *.
      split; simpl; [lia|].
      exists ns, nc, eo, eu. unfold counts. simpl. split_and!; try done; lia.
    + simplify_eq/=. unfold move, head_step.
      destruct (fileExistsInS3 w sh (RelativePath job)); simpl.
      * specialize (H1 WRecv). specialize (H2 WRecv). specialize (H3 WRecv).
        specialize (H4 WRecv). simpl in *. split; simpl.
        -- rewrite tally_snoc. simpl. lia.
        -- exists (S ns), nc, eo, eu. unfold counts. simpl.
           rewrite !tally_snoc. simpl. rewrite Hsk, wrap64_succ.
           split_and!; try done; lia.
      * specialize (H1 (WOpen job)). specialize (H2 (WOpen job)).
        specialize (H3 (WOpen job)). specialize (H4 (WOpen job)). simpl in *.
        split; simpl.
        -- rewrite tally_snoc. simpl. lia.
        -- exists ns, nc, eo, eu. unfold counts. simpl.
           rewrite !tally_snoc. simpl. split_and!; try done; lia.
    + simplify_eq/=. unfold move, open_step.
      destruct (readable w (GCSPath job)); simpl.
      * specialize (H1 (WUpload job)). specialize (H2 (WUpload job)).
        specialize (H3 (WUpload job)). specialize (H4 (WUpload job)). simpl in *.
        split; simpl.
        -- rewrite tally_snoc. simpl. lia.
        -- exists ns, nc, eo, eu. unfold counts. simpl.
           rewrite !tally_snoc. simpl. split_and!; try done; lia.
      * specialize (H1 WRecv). specialize (H2 WRecv). specialize (H3 WRecv).
        specialize (H4 WRecv). simpl in *. split; simpl.
        -- rewrite tally_snoc. simpl. lia.
        -- exists ns, nc, (S eo), eu. unfold counts. simpl.
           rewrite !tally_snoc. simpl. rewrite Her, wrap64_succ.
           split_and!; try done; lia.
    + simplify_eq/=. unfold move, upload_step.
      specialize (H1 WRecv). specialize (H2 WRecv). specialize (H3 WRecv).
      specialize (H4 WRecv).
      destruct (uploadable w (RelativePath job)); simpl in *.
      * split; simpl.
        -- rewrite tally_snoc. simpl. lia.
        -- exists ns, (S nc), eo, eu. unfold counts. simpl.
           rewrite !tally_snoc. simpl. rewrite Hcp, wrap64_succ.
           split_and!; try done; lia.
      * split; simpl.
        -- rewrite tally_snoc. simpl. lia.
        -- exists ns, nc, eo, (S eu). unfold counts. simpl.
           rewrite !tally_snoc. simpl. rewrite Her, wrap64_succ.
           split_and!; try done; try lia. f_equal. lia.
    + done.
Qed.

Lemma reachable_acct s : reachable config classify w s → Acct s.
Proof.
  unfold reachable. intros Hr.
  eapply (rtc_ind_r Acct (init w)); [apply acct_init| |exact Hr].
  intros s1 s2 _ [a Ha] IH. by eapply acct_fire.
Qed.


End Account.

End AccountProofs.

Lemma wrap64_sum3 a b c :
  Go.wrap64 (Go.wrap64 a + Go.wrap64 b + Go.wrap64 c) = Go.wrap64 (a + b + c).
Proof.
  replace (Go.wrap64 a + Go.wrap64 b + Go.wrap64 c)
    with (Go.wrap64 a + (Go.wrap64 b + Go.wrap64 c)) by lia.
  rewrite wrap64_add.
  replace (a + (Go.wrap64 b + Go.wrap64 c)) with (Go.wrap64 b + (a + Go.wrap64 c)) by lia.
  rewrite wrap64_add.
  replace (b + (a + Go.wrap64 c)) with (Go.wrap64 c + (a + b)) by lia.
  rewrite wrap64_add. f_equal. lia.
Qed.



(** ** The migration: what is touched at the two stores *)

Module StoreProofs.

Section Store.
Import Migrate MigrateProofs.
Context (config : Config) (classify : ObjectAttrs → Verdict) (w : World).

Local Abbreviation good := (λ job, job ∈ eligible classify (listing w)).







(** *** A run in which no open and no upload fails *)

Hypothesis Hok : ∀ job, good job →
  readable w (GCSPath job) = true ∧ uploadable w (RelativePath job) = true.








End Store.

End StoreProofs.





(** ** The migration with a worker count that is not positive *)

Module EdgeProofs.

Section ZeroWorkers.
Import Migrate MigrateProofs.
Context (config : Config) (classify : ObjectAttrs → Verdict) (w : World).
Hypothesis HZ : MaxWorkers config = 0.

Lemma capacity_zero : capacity config = 0%nat.
Proof. unfold capacity, chanSize. by rewrite HZ. Qed.

Record Idle (s : State) : Prop := {
  il_workers : workers s = [];
  il_jobs : jobs s = [];
  il_sent : sent (local s) = [];
  il_shared : shared s = shared (init w);
  il_spawn : ∀ todo, pc s = PSpawn todo → todo = 0%nat;
  il_panic : pc s ≠ PPanic
}.

Lemma idle_init : Idle (init w).
Proof. split; simpl; done. Qed.

Lemma idle_fire a s s' : fire config classify w a s = Some s' → Idle s → Idle s'.
Proof.
  unfold fire. destruct (halted s) eqn:Hh; [done|].
  intros Hstep [Hws Hjobs Hsent Hsh Hsp Hp].
  destruct a as [|i]; [|by rewrite Hws in Hstep].
  unfold main_step in Hstep. destruct s as [p loc js cld ws wgc sh]. simpl in *.
  destruct p as [|[|todo]|[|attrs rest]|job rest| | |]; simpl in *; try done.
  - unfold chanSize in Hstep. rewrite HZ in Hstep. simpl in Hstep.
    simplify_eq/=. split; simpl; try done. by intros todo [= <-].
  - simplify_eq/=. split; simpl; done.
  - by specialize (Hsp _ eq_refl).
  - simplify_eq/=. split; simpl; done.
  - destruct (classify attrs); simplify_eq/=; split; simpl; done.
  - rewrite capacity_zero in Hstep. case_decide; [lia|done].
  - destruct wgc; simplify_eq/=. split; simpl; done.
Qed.

Lemma reachable_idle s : reachable config classify w s → Idle s.
Proof.
  unfold reachable. intros Hr.
  eapply (rtc_ind_r Idle (init w)); [apply idle_init| |exact Hr].
  intros s1 s2 _ [a Ha] IH. by eapply idle_fire.
Qed.

(** The listing loop walks to the first eligible object. *)
Lemma walk_to_send rest s :
  reachable config classify w s → pc s = PScan rest →
  eligible classify rest ≠ [] →
  ∃ s0 job rest', reachable config classify w s0 ∧ pc s0 = PSend job rest'.
Proof.
  revert s. induction rest as [|attrs rest IH]; intros s Hs Hpc Hne; [done|].
  rewrite eligible_cons in Hne.
  assert (fire config classify w AMain s = main_step config classify w s) as Hfire.
  { unfold fire, halted. by rewrite Hpc. }
  unfold main_step in Hfire. rewrite Hpc in Hfire.
  destruct (classify attrs) as [| |job] eqn:Hc.
  - apply (IH (set_pc (PScan rest) s)); [|done..].
    eapply rtc_r; [exact Hs|]. by exists AMain.
  - apply (IH (set_local (count_skipped (local s)) (set_pc (PScan rest) s))); [|done..].
    eapply rtc_r; [exact Hs|]. by exists AMain.
  - exists (set_pc (PSend job rest) s), job, rest. split; [|done].
    eapply rtc_r; [exact Hs|]. by exists AMain.
Qed.

Lemma reach_scan :
  reachable config classify w (set_pc (PScan (listing w)) (set_pc (PSpawn 0) (init w))).
Proof.
  eapply rtc_l; [exists AMain|eapply rtc_l; [exists AMain|apply rtc_refl]].
  - unfold fire, main_step, chanSize. simpl. rewrite HZ. simpl. reflexivity.
  - reflexivity.
Qed.

End ZeroWorkers.

(** *** The least [int] as worker count: its double wraps to zero *)

Section LeastWorkers.
Import Migrate MigrateProofs.
Context (config : Config) (classify : ObjectAttrs → Verdict) (w : World).
Hypothesis HM : MaxWorkers config = - 2 ^ 63.

Lemma chanSize_least : chanSize config = 0.
Proof. unfold chanSize. rewrite HM. reflexivity. Qed.

Record Bare (s : State) : Prop := {
  ba_workers : workers s = [];
  ba_spawn : ∀ todo, pc s = PSpawn todo → todo = 0%nat;
  ba_panic : pc s ≠ PPanic
}.

Lemma bare_fire a s s' : fire config classify w a s = Some s' → Bare s → Bare s'.
Proof.
  unfold fire. destruct (halted s) eqn:Hh; [done|].
  intros Hstep [Hws Hsp Hp].
  destruct a as [|i]; [|by rewrite Hws in Hstep].
  unfold main_step in Hstep. destruct s as [p loc js cld ws wgc sh]. simpl in *.
  destruct p as [|[|todo]|[|attrs rest]|job rest| | |]; simpl in *; try done.
  - rewrite chanSize_least, HM in Hstep. simpl in Hstep.
    simplify_eq/=. split; simpl; try done. by intros todo [= <-].
  - simplify_eq/=. split; simpl; done.
  - by specialize (Hsp _ eq_refl).
  - simplify_eq/=. split; simpl; done.
  - destruct (classify attrs); simplify_eq/=; split; simpl; done.
  - case_decide; simplify_eq/=. split; simpl; done.
  - destruct wgc; simplify_eq/=. split; simpl; done.
Qed.

Lemma reachable_bare s : reachable config classify w s → Bare s.
Proof.
  unfold reachable. intros Hr.
  eapply (rtc_ind_r Bare (init w)); [by split| |exact Hr].
  intros s1 s2 _ [a Ha] IH. by eapply bare_fire.
Qed.

End LeastWorkers.

End EdgeProofs.

(** X14. [max_workers] 0 is not refused and deadlocks the migration.
    With [MaxWorkers = 0] the jobs channel has no buffer and no worker is
    started, so once the listing holds an eligible object [main] blocks for
    ever at [jobs <- job] on the first one: under every schedule the run
    stops there (every schedule is finite, a state that can take no step is
    one where [main] stands at the send), the summary is never printed, no
    call is made to either store, and such a blocked state is reached. *)
Theorem zero_workers_block_at_the_first_send
    (config : Migrate.Config) (classify : Migrate.ObjectAttrs → Migrate.Verdict)
    (w : Migrate.World) (s : Migrate.State) :
  Migrate.MaxWorkers config = 0 →
  Migrate.eligible classify (Migrate.listing w) ≠ [] →
  Migrate.reachable config classify w s →
  Migrate.workers s = []
  ∧ Migrate.shared s = Migrate.shared (Migrate.init w)
  ∧ Migrate.halted s = false
  ∧ sn (Migrate.step config classify w) s
  ∧ (red (Migrate.step config classify w) s
     ∨ ((∃ job rest, Migrate.pc s = Migrate.PSend job rest)
        ∧ ∀ a, Migrate.fire config classify w a s = None))
  ∧ ∃ s0 job rest,
      Migrate.reachable config classify w s0 ∧ Migrate.pc s0 = Migrate.PSend job rest.
Proof.
  intros HZ Hne Hs.
  destruct (EdgeProofs.reachable_idle config classify w HZ s Hs)
    as [Hws Hjobs Hsent Hsh Hsp Hp].
  pose proof (MigrateProofs.pool_reachable_inv config classify w s Hs) as HI.
  assert (MigrateProofs.Inv' config classify w s) as HI'.
  { unfold MigrateProofs.Inv in HI. by destruct (Migrate.pc s). }
  assert (Migrate.pc s ≠ Migrate.PWait ∧ Migrate.pc s ≠ Migrate.PDone) as [Hw Hd].
  { pose proof (MigrateProofs.inv_scan _ _ _ _ HI') as Hscan.
    unfold MigrateProofs.scan_ahead in Hscan.
    split; intros Hpc; rewrite Hpc in Hscan; rewrite Hscan, sent_scan0 in Hsent; done. }
  assert (Migrate.halted s = false) as Hh.
  { unfold Migrate.halted. by destruct (Migrate.pc s). }
  split; [done|]. split; [done|]. split; [done|].
  split; [apply MigrateProofs.pool_step_sn|]. split.
  - assert (∀ s', Migrate.main_step config classify w s = Some s' →
              red (Migrate.step config classify w) s) as Hmain.
    { intros s' Hs'. exists s', Migrate.AMain. unfold Migrate.fire. by rewrite Hh. }
    unfold Migrate.main_step in Hmain.
    destruct (Migrate.pc s) as [|todo|[|attrs rest]|job rest| | |] eqn:Hpc; try done.
    + left. case_decide; eauto.
    + left. rewrite (Hsp todo eq_refl) in Hmain. eauto.
    + left. eauto.
    + left. destruct (classify attrs); eauto.
    + right. split; [eauto|]. intros [|i]; unfold Migrate.fire; rewrite Hh.
      * unfold Migrate.main_step. rewrite Hpc, Hjobs.
        rewrite (EdgeProofs.capacity_zero config HZ). by case_decide.
      * by rewrite Hws.
  - apply (EdgeProofs.walk_to_send config classify w (Migrate.listing w)
             (Migrate.set_pc (Migrate.PScan (Migrate.listing w))
                (Migrate.set_pc (Migrate.PSpawn 0) (Migrate.init w))));
      [by apply EdgeProofs.reach_scan|done|done].
Qed.

Lemma zero_workers_block_at_the_first_send_witness :
  (∃ job rest, Migrate.pc EdgeDemo.stuck = Migrate.PSend job rest)
  ∧ Migrate.fire (EdgeDemo.with_workers 0) PoolDemo.classify CopyDemo.world
      Migrate.AMain EdgeDemo.stuck = None
  ∧ Migrate.shared EdgeDemo.stuck = Migrate.shared (Migrate.init CopyDemo.world).
Proof.
  destruct (zero_workers_block_at_the_first_send (EdgeDemo.with_workers 0)
              PoolDemo.classify CopyDemo.world EdgeDemo.stuck)
    as (_ & Hsh & _ & _ & Hstop & _).
  - reflexivity.
  - vm_compute. discriminate.
  - apply pool_exec_reachable. apply rtc_refl.
  - destruct Hstop as [Hred|[Hpc Hnone]].
    + exfalso. destruct Hred as (s' & [|i] & Ha); vm_compute in Ha; discriminate.
    + split; [exact Hpc|]. split; [apply Hnone|exact Hsh].
Defined.

(** X15. A negative [max_workers] is not refused either.  The size
    given to [make] is [MaxWorkers*2], an [int].  For a [max_workers] from
    [-2^62] to [-1] it is negative and [make] panics, so the whole run is
    that one step: no worker is started and nothing is listed or copied.
    Not for every negative [max_workers], though: at [-2^63], the least
    [int], the product wraps around to [0]; [make] returns a channel without
    buffer, the spawning loop starts no worker, and no state of the run has
    panicked. *)
Theorem negative_workers_panic_at_make
    (config : Migrate.Config) (classify : Migrate.ObjectAttrs → Migrate.Verdict)
    (w : Migrate.World) (s : Migrate.State) :
  Migrate.MaxWorkers config < 0 →
  Migrate.reachable config classify w s →
  (- 2 ^ 62 ≤ Migrate.MaxWorkers config →
     Migrate.chanSize config = Migrate.MaxWorkers config * 2
     ∧ (s = Migrate.init w ∨ s = Migrate.set_pc Migrate.PPanic (Migrate.init w))
     ∧ Migrate.fire config classify w Migrate.AMain (Migrate.init w)
       = Some (Migrate.set_pc Migrate.PPanic (Migrate.init w)))
  ∧ (Migrate.MaxWorkers config = - 2 ^ 63 →
     Migrate.chanSize config = 0
     ∧ Migrate.fire config classify w Migrate.AMain (Migrate.init w)
       = Some (Migrate.set_pc (Migrate.PSpawn 0) (Migrate.init w))
     ∧ Migrate.workers s = []
     ∧ Migrate.pc s ≠ Migrate.PPanic).
Proof.
  intros HN Hs. split.
  - intros Hlow.
    assert (Migrate.chanSize config = Migrate.MaxWorkers config * 2) as Hsize.
    { unfold Migrate.chanSize. rewrite wrap64_small; lia. }
    assert (Migrate.fire config classify w Migrate.AMain (Migrate.init w)
            = Some (Migrate.set_pc Migrate.PPanic (Migrate.init w))) as Hfire.
    { unfold Migrate.fire, Migrate.main_step. simpl. rewrite decide_True; [done|lia]. }
    split; [done|]. split; [|done]. unfold Migrate.reachable in Hs.
    eapply (rtc_ind_r (λ s, s = Migrate.init w ∨ s = Migrate.set_pc Migrate.PPanic _)
              (Migrate.init w)); [by left| |exact Hs].
    intros s1 s2 _ [a Ha] [Hs1|Hs1]; rewrite Hs1 in Ha.
    + right. destruct a as [|i]; [|done]. rewrite Hfire in Ha. by simplify_eq.
    + done.
  - intros HM.
    pose proof (EdgeProofs.chanSize_least config HM) as Hsize.
    destruct (EdgeProofs.reachable_bare config classify w HM s Hs) as [Hws _ Hp].
    split; [done|]. split; [|done].
    unfold Migrate.fire, Migrate.main_step. simpl. rewrite Hsize, HM. reflexivity.
Qed.

Lemma negative_workers_panic_at_make_witness :
  EdgeDemo.crashed = Migrate.set_pc Migrate.PPanic (Migrate.init CopyDemo.world)
  ∧ Migrate.chanSize (EdgeDemo.with_workers (-1)) = -2.
Proof.
  destruct (negative_workers_panic_at_make (EdgeDemo.with_workers (-1))
              PoolDemo.classify CopyDemo.world EdgeDemo.crashed) as [Hneg _].
  - simpl. lia.
  - apply pool_exec_reachable. apply rtc_refl.
  - destruct Hneg as (Hsize & [H|H] & _); [simpl; lia| |].
    + vm_compute in H. discriminate.
    + split; [exact H|exact Hsize].
Defined.

(** ** The listing loop: order and counts *)

Section ListingFacts.
Import Migrate MigrateProofs.
Context (ToLower : string → string) (config : Config).

Lemma eligible_sublist classify listing :
  (∀ attrs job, classify attrs = Queued job → GCSPath job = Name attrs) →
  sublist (GCSPath <$> eligible classify listing) (Name <$> listing).
Proof.
  intros Hq. induction listing as [|a l IH]; [done|].
  rewrite eligible_cons. destruct (classify a) as [| |job] eqn:Hc; csimpl.
  - by apply sublist_cons.
  - by apply sublist_cons.
  - rewrite (Hq a job Hc). by apply sublist_skip.
Qed.

Lemma eligible_length classify listing :
  (length (eligible classify listing) + tally (skipped classify) listing
   ≤ length listing)%nat.
Proof.
  induction listing as [|a l IH]; [done|].
  rewrite eligible_cons. unfold tally in *. csimpl. unfold skipped at 1.
  destruct (classify a); simpl; lia.
Qed.

Lemma classify_v1_paths attrs job :
  classify_v1 ToLower config attrs = Queued job →
  GCSPath job = Name attrs ∧ RelativePath job = Name attrs.
Proof. unfold classify_v1. intros H. repeat case_match; by simplify_eq/=. Qed.

Lemma classify_v2_paths attrs job :
  classify_v2 ToLower config attrs = Queued job →
  GCSPath job = Name attrs ∧ RelativePath job = Name attrs
  ∧ CreatedTime job = Created attrs.
Proof. unfold classify_v2. intros H. repeat case_match; by simplify_eq/=. Qed.

Lemma totalProcessed_step a acc :
  (if Go.HasSuffix (Name a) "/" then acc
   else if negb (isVideoFile ToLower (Name a) (VideoExtensions config)) then acc
   else Go.Int64_Add acc 1)
  = match classify_v1 ToLower config a with
    | Ignored => acc
    | _ => Go.Int64_Add acc 1
    end.
Proof. unfold classify_v1. repeat case_match; done. Qed.

Lemma totalProcessed_scan listing acc n q k :
  acc = Go.wrap64 n →
  filesQueued q = Go.wrap64 k → skippedByDate q = Go.wrap64 (n - k) →
  Settings.totalProcessed ToLower config listing acc
  = Go.wrap64 (filesQueued (scan (classify_v1 ToLower config) listing q)
               + skippedByDate (scan (classify_v1 ToLower config) listing q)).
Proof.
  revert acc n q k. induction listing as [|a l IH]; intros acc n q k -> Hq Hs.
  - simpl. rewrite Hq, Hs.
    replace (Go.wrap64 k + Go.wrap64 (n - k)) with (Go.wrap64 k + Go.wrap64 (n - k) + Go.wrap64 0)
      by (change (Go.wrap64 0) with 0; lia).
    rewrite wrap64_sum3. f_equal. lia.
  - simpl. rewrite totalProcessed_step.
    destruct (classify_v1 ToLower config a) as [| |job].
    + by apply (IH _ n _ k).
    + unfold Go.Int64_Add at 1. rewrite wrap64_add.
      apply (IH _ (n + 1) _ k); simpl; [done|done|].
      unfold Go.Int64_Add. rewrite Hs, wrap64_add. f_equal. lia.
    + unfold Go.Int64_Add at 1. rewrite wrap64_add.
      apply (IH _ (n + 1) _ (k + 1)); simpl; [done| |].
      * unfold Go.Int64_Add. by rewrite Hq, wrap64_add.
      * rewrite Hs. f_equal. lia.
Qed.

End ListingFacts.

(** X16. The jobs follow the listing.  In both variants the paths of the
    jobs sent are a subsequence of the object names in listing order (no
    object is queued twice or out of order), each job has the object's name
    both as source path and as destination key, and the jobs sent and the
    objects counted in [skippedByDate] together are no more than the objects
    listed. *)
Theorem jobs_follow_the_listing
    (ToLower : string → string) (config : Migrate.Config)
    (listing : list Migrate.ObjectAttrs) :
  let sent1 := Migrate.sent (Migrate.scan (Migrate.classify_v1 ToLower config) listing
                               Migrate.scan0) in
  let sent2 := Migrate.sent (Migrate.scan (Migrate.classify_v2 ToLower config) listing
                               Migrate.scan0) in
  sublist (Migrate.GCSPath <$> sent1) (Migrate.Name <$> listing)
  ∧ sublist (Migrate.GCSPath <$> sent2) (Migrate.Name <$> listing)
  ∧ Forall (λ job, Migrate.RelativePath job = Migrate.GCSPath job) (sent1 ++ sent2)
  ∧ (length sent1
     + tally (MigrateProofs.skipped (Migrate.classify_v1 ToLower config)) listing
     ≤ length listing)%nat
  ∧ (length sent2
     + tally (MigrateProofs.skipped (Migrate.classify_v2 ToLower config)) listing
     ≤ length listing)%nat.
Proof.
  intros sent1 sent2. unfold sent1, sent2. rewrite !sent_scan0.
  split; [|split; [|split; [|split]]].
  - apply eligible_sublist. intros attrs job Hq.
    by apply classify_v1_paths in Hq as [? _].
  - apply eligible_sublist. intros attrs job Hq.
    by apply classify_v2_paths in Hq as [? _].
  - apply Forall_app. split; apply Forall_forall; intros job Hjob;
      apply MigrateProofs.elem_of_eligible in Hjob as (a & _ & Hq).
    + apply classify_v1_paths in Hq as [-> ->]. done.
    + apply classify_v2_paths in Hq as (-> & -> & _). done.
  - apply eligible_length.
  - apply eligible_length.
Qed.

(** X17. In the first variant the count of video files scanned that the
    summary prints is the sum of the two counts printed next to it: the
    files skipped by date and the files queued (as 64-bit counters, and as
    plain numbers for a listing of fewer than 2^63 objects). *)
Theorem scanned_is_skipped_plus_queued
    (ToLower : string → string) (config : Migrate.Config)
    (listing : list Migrate.ObjectAttrs) :
  let counters := Migrate.scan (Migrate.classify_v1 ToLower config) listing Migrate.scan0 in
  Settings.totalProcessed ToLower config listing 0
  = Go.wrap64 (Migrate.filesQueued counters + Migrate.skippedByDate counters)
  ∧ (Z.of_nat (length listing) < 2 ^ 63 →
       Settings.totalProcessed ToLower config listing 0
       = Migrate.filesQueued counters + Migrate.skippedByDate counters
       ∧ 0 ≤ Settings.totalProcessed ToLower config listing 0 ≤ Z.of_nat (length listing)).
Proof.
  intros counters.
  assert (Settings.totalProcessed ToLower config listing 0
          = Go.wrap64 (Migrate.filesQueued counters + Migrate.skippedByDate counters))
    as Htot by (by apply (totalProcessed_scan _ _ _ _ 0 _ 0)).
  split; [done|]. intros Hlen.
  pose proof (eligible_length (Migrate.classify_v1 ToLower config) listing) as Hle.
  assert (Migrate.filesQueued counters
          = Z.of_nat (length (Migrate.eligible (Migrate.classify_v1 ToLower config) listing)))
    as Hq.
  { unfold counters. rewrite (MigrateProofs.scan_filesQueued _ _ _ 0) by done.
    apply wrap64_small. lia. }
  assert (Migrate.skippedByDate counters
          = Z.of_nat (tally (MigrateProofs.skipped (Migrate.classify_v1 ToLower config))
                        listing)) as Hs.
  { unfold counters. rewrite (MigrateProofs.scan_skippedByDate _ _ _ 0) by done.
    apply wrap64_small. lia. }
  rewrite Htot, Hq, Hs, wrap64_small by lia. lia.
Qed.

Lemma scanned_is_skipped_plus_queued_witness :
  Settings.totalProcessed Go.asciiLower ScanDemo.config ScanDemo.listing_v1 0 = 3
  ∧ Settings.totalProcessed Go.asciiLower ScanDemo.config ScanDemo.listing_v1 0
    = Migrate.filesQueued
        (Migrate.scan (Migrate.classify_v1 Go.asciiLower ScanDemo.config)
           ScanDemo.listing_v1 Migrate.scan0)
      + Migrate.skippedByDate
          (Migrate.scan (Migrate.classify_v1 Go.asciiLower ScanDemo.config)
             ScanDemo.listing_v1 Migrate.scan0).
Proof.
  split; [vm_compute; reflexivity|].
  destruct (scanned_is_skipped_plus_queued Go.asciiLower ScanDemo.config
              ScanDemo.listing_v1) as [_ Hsmall].
  destruct Hsmall as [Heq _]; [reflexivity|]. exact Heq.
Defined.

(** ** The date folder of a path *)

Section PathFacts.
Import Migrate.

Lemma Split_nonempty sep s : Go.Split sep s ≠ [].
Proof.
  destruct s as [|c s]; simpl; [done|].
  destruct (Ascii.eqb c sep); [done|]. by destruct (Go.Split sep s).
Qed.

Lemma Split_segment seg :
  "/"%char ∉ list_ascii_of_string seg → Go.Split "/" seg = [seg].
Proof.
  induction seg as [|c seg IH]; simpl; [done|]. intros Hno.
  apply not_elem_of_cons in Hno as [Hc Hno].
  destruct (Ascii.eqb_spec c "/") as [->|_]; [done|]. by rewrite IH.
Qed.

Lemma Split_first seg rest :
  "/"%char ∉ list_ascii_of_string seg →
  Go.Split "/" (seg +:+ "/" +:+ rest) = seg :: Go.Split "/" rest.
Proof.
  induction seg as [|c seg IH]; simpl; [done|]. intros Hno.
  apply not_elem_of_cons in Hno as [Hc Hno].
  destruct (Ascii.eqb_spec c "/") as [->|_]; [done|]. by rewrite IH.
Qed.

Lemma extractDateFromPath_v2_head path :
  extractDateFromPath_v2 path = Go.Parse_date (default "" (head (Go.Split "/" path))).
Proof.
  unfold extractDateFromPath_v2. pose proof (Split_nonempty "/" path) as Hne.
  destruct (Go.Split "/" path) as [|part parts]; [done|]. done.
Qed.

End PathFacts.

(** X18. Which part of an object name is read as its date.  The first
    variant reads the second [/]-separated segment and fails on a name
    without [/]; the second variant reads the first segment, which is the
    whole name when there is no [/]: [strings.Split] never returns an empty
    slice, so its [empty path] error is never returned, and an empty name is
    read as the date string [""] and refused as such.  Hence a name laid out
    for one variant ([port1/2025-09-07/a.mp4]) is read by the other at the
    wrong segment ([port1]). *)
Theorem date_folder_is_read_by_position (a b rest : string) :
  "/"%char ∉ list_ascii_of_string a →
  "/"%char ∉ list_ascii_of_string b →
  Migrate.extractDateFromPath_v1 (a +:+ "/" +:+ b +:+ "/" +:+ rest) = Go.Parse_date b
  ∧ Migrate.extractDateFromPath_v1 (a +:+ "/" +:+ b) = Go.Parse_date b
  ∧ Migrate.extractDateFromPath_v1 a = None
  ∧ Migrate.extractDateFromPath_v2 (a +:+ "/" +:+ rest) = Go.Parse_date a
  ∧ Migrate.extractDateFromPath_v2 a = Go.Parse_date a
  ∧ (∀ path, Migrate.extractDateFromPath_v2 path
             = Go.Parse_date (default "" (head (Go.Split "/" path))))
  ∧ Migrate.extractDateFromPath_v2 "" = None.
Proof.
  intros Ha Hb. split_and!.
  - unfold Migrate.extractDateFromPath_v1. rewrite !Split_first by done.
    pose proof (Split_nonempty "/" rest). by destruct (Go.Split "/" rest).
  - unfold Migrate.extractDateFromPath_v1.
    by rewrite Split_first, Split_segment by done.
  - unfold Migrate.extractDateFromPath_v1. by rewrite Split_segment by done.
  - by rewrite extractDateFromPath_v2_head, Split_first.
  - by rewrite extractDateFromPath_v2_head, Split_segment.
  - apply extractDateFromPath_v2_head.
  - reflexivity.
Qed.

Lemma date_folder_is_read_by_position_witness :
  Migrate.extractDateFromPath_v1 "port1/2025-09-07/a.mp4" = Some (Go.Date 2025 9 7)
  ∧ Migrate.extractDateFromPath_v2 "port1/2025-09-07/a.mp4" = None
  ∧ Migrate.extractDateFromPath_v1 "port1" = None.
Proof.
  destruct (date_folder_is_read_by_position "port1" "2025-09-07" "a.mp4")
    as (H1 & _ & H3 & H4 & _).
  - vm_compute. intros H. repeat (apply elem_of_cons in H as [H|H]; [discriminate|]).
    by apply elem_of_nil in H.
  - vm_compute. intros H. repeat (apply elem_of_cons in H as [H|H]; [discriminate|]).
    by apply elem_of_nil in H.
  - split; [exact H1|]. split; [exact H4|exact H3].
Defined.

(** ** The configuration *)

Section SettingsFacts.
Import Migrate Settings.

Lemma LoadConfig_inr defaults ReadFile path config :
  LoadConfig defaults ReadFile path = inr config →
  Go.Parse_date (CutoffDateStr config) = Some (CutoffDate config).
Proof.
  unfold LoadConfig. intros H.
  destruct (if negb (path =? "")%string then _ else _) as [c|]; [|done].
  destruct (Go.Parse_date (CutoffDateStr c)) as [t|] eqn:Ht; [|done].
  by simplify_eq/=.
Qed.

End SettingsFacts.

(** X19. [LoadConfig] checks the cutoff date and nothing else.  When it
    returns a configuration, [CutoffDate] is the instant its [CutoffDateStr]
    names.  A configuration file that cannot be read is no error: the
    defaults are used, as for an empty path, and both variants' defaults
    load with cutoff 2025-09-07.  A file that does not decode is an error,
    and so is a [cutoff_date] that is no date.  Every other key is taken as
    given: whatever [max_workers] the file holds, zero and negative numbers
    included, is in the configuration returned. *)
Theorem LoadConfig_checks_the_cutoff_date_only
    (defaults : Migrate.Config) (ReadFile : string → Settings.ConfigFile)
    (path : string) :
  (∀ config, Settings.LoadConfig defaults ReadFile path = inr config →
     Go.Parse_date (Migrate.CutoffDateStr config) = Some (Migrate.CutoffDate config))
  ∧ (ReadFile path = Settings.Unreadable →
       Settings.LoadConfig defaults ReadFile path
       = Settings.LoadConfig defaults ReadFile "")
  ∧ (path ≠ "" → ReadFile path = Settings.Malformed →
       Settings.LoadConfig defaults ReadFile path = inl Settings.ErrParseFile)
  ∧ (∀ fields, path ≠ "" → ReadFile path = Settings.Object fields →
       match Go.Parse_date (default (Migrate.CutoffDateStr defaults)
                              (Settings.cutoff_date fields)) with
       | None => Settings.LoadConfig defaults ReadFile path = inl Settings.ErrParseCutoff
       | Some t =>
         ∃ config, Settings.LoadConfig defaults ReadFile path = inr config
           ∧ Migrate.CutoffDate config = t
           ∧ Migrate.MaxWorkers config
             = default (Migrate.MaxWorkers defaults) (Settings.max_workers fields)
       end)
  ∧ Settings.LoadConfig Settings.defaults_v1 (λ _, Settings.Unreadable) Settings.configPath
    = inr (Settings.set_CutoffDate (Go.Date 2025 9 7) Settings.defaults_v1)
  ∧ Settings.LoadConfig Settings.defaults_v2 (λ _, Settings.Unreadable) Settings.configPath
    = inr (Settings.set_CutoffDate (Go.Date 2025 9 7) Settings.defaults_v2).
Proof.
  split_and!.
  - intros config. apply LoadConfig_inr.
  - intros Hread. unfold Settings.LoadConfig. rewrite Hread. simpl.
    by destruct (negb (path =? "")%string).
  - intros Hpath Hread. unfold Settings.LoadConfig. rewrite Hread.
    by destruct (String.eqb_spec path "").
  - intros fields Hpath Hread. unfold Settings.LoadConfig. rewrite Hread.
    destruct (String.eqb_spec path ""); [done|]. simpl.
    destruct (Go.Parse_date _) as [t|]; [|done]. by eexists.
  - reflexivity.
  - reflexivity.
Qed.

(** ** Dates: the order of the instants is the order of the folder names *)

Section DateFacts.

(** The days from January 1 of year 1 to January 1 of [year], and to a
    date. *)
Definition yearStart (year : Z) : Z :=
  let y := year - 1 in 365 * y + y / 4 - y / 100 + y / 400.

Definition dayNumber (year month day : Z) : Z :=
  yearStart year + Go.daysBefore (Z.to_nat (month - 1)) year + (day - 1).

Definition civil (year month day : Z) : Prop :=
  1 ≤ month ≤ 12 ∧ 1 ≤ day ≤ Go.daysIn month year.

Lemma Date_dayNumber y m d :
  Go.Date y m d = (dayNumber y m d - 719162) * 86400 * 1000000000.
Proof. reflexivity. Qed.

Lemma daysIn_bounds m y : 28 ≤ Go.daysIn m y ≤ 31.
Proof. unfold Go.daysIn. repeat case_match; lia. Qed.

Lemma daysBefore_mono k k' y : (k ≤ k')%nat → Go.daysBefore k y ≤ Go.daysBefore k' y.
Proof.
  induction 1 as [|k' _ IH]; [done|]. simpl Go.daysBefore.
  pose proof (daysIn_bounds (Z.of_nat (S k')) y). lia.
Qed.

Lemma daysBefore_month m y :
  1 ≤ m →
  Go.daysBefore (Z.to_nat m) y = Go.daysBefore (Z.to_nat (m - 1)) y + Go.daysIn m y.
Proof.
  intros Hm. replace (Z.to_nat m) with (S (Z.to_nat (m - 1))) by lia.
  cbn [Go.daysBefore]. do 2 f_equal. lia.
Qed.

Lemma daysBefore_year y :
  Go.daysBefore 12 y = 365 + (if Go.isLeap y then 1 else 0).
Proof.
  unfold Go.daysBefore, Go.daysIn. simpl. destruct (Go.isLeap y); lia.
Qed.

Lemma yearStart_next y :
  yearStart (y + 1) = yearStart y + 365 + (if Go.isLeap y then 1 else 0).
Proof.
  unfold yearStart, Go.isLeap. replace (y + 1 - 1) with y by lia.
  destruct (Z.eqb_spec (y mod 4) 0), (Z.eqb_spec (y mod 100) 0),
    (Z.eqb_spec (y mod 400) 0); simpl; Z.div_mod_to_equations; lia.
Qed.

Lemma yearStart_mono y y' : y < y' → yearStart (y + 1) ≤ yearStart y'.
Proof.
  intros Hlt. unfold yearStart. replace (y + 1 - 1) with y by lia.
  Z.div_mod_to_equations. lia.
Qed.

Lemma dayNumber_in_year y m d :
  civil y m d → yearStart y ≤ dayNumber y m d < yearStart (y + 1).
Proof.
  intros [Hm Hd]. unfold dayNumber.
  pose proof (yearStart_next y) as Hnext. pose proof (daysBefore_year y) as Hyear.
  pose proof (daysBefore_mono 0 (Z.to_nat (m - 1)) y ltac:(lia)) as H0.
  pose proof (daysBefore_mono (Z.to_nat m) 12 y ltac:(lia)) as H1.
  rewrite daysBefore_month in H1 by lia. change (Go.daysBefore 0 y) with 0 in H0.
  lia.
Qed.

Lemma dayNumber_lex y m d y' m' d' :
  civil y m d → civil y' m' d' →
  y < y' ∨ (y = y' ∧ (m < m' ∨ (m = m' ∧ d < d'))) →
  dayNumber y m d < dayNumber y' m' d'.
Proof.
  intros Hc Hc' [Hy|[<- [Hm|[<- Hd]]]].
  - pose proof (dayNumber_in_year y m d Hc). pose proof (dayNumber_in_year y' m' d' Hc').
    pose proof (yearStart_mono y y' Hy). lia.
  - destruct Hc as [Hm1 Hd1], Hc' as [Hm2 Hd2]. unfold dayNumber.
    pose proof (daysBefore_mono (Z.to_nat m) (Z.to_nat (m' - 1)) y ltac:(lia)) as H1.
    rewrite daysBefore_month in H1 by lia. lia.
  - unfold dayNumber. lia.
Qed.

(** The byte of a decimal digit. *)
Definition chr (n : Z) : ascii := ascii_of_N (Z.to_N (48 + n)).

Lemma digit_chr c n : Go.digit c = Some n → c = chr n ∧ 0 ≤ n ≤ 9.
Proof.
  unfold Go.digit, chr. intros H.
  destruct (_ && _) eqn:Hr; [|done]. apply andb_true_iff in Hr as [H1 H2].
  apply N.leb_le in H1, H2. simplify_eq/=. split; [|lia].
  replace (Z.to_N (48 + (Z.of_N (N_of_ascii c) - 48))) with (N_of_ascii c) by lia.
  by rewrite ascii_N_embedding.
Qed.

Lemma compare_chr n n' :
  0 ≤ n ≤ 9 → 0 ≤ n' ≤ 9 → Ascii.compare (chr n) (chr n') = (n ?= n').
Proof.
  intros Hn Hn'. unfold Ascii.compare, chr.
  rewrite !N_ascii_embedding by lia.
  destruct (N.compare_spec (Z.to_N (48 + n)) (Z.to_N (48 + n'))) as [H|H|H];
    symmetry; [apply Z.compare_eq_iff|apply Z.compare_lt_iff|apply Z.compare_gt_iff]; lia.
Qed.

(** What [Go.Parse_date] accepts: ten bytes [YYYY-MM-DD] that name a date
    of the calendar. *)
Lemma Parse_date_inv s t :
  Go.Parse_date s = Some t →
  ∃ a b c d e f g h,
    (0 ≤ a ≤ 9 ∧ 0 ≤ b ≤ 9 ∧ 0 ≤ c ≤ 9 ∧ 0 ≤ d ≤ 9)
    ∧ (0 ≤ e ≤ 9 ∧ 0 ≤ f ≤ 9 ∧ 0 ≤ g ≤ 9 ∧ 0 ≤ h ≤ 9)
    ∧ s = string_of_list_ascii
            [chr a; chr b; chr c; chr d; "-"%char; chr e; chr f; "-"%char; chr g; chr h]
    ∧ civil (1000 * a + 100 * b + 10 * c + d) (10 * e + f) (10 * g + h)
    ∧ t = Go.Date (1000 * a + 100 * b + 10 * c + d) (10 * e + f) (10 * g + h).
Proof.
  unfold Go.Parse_date. intros H.
  destruct (list_ascii_of_string s)
    as [|y1 [|y2 [|y3 [|y4 [|h1 [|m1 [|m2 [|h2 [|d1 [|d2 [|]]]]]]]]]]] eqn:Hs; try done.
  destruct (Go.digit y1) as [a|] eqn:Ha; [|done].
  destruct (Go.digit y2) as [b|] eqn:Hb; [|done].
  destruct (Go.digit y3) as [c|] eqn:Hc; [|done].
  destruct (Go.digit y4) as [d|] eqn:Hd; [|done].
  destruct (Go.digit m1) as [e|] eqn:He; [|done].
  destruct (Go.digit m2) as [f|] eqn:Hf; [|done].
  destruct (Go.digit d1) as [g|] eqn:Hg; [|done].
  destruct (Go.digit d2) as [h|] eqn:Hh; [|done].
  destruct (_ && _) eqn:Hok; [|done]. simplify_eq/=.
  repeat (apply andb_true_iff in Hok as [Hok ?]).
  apply digit_chr in Ha as [-> ?], Hb as [-> ?], Hc as [-> ?], Hd as [-> ?].
  apply digit_chr in He as [-> ?], Hf as [-> ?], Hg as [-> ?], Hh as [-> ?].
  exists a, b, c, d, e, f, g, h. split; [done|]. split; [done|]. split.
  - rewrite <- (string_of_list_ascii_of_string s), Hs.
    apply Ascii.eqb_eq in Hok as ->.
    match goal with H : Ascii.eqb h2 _ = true |- _ => apply Ascii.eqb_eq in H as -> end.
    done.
  - split; [|done]. unfold civil. lia.
Qed.

Lemma Date_lt y m d y' m' d' :
  civil y m d → civil y' m' d' →
  y < y' ∨ (y = y' ∧ (m < m' ∨ (m = m' ∧ d < d'))) →
  Go.Date y m d < Go.Date y' m' d'.
Proof.
  intros Hc Hc' Hlex. pose proof (dayNumber_lex _ _ _ _ _ _ Hc Hc' Hlex).
  rewrite !Date_dayNumber. lia.
Qed.

Lemma Parse_date_compare a b ta tb :
  Go.Parse_date a = Some ta → Go.Parse_date b = Some tb →
  String.compare a b = (ta ?= tb).
Proof.
  intros Ha Hb.
  apply Parse_date_inv in Ha
    as (a1 & a2 & a3 & a4 & a5 & a6 & a7 & a8 & Hy & Hmd & -> & Hc & ->).
  apply Parse_date_inv in Hb
    as (b1 & b2 & b3 & b4 & b5 & b6 & b7 & b8 & Hy' & Hmd' & -> & Hc' & ->).
  simpl String.compare. rewrite !compare_chr by lia.
  change (Ascii.compare "-" "-") with Eq. cbv iota.
  assert (∀ x y, Lt = (x ?= y) ↔ x < y) as Hlt by (intros; split; intros; [by apply Z.compare_lt_iff|symmetry; by apply Z.compare_lt_iff]).
  assert (∀ x y, Gt = (x ?= y) ↔ y < x) as Hgt by (intros; split; intros; [by apply Z.compare_gt_iff|symmetry; by apply Z.compare_gt_iff]).
  destruct (Z.compare_spec a1 b1); [|apply Hlt, Date_lt; [done|done|lia]
                                   |apply Hgt, Date_lt; [done|done|lia]].
  destruct (Z.compare_spec a2 b2); [|apply Hlt, Date_lt; [done|done|lia]
                                   |apply Hgt, Date_lt; [done|done|lia]].
  destruct (Z.compare_spec a3 b3); [|apply Hlt, Date_lt; [done|done|lia]
                                   |apply Hgt, Date_lt; [done|done|lia]].
  destruct (Z.compare_spec a4 b4); [|apply Hlt, Date_lt; [done|done|lia]
                                   |apply Hgt, Date_lt; [done|done|lia]].
  destruct (Z.compare_spec a5 b5); [|apply Hlt, Date_lt; [done|done|lia]
                                   |apply Hgt, Date_lt; [done|done|lia]].
  destruct (Z.compare_spec a6 b6); [|apply Hlt, Date_lt; [done|done|lia]
                                   |apply Hgt, Date_lt; [done|done|lia]].
  destruct (Z.compare_spec a7 b7); [|apply Hlt, Date_lt; [done|done|lia]
                                   |apply Hgt, Date_lt; [done|done|lia]].
  destruct (Z.compare_spec a8 b8); [|apply Hlt, Date_lt; [done|done|lia]
                                   |apply Hgt, Date_lt; [done|done|lia]].
  subst. symmetry. apply Z.compare_refl.
Qed.

End DateFacts.

(** X20. Date folders are ordered like their names.  For two strings that
    [time.Parse("2006-01-02", ...)] accepts, comparing the instants is
    comparing the strings byte by byte: the earlier date is the smaller
    string, and two folder names give the same instant only when they are
    the same string.  So the cutoff test [folderDate.Before(CutoffDate)]
    excludes exactly the date folders whose name is smaller than
    [CutoffDateStr]. *)
Theorem folder_dates_are_ordered_like_their_names
    (folder cutoff : string) (folderDate cutoffDate : Go.Time) :
  Go.Parse_date folder = Some folderDate →
  Go.Parse_date cutoff = Some cutoffDate →
  String.compare folder cutoff = (folderDate ?= cutoffDate)
  ∧ Go.Before folderDate cutoffDate = String.ltb folder cutoff
  ∧ (folderDate = cutoffDate ↔ folder = cutoff).
Proof.
  intros Hf Hc. pose proof (Parse_date_compare folder cutoff _ _ Hf Hc) as Hcmp.
  split; [done|]. split.
  - unfold Go.Before, String.ltb, Z.ltb. rewrite Hcmp.
    by destruct (folderDate ?= cutoffDate).
  - split.
    + intros ->. apply String.compare_eq_iff. rewrite Hcmp. apply Z.compare_refl.
    + intros ->. congruence.
Qed.

Lemma folder_dates_are_ordered_like_their_names_witness :
  Go.Before (Go.Date 2025 9 6) (Go.Date 2025 9 7) = String.ltb "2025-09-06" "2025-09-07"
  ∧ Go.Before (Go.Date 2024 2 29) (Go.Date 2025 9 7) = true.
Proof.
  destruct (folder_dates_are_ordered_like_their_names "2025-09-06" "2025-09-07"
              (Go.Date 2025 9 6) (Go.Date 2025 9 7)) as (_ & H & _).
  - reflexivity.
  - reflexivity.
  - split; [exact H|reflexivity].
Defined.

(** ** The migration: how far the listing runs ahead *)

Section AheadFacts.
Import Migrate MigrateProofs AccountProofs.

Lemma starting_le_length (ws : list Worker) :
  (tally uncounted ws + tally at_head ws ≤ length ws)%nat.
Proof.
  unfold tally. induction ws as [|g ws IH]; csimpl; [lia|].
  destruct g; simpl; lia.
Qed.

End AheadFacts.

(** X21. The listing loop is held back by the workers.  With a
    [MaxWorkers] that is positive and whose double is an [int], in every
    state of every schedule the jobs channel holds at most [2 * MaxWorkers]
    jobs, at most [MaxWorkers] workers exist, and the jobs sent are at most
    [3 * MaxWorkers] more than the [HeadObject] calls made: whatever the
    size of the bucket, no more than three pools of jobs are waiting or
    being started. *)
Theorem listing_is_held_back_by_the_workers
    (config : Migrate.Config) (classify : Migrate.ObjectAttrs → Migrate.Verdict)
    (w : Migrate.World) (s : Migrate.State) :
  0 < Migrate.MaxWorkers config < 2 ^ 62 →
  Migrate.reachable config classify w s →
  Z.of_nat (length (Migrate.jobs s)) ≤ 2 * Migrate.MaxWorkers config
  ∧ Z.of_nat (length (Migrate.workers s)) ≤ Migrate.MaxWorkers config
  ∧ Z.of_nat (length (Migrate.sent (Migrate.local s)))
    ≤ Z.of_nat (tally AccountProofs.is_probe (Migrate.calls (Migrate.shared s)))
      + 3 * Migrate.MaxWorkers config.
Proof.
  intros HN Hs.
  pose proof (MigrateProofs.pool_reachable_inv config classify w s Hs) as HI.
  destruct (AccountProofs.reachable_acct config classify w s Hs) as [Hrecv _].
  pose proof (starting_le_length (Migrate.workers s)) as Hstart.
  pose proof (MigrateProofs.chanSize_small config HN) as Hsize.
  unfold MigrateProofs.Inv in HI. destruct (Migrate.pc s) eqn:Hpc;
    try (pose proof (MigrateProofs.inv_cap _ _ _ _ HI) as Hcap;
         pose proof (MigrateProofs.inv_workers _ _ _ _ HI) as Hws;
         unfold Migrate.capacity in Hcap; rewrite Hsize in Hcap; lia).
  destruct HI as [Hneg _]. lia.
Qed.

Lemma listing_is_held_back_by_the_workers_witness :
  Z.of_nat (length (Migrate.jobs PoolDemo.midway)) ≤ 4
  ∧ Z.of_nat (length (Migrate.workers PoolDemo.midway)) ≤ 2.
Proof.
  destruct (listing_is_held_back_by_the_workers ScanDemo.config PoolDemo.classify
              PoolDemo.world PoolDemo.midway) as (Hjobs & Hws & _).
  - simpl. lia.
  - apply pool_exec_reachable. apply rtc_refl.
  - split; [exact Hjobs|exact Hws].
Defined.

(** ** The extension test *)

Section VideoFacts.
Import Migrate.
Context (ToLower : string → string).

Lemma plain_bytes t :
  "."%char ∉ list_ascii_of_string t → "/"%char ∉ list_ascii_of_string t →
  Forall plain (list_ascii_of_string t).
Proof.
  intros Hdot Hslash. apply Forall_forall. intros c Hc. split; intros ->; done.
Qed.

Lemma Ext_plain t : Forall plain (list_ascii_of_string t) → Go.Ext t = "".
Proof.
  intros Ht. apply bytes_inj. rewrite Ext_scan.
  rewrite <- (app_nil_r (rev _)), ext_scan_plain by done. done.
Qed.

Lemma Ext_after_slash stem t :
  Forall plain (list_ascii_of_string t) → Go.Ext (stem +:+ "/" +:+ t) = "".
Proof.
  intros Ht. apply bytes_inj.
  rewrite Ext_scan, !bytes_app, !rev_app_distr, <- (assoc_L (++)).
  rewrite ext_scan_plain by done. done.
Qed.

Lemma isVideoFile_elem filename extensions :
  isVideoFile ToLower filename extensions = true
  ↔ ToLower (Go.Ext filename) ∈ extensions.
Proof.
  unfold isVideoFile. rewrite existsb_exists. split.
  - intros (x & Hx & Heq). apply String.eqb_eq in Heq as ->.
    by apply list_elem_of_In.
  - intros Hin. exists (ToLower (Go.Ext filename)). split.
    + by apply list_elem_of_In.
    + apply String.eqb_refl.
Qed.

End VideoFacts.

(** X22. [isVideoFile] looks at the bytes after the last dot of the last
    path segment and at nothing else: a name [stem.t], where [t] has neither
    dot nor slash, is a video exactly when the lower-cased [.t] is in the
    allow-list, as it is written there; a name whose last segment has no dot
    (dots in folder names do not count) is a video only if the lower-cased
    empty string is in the list. *)
Theorem isVideoFile_reads_the_last_extension
    (ToLower : string → string) (stem t : string) (extensions : list string) :
  "."%char ∉ list_ascii_of_string t →
  "/"%char ∉ list_ascii_of_string t →
  (Migrate.isVideoFile ToLower (stem +:+ "." +:+ t) extensions = true
   ↔ ToLower ("." +:+ t) ∈ extensions)
  ∧ (Migrate.isVideoFile ToLower t extensions = true ↔ ToLower "" ∈ extensions)
  ∧ (Migrate.isVideoFile ToLower (stem +:+ "/" +:+ t) extensions = true
     ↔ ToLower "" ∈ extensions).
Proof.
  intros Hdot Hslash. pose proof (plain_bytes t Hdot Hslash) as Ht.
  rewrite !isVideoFile_elem.
  rewrite (Ext_app stem ("." +:+ t) (list_ascii_of_string t)) by done.
  by rewrite (Ext_plain t), (Ext_after_slash stem t).
Qed.

Lemma isVideoFile_reads_the_last_extension_witness :
  Migrate.isVideoFile Go.asciiLower "2025-09-07/b.MP4" [".mp4"; ".avi"] = true
  ∧ ¬ Migrate.isVideoFile Go.asciiLower "2025.09.07/MP4" [".mp4"; ".avi"] = true.
Proof.
  destruct (isVideoFile_reads_the_last_extension Go.asciiLower "2025-09-07/b" "MP4"
              [".mp4"; ".avi"]) as (Hdot & _ & _).
  - vm_compute. intros H. repeat (apply elem_of_cons in H as [H|H]; [discriminate|]).
    by apply elem_of_nil in H.
  - vm_compute. intros H. repeat (apply elem_of_cons in H as [H|H]; [discriminate|]).
    by apply elem_of_nil in H.
  - split; [apply Hdot; by left|]. vm_compute. discriminate.
Defined.

(** ** The migration: the channel and the WaitGroup *)

Section DrainFacts.
Import Migrate MigrateProofs.

Lemma exited_live (ws : list Worker) i :
  ws !! i = Some WExit → (tally live ws < length ws)%nat.
Proof.
  assert (∀ l : list Worker, (tally live l ≤ length l)%nat) as Hle.
  { intros l. unfold tally. induction l as [|g l IH]; csimpl; [lia|].
    destruct g; simpl; lia. }
  revert i. induction ws as [|g ws IH]; intros [|i] Hi; simplify_eq/=.
  - specialize (Hle ws). unfold tally in *. csimpl. lia.
  - specialize (IH i Hi). unfold tally in *. csimpl. destruct g; simpl; lia.
Qed.

Lemma live_zero_all_exited (ws : list Worker) :
  tally live ws = 0%nat → Forall (λ g, g = WExit) ws.
Proof.
  unfold tally. induction ws as [|g ws IH]; csimpl; [constructor|]. intros Hz.
  destruct g; simpl in *; try lia. constructor; [done|]. apply IH. lia.
Qed.

End DrainFacts.

(** X23. The jobs channel is closed after the last send and drained
    before any worker leaves.  In every state of every schedule, the
    channel is closed exactly when [main] is past the listing loop, so no
    send meets a closed channel; a worker has returned only if the channel
    is closed and empty, so no job is left behind; and when the summary is
    printed every worker has returned, the WaitGroup counter is zero, and
    with a positive [MaxWorkers] there are [MaxWorkers] workers and the
    channel is empty. *)
Theorem summary_waits_for_every_worker
    (config : Migrate.Config) (classify : Migrate.ObjectAttrs → Migrate.Verdict)
    (w : Migrate.World) (s : Migrate.State) :
  Migrate.reachable config classify w s →
  (Migrate.closed s = true ↔ Migrate.pc s = Migrate.PWait ∨ Migrate.pc s = Migrate.PDone)
  ∧ (∀ i, Migrate.workers s !! i = Some Migrate.WExit →
       Migrate.closed s = true ∧ Migrate.jobs s = [])
  ∧ (Migrate.pc s = Migrate.PDone →
       Forall (λ g, g = Migrate.WExit) (Migrate.workers s)
       ∧ Migrate.wg s = 0%nat
       ∧ (0 < Migrate.MaxWorkers config →
            Z.of_nat (length (Migrate.workers s)) = Migrate.MaxWorkers config
            ∧ Migrate.jobs s = [])).
Proof.
  intros Hs.
  pose proof (MigrateProofs.pool_reachable_inv config classify w s Hs) as HI.
  unfold MigrateProofs.Inv in HI.
  destruct (Migrate.pc s) eqn:Hpc;
    try (destruct HI as [_ ->]; simpl; split; [split; [done|intros [?|?]; done]|];
         split; [intros i Hi; done|done]).
  all: pose proof (MigrateProofs.inv_closed _ _ _ _ HI) as Hcld;
    pose proof (MigrateProofs.inv_live _ _ _ _ HI) as Hlive;
    pose proof (MigrateProofs.inv_drained _ _ _ _ HI) as Hdrain;
    pose proof (MigrateProofs.inv_workers _ _ _ _ HI) as Hws;
    pose proof (MigrateProofs.inv_wg _ _ _ _ HI) as Hwg;
    try rewrite Hpc in Hcld; try rewrite Hpc in Hws; simpl in Hcld, Hws.
  all: assert (∀ i, Migrate.workers s !! i = Some Migrate.WExit →
                 Migrate.closed s = true ∧ Migrate.jobs s = []) as Hexit
    by (intros i Hi; pose proof (exited_live _ i Hi) as Hlt;
        split; [destruct (Migrate.closed s) eqn:Hc; [done|];
                specialize (Hlive eq_refl); lia|by apply Hdrain]).
  all: split; [rewrite Hcld; split; [try done; auto|intros [?|?]; done]|].
  all: split; [exact Hexit|]; try done.
  intros _. destruct (MigrateProofs.inv_done _ _ _ _ HI Hpc) as [Hz Hjobs].
  split; [by apply live_zero_all_exited|]. split; [lia|].
  intros HN. split; [lia|]. apply Hjobs. lia.
Qed.

Lemma summary_waits_for_every_worker_witness :
  Migrate.workers CopyDemo.final = [Migrate.WExit; Migrate.WExit]
  ∧ Migrate.jobs CopyDemo.final = []
  ∧ Migrate.closed CopyDemo.final = true.
Proof.
  destruct (summary_waits_for_every_worker ScanDemo.config PoolDemo.classify
              CopyDemo.world CopyDemo.final) as (_ & Hexit & Hdone).
  - apply pool_exec_reachable. apply rtc_refl.
  - split; [vm_compute; reflexivity|].
    destruct (Hexit 0%nat) as [Hc Hj]; [vm_compute; reflexivity|].
    split; [exact Hj|exact Hc].
Defined.

(** ** The listing loop of the running program and the loop on its own *)

Section RefineFacts.
Import Migrate MigrateProofs.
Context (config : Config) (classify : ObjectAttrs → Verdict) (w : World).

Lemma sent_prefix s :
  Inv' config classify w s →
  sent (local s) `prefix_of` eligible classify (listing w).
Proof.
  intros HI. pose proof (inv_scan _ _ _ _ HI) as Hscan.
  apply (f_equal sent) in Hscan. rewrite sent_scan0 in Hscan.
  unfold scan_ahead in Hscan. rewrite <- Hscan.
  destruct (pc s); rewrite ?scan_sent; simpl;
    try (by apply prefix_app_r); try done.
  rewrite <- (assoc_L (++)). by apply prefix_app_r.
Qed.

End RefineFacts.

(** X24. The running listing loop sends what the loop on its own sends.
    Under every schedule the jobs sent so far are a prefix of the eligible
    jobs of the listing, in listing order, however the workers interleave
    with the sends; and once [main] has left the loop its local counters and
    the jobs sent are those of the sequential scan of the whole listing. *)
Theorem listing_loop_sends_in_listing_order
    (config : Migrate.Config) (classify : Migrate.ObjectAttrs → Migrate.Verdict)
    (w : Migrate.World) (s : Migrate.State) :
  Migrate.reachable config classify w s →
  Migrate.sent (Migrate.local s)
    `prefix_of` Migrate.eligible classify (Migrate.listing w)
  ∧ (Migrate.pc s = Migrate.PWait ∨ Migrate.pc s = Migrate.PDone →
       Migrate.local s = Migrate.scan classify (Migrate.listing w) Migrate.scan0
       ∧ Migrate.sent (Migrate.local s) = Migrate.eligible classify (Migrate.listing w)).
Proof.
  intros Hs.
  pose proof (MigrateProofs.pool_reachable_inv config classify w s Hs) as HI.
  unfold MigrateProofs.Inv in HI. split.
  - destruct (Migrate.pc s) eqn:Hpc; try (exact (sent_prefix config classify w s HI)).
    destruct HI as [_ ->]. simpl. apply prefix_nil.
  - intros Hpc.
    assert (MigrateProofs.Inv' config classify w s) as HI'.
    { destruct Hpc as [Hpc|Hpc]; rewrite Hpc in HI; exact HI. }
    pose proof (MigrateProofs.inv_scan _ _ _ _ HI') as Hscan.
    unfold MigrateProofs.scan_ahead in Hscan.
    assert (Migrate.local s = Migrate.scan classify (Migrate.listing w) Migrate.scan0)
      as Hloc by (destruct Hpc as [Hpc|Hpc]; by rewrite Hpc in Hscan).
    split; [done|]. by rewrite Hloc, sent_scan0.
Qed.

Lemma listing_loop_sends_in_listing_order_witness :
  Migrate.sent (Migrate.local PoolDemo.midway)
    `prefix_of` Migrate.eligible PoolDemo.classify ScanDemo.listing_v2
  ∧ Migrate.sent (Migrate.local CopyDemo.final)
    = Migrate.eligible PoolDemo.classify ScanDemo.listing_v2.
Proof.
  split.
  - apply (listing_loop_sends_in_listing_order ScanDemo.config PoolDemo.classify
             PoolDemo.world PoolDemo.midway).
    apply pool_exec_reachable. apply rtc_refl.
  - destruct (listing_loop_sends_in_listing_order ScanDemo.config PoolDemo.classify
                CopyDemo.world CopyDemo.final) as [_ Hdone].
    + apply pool_exec_reachable. apply rtc_refl.
    + destruct Hdone as [_ Hsent]; [right; vm_compute; reflexivity|]. exact Hsent.
Defined.
